(** * duplicate-package-checker-webpack-plugin: a shallow embedding of
    [src/index.js] and the properties of its analysis core.

    The plugin is one JavaScript file.  Its functions are embedded here
    one by one, under their own names:

    - [cleanPath], [cleanPathRelativeToContext]   (path normalisation)
    - [getClosestPackage]               (package locator)
    - [getIssuer], [getIssuerPath]      (issuer chain)
    - [forEachModule], [aggregate]      (the [compilation.modules.forEach] loop)
    - [classifyName], [classify]        (the [for (name in modules)] loop)
    - [pushDiagnostics], [emit]         (formatting and the hook handler)

    The libraries the file calls ([find-root], [require], [path], [semver],
    [chalk]) are not part of the repository; they are the fields of a
    [Platform] record that every function takes.  JavaScript values are
    modelled as follows: strings as [string] (sequences of code units,
    compared unit by unit as [<] does); arrays as lists; the objects used
    as dictionaries ([modules], [duplicates], the result of [_.groupBy]) as
    association lists in property-creation order, enumerated in the order
    ECMAScript prescribes ([ownPropertyOrder]); the module graph as a heap
    of module objects addressed by references, so that issuer chains may
    be cyclic.  What [require] gives for a [package.json] is the JSON value
    [null] or an object, modelled by its [name] (a string, possibly
    absent) and its [version] (a string); a number, a string, a boolean
    or an array has no [name] and behaves as an object without one;
    metadata whose [name] is neither absent nor a string, or whose
    [version] is absent or is not a string, is outside the model.  Recursive functions that JavaScript
    does not guarantee to return take a fuel argument and answer [Diverge]
    when it runs out. *)

From Stdlib Require Import Bool Arith NArith ZArith Lia List Ascii String.
From Stdlib Require Import Permutation Sorted OrderedTypeEx.
Import ListNotations.

Local Open Scope string_scope.
Local Open Scope list_scope.
Local Open Scope bool_scope.

(** String concatenation, JavaScript's [+] on strings. *)
Local Infix "+++" := String.append (right associativity, at level 60).

(* ================================================================== *)
(** * Part I: the embedding *)
(* ================================================================== *)

(** ** Results of a computation: a value, a thrown exception, or no
    answer within the fuel given. *)

Inductive error : Type :=
| TypeError (msg : string).

Inductive result (A : Type) : Type :=
| Ret (a : A)
| Throw (e : error)
| Diverge.

Arguments Ret {A} a.
Arguments Throw {A} e.
Arguments Diverge {A}.

Definition bind {A B : Type} (r : result A) (k : A -> result B) : result B :=
  match r with
  | Ret a => k a
  | Throw e => Throw e
  | Diverge => Diverge
  end.

Notation "x <- c ;; k" := (bind c (fun x => k))
  (at level 61, c at next level, right associativity).

(** A loop over an array whose body may throw: [arr.forEach], [for .. in]. *)
Fixpoint foldM {A S : Type} (body : S -> A -> result S) (l : list A) (s : S)
  : result S :=
  match l with
  | [] => Ret s
  | x :: rest => s' <- body s x ;; foldM body rest s'
  end.

(** ** JavaScript strings *)

Definition nl : string := String (ascii_of_nat 10) EmptyString.

(** Truthiness of a value that is either [undefined]/[null] or a string:
    the empty string is falsy. *)
Definition truthy (v : option string) : option string :=
  match v with
  | Some EmptyString => None
  | Some s => Some s
  | None => None
  end.

(** [String(v)] for such a value. *)
Definition toString (v : option string) : string :=
  match v with
  | Some s => s
  | None => "undefined"
  end.

(** [arr.indexOf(x) < 0] *)
Definition notIn (x : string) (arr : list string) : bool :=
  negb (existsb (String.eqb x) arr).

(** [s.replace(pat, EmptyString)] for a string pattern: the first occurrence of
    [pat] is removed. *)
Fixpoint dropString (n : nat) (s : string) : string :=
  match n, s with
  | O, _ => s
  | S k, String _ t => dropString k t
  | S _, EmptyString => EmptyString
  end.

Fixpoint removeFirst (pat s : string) : string :=
  if String.prefix pat s then dropString (String.length pat) s
  else match s with
       | EmptyString => EmptyString
       | String c t => String c (removeFirst pat t)
       end.

(** ** Sorting, [Array.prototype.sort]

    [arraySort before] puts [a] in front of [b] when [before a b] holds,
    that is when the comparator answers a negative number.  The
    algorithm of the engine is not fixed by the language; the model is
    an insertion sort.  [arraySort_unique] below shows that on keys that
    are pairwise distinct and strictly ordered by [before] every sorting
    algorithm returns this list. *)

Fixpoint insertBy {A : Type} (before : A -> A -> bool) (x : A) (l : list A)
  : list A :=
  match l with
  | [] => [x]
  | y :: rest => if before x y then x :: y :: rest
                 else y :: insertBy before x rest
  end.

Definition arraySort {A : Type} (before : A -> A -> bool) (l : list A)
  : list A :=
  fold_right (insertBy before) [] l.

(** ** Objects used as dictionaries

    An object is the list of its own properties in creation order.  Its
    keys are enumerated ([for .. in], [Object.keys], lodash's [_.each])
    with the array indices first, in ascending numeric order, then the
    other keys in creation order. *)

Definition digitVal (c : ascii) : option N :=
  let n := N_of_ascii c in
  if (48 <=? n)%N && (n <=? 57)%N then Some (n - 48)%N else None.

Fixpoint parseDecimal (acc : N) (s : string) : option N :=
  match s with
  | EmptyString => Some acc
  | String c t =>
    match digitVal c with
    | Some d => parseDecimal (10 * acc + d)%N t
    | None => None
    end
  end.

(** A key is an array index when it is the canonical decimal form of an
    integer below [2^32 - 1]. *)
Definition arrayIndex (key : string) : option N :=
  match key with
  | EmptyString => None
  | String c t =>
    if Ascii.eqb c "0" && negb (String.eqb t EmptyString) then None
    else match parseDecimal 0%N key with
         | Some n => if (n <? 4294967295)%N then Some n else None
         | None => None
         end
  end.

(** The same test for a key that is [String(n)] of a number [n]. *)
Definition numberIndex (n : N) : option N :=
  if (n <? 4294967295)%N then Some n else None.

Definition isIndex {K V : Type} (idx : K -> option N) (p : K * V) : bool :=
  match idx (fst p) with Some _ => true | None => false end.

Definition indexBefore {K V : Type} (idx : K -> option N) (p q : K * V)
  : bool :=
  match idx (fst p), idx (fst q) with
  | Some a, Some b => (a <? b)%N
  | _, _ => false
  end.

Definition ownPropertyOrder {K V : Type} (idx : K -> option N)
  (o : list (K * V)) : list (K * V) :=
  arraySort (indexBefore idx) (filter (isIndex idx) o)
  ++ filter (fun p => negb (isIndex idx p)) o.

Fixpoint getOwn {V : Type} (o : list (string * V)) (key : string) : option V :=
  match o with
  | [] => None
  | (k, v) :: rest => if String.eqb k key then Some v else getOwn rest key
  end.

(** [o[key] = v]: an existing own property keeps its place. *)
Fixpoint setOwn {V : Type} (o : list (string * V)) (key : string) (v : V)
  : list (string * V) :=
  match o with
  | [] => [(key, v)]
  | (k, w) :: rest => if String.eqb k key then (k, v) :: rest
                      else (k, w) :: setOwn rest key v
  end.

(** The properties every object literal inherits from [Object.prototype].
    Each of them is a function, or (for [__proto__]) the prototype object
    itself: a truthy value that is not an array. *)
Definition objectPrototypeKeys : list string :=
  [ "constructor"; "__defineGetter__"; "__defineSetter__"; "hasOwnProperty";
    "__lookupGetter__"; "__lookupSetter__"; "isPrototypeOf";
    "propertyIsEnumerable"; "toString"; "valueOf"; "__proto__";
    "toLocaleString" ]%string.

Definition inheritsProperty (key : string) : bool :=
  existsb (String.eqb key) objectPrototypeKeys.

(** ** Data *)

(** The parsed [package.json]. *)
Record PackageJson : Type := {
  pkg_name : option string;
  pkg_version : string
}.

(** What [require] gives for a [package.json]: the file may hold the JSON
    value [null]. *)
Inductive Json : Type :=
| JsonNull
| JsonObject (pkg : PackageJson).

(** What [getClosestPackage] returns: [{ package: pkg, path: root }]. *)
Record ClosestPackage : Type := {
  cp_package : PackageJson;
  cp_path : string
}.

(** A webpack module: [module.resource] and [module.issuer]. *)
Definition ModRef : Type := nat.

Record ModuleObj : Type := {
  mod_resource : option string;
  mod_issuer : option ModRef
}.

(** An element of [modules[name]]:
    [{ version, path, issuerPaths, issuer }]. *)
Record Instance : Type := {
  entry_version : string;
  entry_path : string;
  entry_issuerPaths : list string;
  entry_issuer : option string
}.

(** The argument of the user's [exclude]:
    [Object.assign({ name }, instance)]. *)
Record NamedInstance : Type := {
  ni_name : string;
  ni_instance : Instance
}.

Record Options : Type := {
  verbose : bool;
  showHelp : bool;
  emitError : bool;
  exclude : option (NamedInstance -> bool);
  strict : bool
}.

Definition defaults : Options := {|
  verbose := false;
  showHelp := true;
  emitError := false;
  exclude := None;
  strict := true
|}.

(** The argument of the constructor: each key is present or absent. *)
Record UserOptions : Type := {
  user_verbose : option bool;
  user_showHelp : option bool;
  user_emitError : option bool;
  user_exclude : option (option (NamedInstance -> bool));
  user_strict : option bool
}.

Definition orDefault {A : Type} (given : option A) (default : A) : A :=
  match given with
  | Some a => a
  | None => default
  end.

(** [this.options = _.extend({}, defaults, options)] *)
Definition DuplicatePackageCheckerPlugin (options : UserOptions) : Options := {|
  verbose := orDefault (user_verbose options) (verbose defaults);
  showHelp := orDefault (user_showHelp options) (showHelp defaults);
  emitError := orDefault (user_emitError options) (emitError defaults);
  exclude := orDefault (user_exclude options) (exclude defaults);
  strict := orDefault (user_strict options) (strict defaults)
|}.

(** The part of [compilation] the handler reads and writes, with the
    number of times [callback] has been called. *)
Record Compilation : Type := {
  context : string;
  modules : list ModRef;
  errors : list string;
  warnings : list string;
  callbacks : nat
}.

(** ** The libraries

    [findRoot] and [requireJson] answer [None] when the library call
    throws (both calls sit in one [try]); [semver_major] answers [None]
    when [semver.major] throws its [TypeError]. *)

(** The [TypeError] of the engine for [pkg.name] when [pkg] is [null]
    (the text is V8's). *)
Definition nullNameError : error :=
  TypeError "Cannot read properties of null (reading 'name')".

Record Platform : Type := {
  findRoot : string -> option string;
  requireJson : string -> option Json;
  path_join : string -> string -> string;
  path_resolve : string -> string -> string;
  semver_major : string -> option N;
  chalk_reset : string -> string;
  chalk_green_bold : string -> string;
  chalk_white : string -> string;
  chalk_white_bold : string -> string
}.

(** ** [cleanPath] *)

Definition isSep (c : ascii) : bool :=
  Ascii.eqb c "/" || Ascii.eqb c "\".

(** [s] starts with the characters of [w] followed by a separator. *)
Fixpoint wordThenSep (w : string) (s : string) : bool :=
  match w, s with
  | EmptyString, String d _ => isSep d
  | String a w', String c t => Ascii.eqb a c && wordThenSep w' t
  | _, EmptyString => false
  end.

(** The regular expression [/[\/\\]node_modules[\/\\]/] matches at the
    head of [s]. *)
Definition matchAt (s : string) : bool :=
  match s with
  | String c t => isSep c && wordThenSep "node_modules" t
  | EmptyString => false
  end.

(** [s.split(/[\/\\]node_modules[\/\\]/)]: the pieces between the matches,
    found from left to right without overlap.  [skip] counts the
    characters of the current match still to be passed over. *)
Fixpoint splitNodeModules (skip : nat) (s : string) : list string :=
  match s with
  | EmptyString => [EmptyString]
  | String c t =>
    match skip with
    | S k => splitNodeModules k t
    | O =>
      if matchAt s then EmptyString :: splitNodeModules 13 t
      else match splitNodeModules 0 t with
           | piece :: rest => String c piece :: rest
           | [] => [String c EmptyString]
           end
    end
  end.

Definition cleanPath (path : string) : string :=
  String.concat "/~/" (splitNodeModules 0 path).

Definition cleanPathRelativeToContext (context modulePath : string) : string :=
  let cleanedPath := cleanPath modulePath in
  if String.prefix context cleanedPath
  then "." +++ removeFirst context cleanedPath
  else cleanedPath.

(** ** [getIssuerPath] *)

Definition getIssuerPath (issuers : list string) : string :=
  "~/" +++ String.concat " -> " (rev (removelast issuers)).

Section Plugin.

Variable P : Platform.
Variable heap : ModRef -> ModuleObj.

(** ** [getClosestPackage]

    The [try] ends before [pkg.name] is read: when [require] gives
    [null] the read throws and nothing catches it. *)

Fixpoint getClosestPackage (fuel : nat) (modulePath : string)
  : result (option ClosestPackage) :=
  match fuel with
  | O => Diverge
  | S fuel' =>
    match findRoot P modulePath with
    | None => Ret None
    | Some root =>
      match requireJson P (path_join P root "package.json") with
      | None => Ret None
      | Some JsonNull => Throw nullNameError
      | Some (JsonObject pkg) =>
        match truthy (pkg_name pkg) with
        | None => getClosestPackage fuel' (path_resolve P root "..")
        | Some _ => Ret (Some {| cp_package := pkg; cp_path := root |})
        end
      end
    end
  end.

(** ** [getIssuer] *)

Definition nameAtVersion (pkg : PackageJson) : string :=
  toString (pkg_name pkg) +++ "@" +++ pkg_version pkg.

Definition pushUnique (ret : list string) (p : string) : list string :=
  if notIn p ret then ret ++ [p] else ret.

Fixpoint getIssuer (fuel : nat) (issuer : option ModRef)
  (ret : option (list string)) : result (list string) :=
  match fuel with
  | O => Diverge
  | S fuel' =>
    let ret := match ret with Some r => r | None => [] end in
    match issuer with
    | None => Ret ret
    | Some m =>
      match truthy (mod_resource (heap m)) with
      | None => Ret ret
      | Some resource =>
        pkg <- getClosestPackage fuel resource ;;
        let ret := match pkg with
                   | Some pkg => pushUnique ret (nameAtVersion (cp_package pkg))
                   | None => ret
                   end in
        match mod_issuer (heap m) with
        | Some i => getIssuer fuel' (Some i) (Some ret)
        | None => Ret ret
        end
      end
    end
  end.

(** [module.issuer && module.issuer.resource] *)
Definition issuerResource (module : ModuleObj) : option string :=
  match mod_issuer module with
  | Some i => truthy (mod_resource (heap i))
  | None => None
  end.

(** [module.issuer && module.issuer.resource
      ? getIssuerPath(getIssuer(module)) : null] *)
Definition issuerPathOf (fuel : nat) (m : ModRef) : result (option string) :=
  match issuerResource (heap m) with
  | Some _ => issuers <- getIssuer fuel (Some m) None ;;
              Ret (Some (getIssuerPath issuers))
  | None => Ret None
  end.

(** ** The aggregation loop, [compilation.modules.forEach] *)

(** [modules[pkg.name] || []]: the array stored under the name, a fresh
    array, or the value inherited from [Object.prototype]. *)
Inductive Slot : Type :=
| Arr (instances : list Instance)
| Inherited.

Definition slotOf (store : list (string * list Instance)) (name : string)
  : Slot :=
  match getOwn store name with
  | Some instances => Arr instances
  | None => if inheritsProperty name then Inherited else Arr []
  end.

(** [_.find(arr, m => m.version === version)] *)
Definition findVersion (version : string) (instances : list Instance)
  : option Instance :=
  find (fun i => String.eqb (entry_version i) version) instances.

(** [entry.issuerPaths.push(issuerPath)] when the path is new. *)
Definition addIssuerPath (issuerPath : option string) (entry : Instance)
  : Instance :=
  match truthy issuerPath with
  | Some p =>
    if notIn p (entry_issuerPaths entry)
    then {| entry_version := entry_version entry;
            entry_path := entry_path entry;
            entry_issuerPaths := entry_issuerPaths entry ++ [p];
            entry_issuer := entry_issuer entry |}
    else entry
  | None => entry
  end.

(** The entry found by [_.find] is an element of the array: changing it
    changes the array in place. *)
Fixpoint updateVersion (version : string) (f : Instance -> Instance)
  (instances : list Instance) : list Instance :=
  match instances with
  | [] => []
  | i :: rest =>
    if String.eqb (entry_version i) version then f i :: rest
    else i :: updateVersion version f rest
  end.

Definition forEachModule (fuel : nat) (context : string)
  (store : list (string * list Instance)) (m : ModRef)
  : result (list (string * list Instance)) :=
  let module := heap m in
  match truthy (mod_resource module) with
  | None => Ret store
  | Some resource =>
    closestPackage <- getClosestPackage fuel resource ;;
    match closestPackage with
    | None => Ret store
    | Some closestPackage =>
      let pkg := cp_package closestPackage in
      let packagePath := cp_path closestPackage in
      let modulePath := cleanPathRelativeToContext context packagePath in
      let version := pkg_version pkg in
      let name := toString (pkg_name pkg) in
      let slot := slotOf store name in
      issuerPath <- issuerPathOf fuel m ;;
      match slot with
      | Arr instances =>
        match findVersion version instances with
        | Some _ =>
          Ret (setOwn store name
                 (updateVersion version (addIssuerPath issuerPath) instances))
        | None =>
          let issuer :=
            match issuerResource module with
            | Some r => Some (cleanPathRelativeToContext context r)
            | None => None
            end in
          let entry := {| entry_version := version;
                          entry_path := modulePath;
                          entry_issuerPaths := [];
                          entry_issuer := issuer |} in
          Ret (setOwn store name
                 (instances ++ [addIssuerPath issuerPath entry]))
        end
      | Inherited =>
        Throw (TypeError "modules[pkg.name].push is not a function")
      end
    end
  end.

Definition aggregate (fuel : nat) (context : string) (mods : list ModRef)
  : result (list (string * list Instance)) :=
  foldM (forEachModule fuel context) mods [].

(** ** The classification loop, [for (let name in modules)] *)

(** [_.groupBy(instances, i => semver.major(i.version))]: the groups in
    creation order; the iteratee's exception ends the call. *)
Fixpoint addToGroup (key : N) (i : Instance) (groups : list (N * list Instance))
  : list (N * list Instance) :=
  match groups with
  | [] => [(key, [i])]
  | (k, g) :: rest => if (k =? key)%N then (k, g ++ [i]) :: rest
                      else (k, g) :: addToGroup key i rest
  end.

Definition groupStep (groups : list (N * list Instance)) (i : Instance)
  : result (list (N * list Instance)) :=
  match semver_major P (entry_version i) with
  | Some key => Ret (addToGroup key i groups)
  | None => Throw (TypeError "Invalid Version")
  end.

Definition groupByMajor (instances : list Instance)
  : result (list (N * list Instance)) :=
  foldM groupStep instances [].

(** [_.each(groups, group => {
      if (group.length > 1) filtered = filtered.concat(group) })] *)
Definition concatLargeGroups (groups : list (N * list Instance))
  : list Instance :=
  fold_left
    (fun filtered g =>
       if (1 <? List.length (snd g))%nat then filtered ++ snd g else filtered)
    (ownPropertyOrder numberIndex groups) [].

(** The value of [filtered] after the [if (!strict)] block; [None] stands
    for [continue]. *)
Definition policyFilter (strict : bool) (instances : list Instance)
  : result (option (list Instance)) :=
  if strict then Ret (Some instances)
  else
    groups <- groupByMajor instances ;;
    let filtered := concatLargeGroups groups in
    if (List.length filtered <=? 1)%nat then Ret None
    else Ret (Some filtered).

Definition excludeFilter (exclude : option (NamedInstance -> bool))
  (name : string) (filtered : list Instance) : option (list Instance) :=
  match exclude with
  | None => Some filtered
  | Some ex =>
    let filtered :=
      filter (fun instance =>
                negb (ex {| ni_name := name; ni_instance := instance |}))
             filtered in
    if (List.length filtered <=? 1)%nat then None else Some filtered
  end.

(** One turn of the loop: what is stored in [duplicates[name]], if anything. *)
Definition classifyName (strict : bool)
  (exclude : option (NamedInstance -> bool)) (name : string)
  (instances : list Instance) : result (option (list Instance)) :=
  if (List.length instances <=? 1)%nat then Ret None
  else
    filtered <- policyFilter strict instances ;;
    match filtered with
    | None => Ret None
    | Some filtered => Ret (excludeFilter exclude name filtered)
    end.

Definition classifyStep (strict : bool)
  (exclude : option (NamedInstance -> bool))
  (duplicates : list (string * list Instance))
  (property : string * list Instance)
  : result (list (string * list Instance)) :=
  let (name, instances) := property in
  filtered <- classifyName strict exclude name instances ;;
  match filtered with
  | None => Ret duplicates
  | Some filtered => Ret (setOwn duplicates name filtered)
  end.

Definition classify (strict : bool) (exclude : option (NamedInstance -> bool))
  (store : list (string * list Instance))
  : result (list (string * list Instance)) :=
  foldM (classifyStep strict exclude) (ownPropertyOrder arrayIndex store) [].

(** ** Formatting *)

(** [Object.keys(duplicates).sort()] *)
Definition sortedDuplicateKeys (duplicates : list (string * list Instance))
  : list string :=
  arraySort String.ltb (map fst (ownPropertyOrder arrayIndex duplicates)).

(** [duplicates[name].sort((a, b) => (a.version < b.version ? -1 : 1))] *)
Definition versionBefore (a b : Instance) : bool :=
  String.ltb (entry_version a) (entry_version b).

Definition sortedInstances (duplicates : list (string * list Instance))
  (name : string) : list Instance :=
  match getOwn duplicates name with
  | Some instances => arraySort versionBefore instances
  | None => []
  end.

Definition instanceLine (verbose : bool) (i : Instance) : string :=
  let str := chalk_green_bold P (entry_version i) +++ " " +++
             chalk_white_bold P (String.concat nl (entry_issuerPaths i)) in
  match verbose, truthy (entry_issuer i) with
  | true, Some issuer => str +++ " from " +++ chalk_white_bold P issuer
  | _, _ => str
  end.

Definition helpFooter : string :=
  nl +++ chalk_white_bold P "Check how you can resolve duplicate packages: "
  +++ nl +++
  "https://github.com/kingback/duplicate-package-checker-webpack-plugin#resolving-duplicate-packages-in-your-bundle"
  +++ nl.

Definition diagnostic (verbose : bool) (name : string)
  (instances : list Instance) : string :=
  name +++ nl +++ chalk_reset P "  Multiple versions of " +++
  chalk_green_bold P name +++ chalk_white P (" found:" +++ nl) +++
  "    " +++
  String.concat (nl +++ "    ") (map (instanceLine verbose) instances)
  +++ nl.

(** [sortedDuplicateKeys.map(name => { ... array.push(new Error(error)) })];
    [i] is the counter of the source, advanced only when [showHelp] is set. *)
Fixpoint pushDiagnostics (verbose showHelp : bool) (duplicateCount : nat)
  (sorted : list (string * list Instance)) (i : nat) (array : list string)
  : list string :=
  match sorted with
  | [] => array
  | (name, instances) :: rest =>
    let error := diagnostic verbose name instances in
    let i' := if showHelp then S i else i in
    let error := if showHelp && (i' =? duplicateCount)%nat
                 then error +++ helpFooter else error in
    pushDiagnostics verbose showHelp duplicateCount rest i' (array ++ [error])
  end.

(** The sorted names, each with its sorted instances. *)
Definition report (duplicates : list (string * list Instance))
  : list (string * list Instance) :=
  map (fun name => (name, sortedInstances duplicates name))
      (sortedDuplicateKeys duplicates).

(** ** The handler of the [emit] hook *)

Definition emit (fuel : nat) (options : Options) (compilation : Compilation)
  : result Compilation :=
  store <- aggregate fuel (context compilation) (modules compilation) ;;
  duplicates <- classify (strict options) (exclude options) store ;;
  let duplicateCount := List.length (ownPropertyOrder arrayIndex duplicates) in
  let array := if emitError options then errors compilation
               else warnings compilation in
  let array := match duplicateCount with
               | O => array
               | _ => pushDiagnostics (verbose options) (showHelp options)
                        duplicateCount (report duplicates) 0 array
               end in
  Ret {| context := context compilation;
         modules := modules compilation;
         errors := if emitError options then array else errors compilation;
         warnings := if emitError options then warnings compilation else array;
         callbacks := S (callbacks compilation) |}.

End Plugin.

(* ================================================================== *)
(** * Part II: a small installation used in the examples *)
(* ================================================================== *)

(** [semver.major] as the library (version 5) computes it, for the
    strings of the model (code units below 256): the version is
    refused when it is longer than 256 characters; it is trimmed and
    matched against the full-version pattern, an optional [v], three
    numeric identifiers without leading zeros separated by dots, an
    optional pre-release ([-] and dot-separated identifiers, the
    numeric ones without leading zeros) and optional build metadata
    ([+] and dot-separated identifiers); a component above the largest
    safe integer is refused.  [None] stands for the [TypeError] the
    library throws. *)

Definition isDigit (c : ascii) : bool :=
  match digitVal c with Some _ => true | None => false end.

Definition isLetter (c : ascii) : bool :=
  let n := N_of_ascii c in
  ((65 <=? n) && (n <=? 90) || (97 <=? n) && (n <=? 122))%N.

(** A character of a pre-release or build identifier: [[0-9A-Za-z-]]. *)
Definition isIdentifierChar (c : ascii) : bool :=
  isDigit c || isLetter c || Ascii.eqb c "-".

(** The characters [String.prototype.trim] removes. *)
Definition isWhiteSpace (c : ascii) : bool :=
  let n := N_of_ascii c in
  ((9 <=? n) && (n <=? 13) || (n =? 32) || (n =? 160))%N.

Fixpoint trimStart (s : string) : string :=
  match s with
  | String c t => if isWhiteSpace c then trimStart t else s
  | EmptyString => EmptyString
  end.

Fixpoint trimEnd (s : string) : string :=
  match s with
  | EmptyString => EmptyString
  | String c t =>
    match trimEnd t with
    | EmptyString => if isWhiteSpace c then EmptyString
                     else String c EmptyString
    | t' => String c t'
    end
  end.

Definition trim (s : string) : string := trimEnd (trimStart s).

Fixpoint takeDigits (s : string) : string * string :=
  match s with
  | EmptyString => (EmptyString, EmptyString)
  | String c t =>
    if isDigit c then let (ds, rest) := takeDigits t in (String c ds, rest)
    else (EmptyString, s)
  end.

Fixpoint allDigits (s : string) : bool :=
  match s with
  | EmptyString => true
  | String c t => isDigit c && allDigits t
  end.

(** [0|[1-9]\d*] on a string of digits. *)
Definition numericIdentifier (ds : string) : option N :=
  match ds with
  | EmptyString => None
  | String c t =>
    if Ascii.eqb c "0" && negb (String.eqb t EmptyString) then None
    else parseDecimal 0%N ds
  end.

Definition maxSafeInteger : N := 9007199254740991.

(** A component of the main version: the number, unless it is above
    the largest safe integer. *)
Definition safeComponent (ds : string) : option N :=
  match numericIdentifier ds with
  | Some n => if (n <=? maxSafeInteger)%N then Some n else None
  | None => None
  end.

(** A pre-release identifier made of identifier characters: not empty,
    and without leading zero when it is all digits. *)
Definition prereleaseIdentifier (id : string) : bool :=
  if allDigits id
  then match numericIdentifier id with Some _ => true | None => false end
  else true.

(** A build identifier made of identifier characters: not empty. *)
Definition buildIdentifier (id : string) : bool :=
  negb (String.eqb id EmptyString).

(** [s] continues the identifier [current] and goes on with
    dot-separated identifiers, all of them [valid]: what follows the
    last of them. *)
Fixpoint identifiers (valid : string -> bool) (current : string)
  (s : string) : option string :=
  match s with
  | EmptyString => if valid current then Some EmptyString else None
  | String c t =>
    if isIdentifierChar c
    then identifiers valid (current +++ String c EmptyString) t
    else if valid current
         then if Ascii.eqb c "." then identifiers valid EmptyString t
              else Some s
         else None
  end.

Definition afterDot (s : string) : option string :=
  match s with
  | String c t => if Ascii.eqb c "." then Some t else None
  | EmptyString => None
  end.

(** The end of the pattern: optional build metadata, then the end of
    the string. *)
Definition buildThenEnd (s : string) : bool :=
  match s with
  | EmptyString => true
  | String c t =>
    if Ascii.eqb c "+"
    then match identifiers buildIdentifier EmptyString t with
         | Some EmptyString => true
         | _ => false
         end
    else false
  end.

(** An optional pre-release, then [buildThenEnd]. *)
Definition prereleaseThenEnd (s : string) : bool :=
  match s with
  | String c t =>
    if Ascii.eqb c "-"
    then match identifiers prereleaseIdentifier EmptyString t with
         | Some rest => buildThenEnd rest
         | None => false
         end
    else buildThenEnd s
  | EmptyString => true
  end.

Definition semverMajor (version : string) : option N :=
  if (256 <? String.length version)%nat then None
  else
    let trimmed := trim version in
    let plain := match trimmed with
                 | String c t => if Ascii.eqb c "v" then t else trimmed
                 | EmptyString => trimmed
                 end in
    let (majorDigits, r1) := takeDigits plain in
    match safeComponent majorDigits, afterDot r1 with
    | Some major, Some r2 =>
      let (minorDigits, r3) := takeDigits r2 in
      match safeComponent minorDigits, afterDot r3 with
      | Some _, Some r4 =>
        let (patchDigits, r5) := takeDigits r4 in
        match safeComponent patchDigits with
        | Some _ => if prereleaseThenEnd r5 then Some major else None
        | None => None
        end
      | _, _ => None
      end
    | _, _ => None
    end.

(** [path.join(dir, file)] on POSIX paths that need no normalising. *)
Fixpoint endsWithSlash (s : string) : bool :=
  match s with
  | EmptyString => false
  | String c EmptyString => Ascii.eqb c "/"
  | String _ t => endsWithSlash t
  end.

Definition joinPath (dir file : string) : string :=
  match dir with
  | EmptyString => file
  | _ => if endsWithSlash dir then dir +++ file else dir +++ "/" +++ file
  end.

(** What stands in front of the last [/] of a path. *)
Fixpoint beforeLastSlash (s : string) : option string :=
  match s with
  | EmptyString => None
  | String c t =>
    match beforeLastSlash t with
    | Some d => Some (String c d)
    | None => if Ascii.eqb c "/" then Some EmptyString else None
    end
  end.

(** [path.resolve(dir, "..")] for an absolute path [dir] in normal
    form: the directory above it, the root being above itself. *)
Definition parentDirectory (dir : string) : string :=
  match beforeLastSlash dir with
  | Some EmptyString => "/"
  | Some d => d
  | None => dir
  end.

(** A file system given by tables: for a path the directory [find-root]
    answers, for a file the object its [package.json] holds, and for a
    directory its parent where the table lists one. *)
Definition tablePlatform
  (roots : list (string * string))
  (packages : list (string * PackageJson))
  (parents : list (string * string)) : Platform := {|
  findRoot := getOwn roots;
  requireJson := fun file => option_map JsonObject (getOwn packages file);
  path_join := joinPath;
  path_resolve := fun a _ =>
    match getOwn parents a with Some p => p | None => parentDirectory a end;
  semver_major := semverMajor;
  chalk_reset := fun s => s;
  chalk_green_bold := fun s => s;
  chalk_white := fun s => s;
  chalk_white_bold := fun s => s
|}.

Definition named (n v : string) : PackageJson :=
  {| pkg_name := Some n; pkg_version := v |}.

Definition anonymous (v : string) : PackageJson :=
  {| pkg_name := None; pkg_version := v |}.

Definition heapOf (objects : list ModuleObj) : ModRef -> ModuleObj :=
  fun r => nth r objects {| mod_resource := None; mod_issuer := None |}.

(** An application [app] that requires [b], which requires [c]:
    module 0 is the entry, module 1 a file of [b] issued by it, module 2
    a file of [c] issued by module 1. *)
Definition chainPlatform : Platform :=
  tablePlatform
    [ ("/app/src/index.js", "/app");
      ("/app/node_modules/b/index.js", "/app/node_modules/b");
      ("/app/node_modules/c/index.js", "/app/node_modules/c") ]%string
    [ ("/app/package.json", named "app" "1.0.0");
      ("/app/node_modules/b/package.json", named "b" "2.0.0");
      ("/app/node_modules/c/package.json", named "c" "3.0.0") ]%string
    [].

Definition chainHeap : ModRef -> ModuleObj :=
  heapOf
    [ {| mod_resource := Some "/app/src/index.js"%string; mod_issuer := None |};
      {| mod_resource := Some "/app/node_modules/b/index.js"%string;
         mod_issuer := Some 0 |};
      {| mod_resource := Some "/app/node_modules/c/index.js"%string;
         mod_issuer := Some 1 |} ].

(** A package [c] with a nested directory [lib] whose [package.json]
    parses and has no name. *)
Definition nestedPlatform : Platform :=
  tablePlatform
    [ ("/app/node_modules/c/lib/x.js", "/app/node_modules/c/lib");
      ("/app/node_modules/c", "/app/node_modules/c") ]
    [ ("/app/node_modules/c/lib/package.json", anonymous "0.0.0");
      ("/app/node_modules/c/package.json", named "c" "3.0.0") ]
    [ ("/app/node_modules/c/lib", "/app/node_modules/c") ].

(** An application that requires [b] and [c] 3.0.0, where [b] brings its
    own copy of [c], 3.1.0.  Module 0 is the entry; module 1 a file of
    [b]; modules 2 and 4 files of the outer [c], required by the entry
    and by [b]; module 3 a file of the inner [c], required by [b]. *)
Definition dupPlatform : Platform :=
  tablePlatform
    [ ("/app/src/index.js", "/app");
      ("/app/node_modules/b/index.js", "/app/node_modules/b");
      ("/app/node_modules/c/index.js", "/app/node_modules/c");
      ("/app/node_modules/c/other.js", "/app/node_modules/c");
      ("/app/node_modules/b/node_modules/c/index.js",
       "/app/node_modules/b/node_modules/c") ]
    [ ("/app/package.json", named "app" "1.0.0");
      ("/app/node_modules/b/package.json", named "b" "2.0.0");
      ("/app/node_modules/c/package.json", named "c" "3.0.0");
      ("/app/node_modules/b/node_modules/c/package.json", named "c" "3.1.0") ]
    [].

Definition dupHeap : ModRef -> ModuleObj :=
  heapOf
    [ {| mod_resource := Some "/app/src/index.js"; mod_issuer := None |};
      {| mod_resource := Some "/app/node_modules/b/index.js";
         mod_issuer := Some 0 |};
      {| mod_resource := Some "/app/node_modules/c/index.js";
         mod_issuer := Some 0 |};
      {| mod_resource := Some "/app/node_modules/b/node_modules/c/index.js";
         mod_issuer := Some 1 |};
      {| mod_resource := Some "/app/node_modules/c/other.js";
         mod_issuer := Some 1 |} ].

Definition dupCompilation (mods : list ModRef) : Compilation :=
  {| context := "/app"; modules := mods; errors := []; warnings := [];
     callbacks := 0 |}.

(** What the aggregation pass builds from the five modules. *)
Definition dupStore : list (string * list Instance) :=
  [ ("app", [ {| entry_version := "1.0.0"; entry_path := ".";
                 entry_issuerPaths := []; entry_issuer := None |} ]);
    ("b", [ {| entry_version := "2.0.0"; entry_path := "./~/b";
               entry_issuerPaths := ["~/b@2.0.0"];
               entry_issuer := Some "./src/index.js" |} ]);
    ("c", [ {| entry_version := "3.0.0"; entry_path := "./~/c";
               entry_issuerPaths := ["~/c@3.0.0"; "~/b@2.0.0 -> c@3.0.0"];
               entry_issuer := Some "./src/index.js" |};
            {| entry_version := "3.1.0"; entry_path := "./~/b/~/c";
               entry_issuerPaths := ["~/b@2.0.0 -> c@3.1.0"];
               entry_issuer := Some "./~/b/index.js" |} ]) ].

(** Three copies of [b], at 1.0.0, 1.5.0 and 2.0.0, each required by the
    entry module. *)
Definition relaxedPlatform : Platform :=
  tablePlatform
    [ ("/app/src/index.js", "/app");
      ("/app/node_modules/b/index.js", "/app/node_modules/b");
      ("/app/node_modules/x/node_modules/b/index.js",
       "/app/node_modules/x/node_modules/b");
      ("/app/node_modules/y/node_modules/b/index.js",
       "/app/node_modules/y/node_modules/b") ]
    [ ("/app/package.json", named "app" "1.0.0");
      ("/app/node_modules/b/package.json", named "b" "1.0.0");
      ("/app/node_modules/x/node_modules/b/package.json", named "b" "1.5.0");
      ("/app/node_modules/y/node_modules/b/package.json", named "b" "2.0.0") ]
    [].

Definition relaxedHeap : ModRef -> ModuleObj :=
  heapOf
    [ {| mod_resource := Some "/app/src/index.js"; mod_issuer := None |};
      {| mod_resource := Some "/app/node_modules/b/index.js";
         mod_issuer := Some 0 |};
      {| mod_resource := Some "/app/node_modules/x/node_modules/b/index.js";
         mod_issuer := Some 0 |};
      {| mod_resource := Some "/app/node_modules/y/node_modules/b/index.js";
         mod_issuer := Some 0 |} ].

Definition b_1_0_0 : Instance :=
  {| entry_version := "1.0.0"; entry_path := "./~/b";
     entry_issuerPaths := ["~/b@1.0.0"];
     entry_issuer := Some "./src/index.js" |}.

Definition b_1_5_0 : Instance :=
  {| entry_version := "1.5.0"; entry_path := "./~/x/~/b";
     entry_issuerPaths := ["~/b@1.5.0"];
     entry_issuer := Some "./src/index.js" |}.

Definition b_2_0_0 : Instance :=
  {| entry_version := "2.0.0"; entry_path := "./~/y/~/b";
     entry_issuerPaths := ["~/b@2.0.0"];
     entry_issuer := Some "./src/index.js" |}.

Definition relaxedStore : list (string * list Instance) :=
  [ ("app", [ {| entry_version := "1.0.0"; entry_path := ".";
                 entry_issuerPaths := []; entry_issuer := None |} ]);
    ("b", [ b_1_0_0; b_1_5_0; b_2_0_0 ]) ].

(** An exclusion predicate that rejects the instances of one version. *)
Definition excludeVersion (v : string) : NamedInstance -> bool :=
  fun instance => String.eqb (entry_version (ni_instance instance)) v.

(** The same installation with the entry requiring both copies of [c],
    and the outer [c] requiring a second file of its own: modules 1 and
    2 are two files of [c] 3.0.0 that render the same issuer path and
    have different issuers. *)
Definition verboseHeap : ModRef -> ModuleObj :=
  heapOf
    [ {| mod_resource := Some "/app/src/index.js"; mod_issuer := None |};
      {| mod_resource := Some "/app/node_modules/c/index.js";
         mod_issuer := Some 0 |};
      {| mod_resource := Some "/app/node_modules/c/other.js";
         mod_issuer := Some 1 |};
      {| mod_resource := Some "/app/node_modules/b/node_modules/c/index.js";
         mod_issuer := Some 0 |} ].

Definition verboseOptions : Options :=
  {| verbose := true; showHelp := false; emitError := false;
     exclude := None; strict := true |}.

(** Two copies of [d]; the [package.json] of the inner one gives the
    version 1.0, which is not a semantic version. *)
Definition badVersionPlatform : Platform :=
  tablePlatform
    [ ("/app/src/index.js", "/app");
      ("/app/node_modules/d/index.js", "/app/node_modules/d");
      ("/app/node_modules/e/node_modules/d/index.js",
       "/app/node_modules/e/node_modules/d") ]
    [ ("/app/package.json", named "app" "1.0.0");
      ("/app/node_modules/d/package.json", named "d" "1.0.0");
      ("/app/node_modules/e/node_modules/d/package.json", named "d" "1.0") ]
    [].

Definition badVersionHeap : ModRef -> ModuleObj :=
  heapOf
    [ {| mod_resource := Some "/app/src/index.js"; mod_issuer := None |};
      {| mod_resource := Some "/app/node_modules/d/index.js";
         mod_issuer := Some 0 |};
      {| mod_resource := Some "/app/node_modules/e/node_modules/d/index.js";
         mod_issuer := Some 0 |} ].

Definition relaxedOptions : Options :=
  {| verbose := false; showHelp := true; emitError := false;
     exclude := None; strict := false |}.

(** A package whose name is a property of [Object.prototype]. *)
Definition constructorPlatform : Platform :=
  tablePlatform
    [ ("/app/node_modules/constructor/index.js",
       "/app/node_modules/constructor") ]
    [ ("/app/node_modules/constructor/package.json",
       named "constructor" "1.0.0") ]
    [].

Definition constructorHeap : ModRef -> ModuleObj :=
  heapOf
    [ {| mod_resource := Some "/app/node_modules/constructor/index.js";
         mod_issuer := None |} ].

(** A module that is its own issuer. *)
Definition cyclicHeap : ModRef -> ModuleObj :=
  heapOf
    [ {| mod_resource := Some "/app/src/index.js"; mod_issuer := Some 0 |} ].

(** An exclusion predicate that looks at the recorded issuer. *)
Definition excludeIssuer (issuer : string) : NamedInstance -> bool :=
  fun instance =>
    match entry_issuer (ni_instance instance) with
    | Some r => String.eqb r issuer
    | None => false
    end.

(** An application of two files: the entry requires [util.js]. *)
Definition twoFilesPlatform : Platform :=
  tablePlatform
    [ ("/app/src/index.js", "/app"); ("/app/src/util.js", "/app") ]
    [ ("/app/package.json", named "app" "1.0.0") ]
    [].

Definition twoFilesHeap : ModRef -> ModuleObj :=
  heapOf
    [ {| mod_resource := Some "/app/src/index.js"; mod_issuer := None |};
      {| mod_resource := Some "/app/src/util.js"; mod_issuer := Some 0 |} ].

(** What the aggregation pass builds for the chain [app], [b], [c]: one
    instance of each. *)
Definition chainStore : list (string * list Instance) :=
  [ ("app", [ {| entry_version := "1.0.0"; entry_path := ".";
                 entry_issuerPaths := []; entry_issuer := None |} ]);
    ("b", [ {| entry_version := "2.0.0"; entry_path := "./~/b";
               entry_issuerPaths := ["~/b@2.0.0"];
               entry_issuer := Some "./src/index.js" |} ]);
    ("c", [ {| entry_version := "3.0.0"; entry_path := "./~/c";
               entry_issuerPaths := ["~/b@2.0.0 -> c@3.0.0"];
               entry_issuer := Some "./~/b/index.js" |} ]) ].

(** What it builds for the two copies of [d]. *)
Definition badVersionStore : list (string * list Instance) :=
  [ ("app", [ {| entry_version := "1.0.0"; entry_path := ".";
                 entry_issuerPaths := []; entry_issuer := None |} ]);
    ("d", [ {| entry_version := "1.0.0"; entry_path := "./~/d";
               entry_issuerPaths := ["~/d@1.0.0"];
               entry_issuer := Some "./src/index.js" |};
            {| entry_version := "1.0"; entry_path := "./~/e/~/d";
               entry_issuerPaths := ["~/d@1.0"];
               entry_issuer := Some "./src/index.js" |} ]) ].

(** The platform with the [package.json] at [file] holding [null]. *)
Definition withNullMetadata (file : string) (P : Platform) : Platform := {|
  findRoot := findRoot P;
  requireJson := fun f => if String.eqb f file then Some JsonNull
                          else requireJson P f;
  path_join := path_join P;
  path_resolve := path_resolve P;
  semver_major := semver_major P;
  chalk_reset := chalk_reset P;
  chalk_green_bold := chalk_green_bold P;
  chalk_white := chalk_white P;
  chalk_white_bold := chalk_white_bold P
|}.

(** The chain [app], [b], [c] with the [package.json] of [c] holding
    [null]. *)
Definition nullPlatform : Platform :=
  withNullMetadata "/app/node_modules/c/package.json" chainPlatform.

(** An application that requires [b], which requires a package named
    [9]: a name that is an array index. *)
Definition indexNamePlatform : Platform :=
  tablePlatform
    [ ("/app/src/index.js", "/app");
      ("/app/node_modules/b/index.js", "/app/node_modules/b");
      ("/app/node_modules/9/index.js", "/app/node_modules/9") ]
    [ ("/app/package.json", named "app" "1.0.0");
      ("/app/node_modules/b/package.json", named "b" "2.0.0");
      ("/app/node_modules/9/package.json", named "9" "0.1.0") ]
    [].

Definition indexNameHeap : ModRef -> ModuleObj :=
  heapOf
    [ {| mod_resource := Some "/app/src/index.js"; mod_issuer := None |};
      {| mod_resource := Some "/app/node_modules/b/index.js";
         mod_issuer := Some 0 |};
      {| mod_resource := Some "/app/node_modules/9/index.js";
         mod_issuer := Some 1 |} ].

(** What the aggregation pass builds from the three modules, in
    creation order. *)
Definition indexNameStore : list (string * list Instance) :=
  [ ("app", [ {| entry_version := "1.0.0"; entry_path := ".";
                 entry_issuerPaths := []; entry_issuer := None |} ]);
    ("b", [ {| entry_version := "2.0.0"; entry_path := "./~/b";
               entry_issuerPaths := ["~/b@2.0.0"];
               entry_issuer := Some "./src/index.js" |} ]);
    ("9", [ {| entry_version := "0.1.0"; entry_path := "./~/9";
               entry_issuerPaths := ["~/b@2.0.0 -> 9@0.1.0"];
               entry_issuer := Some "./~/b/index.js" |} ]) ].

(* ================================================================== *)
(** * Part III: notions used to state the properties *)
(* ================================================================== *)

(** ** Paths *)

(** The regular expression of [cleanPath] matches somewhere in [s]. *)
Fixpoint hasMatch (s : string) : bool :=
  matchAt s ||
  match s with
  | String _ t => hasMatch t
  | EmptyString => false
  end.

(** Two [node_modules] segments in a row, sharing the separator between
    them: [/node_modules/node_modules/]. *)
Definition doubleAt (s : string) : bool :=
  matchAt s && wordThenSep "node_modules" (dropString 14 s).

Fixpoint hasDouble (s : string) : bool :=
  doubleAt s ||
  match s with
  | String _ t => hasDouble t
  | EmptyString => false
  end.

(** No character of [w] is a separator. *)
Fixpoint sepFree (w : string) : bool :=
  match w with
  | EmptyString => true
  | String a w' => negb (isSep a) && sepFree w'
  end.

(** [cleanPath] when the first [k] characters of the path belong to a
    match already found. *)
Definition clean (k : nat) (s : string) : string :=
  String.concat "/~/" (splitNodeModules k s).

(** ** The package locator *)

Definition metadataAt (P : Platform) (root : string) : option Json :=
  requireJson P (path_join P root "package.json").

(** The directory the [k]-th search finds: the first search starts at the
    path, each later one in the directory above the root found before. *)
Fixpoint nthRoot (P : Platform) (k : nat) (modulePath : string)
  : option string :=
  match findRoot P modulePath with
  | None => None
  | Some root =>
    match k with
    | O => Some root
    | S k' => nthRoot P k' (path_resolve P root "..")
    end
  end.

(** The [k]-th search finds metadata that parses and has no name. *)
Definition anonymousAt (P : Platform) (k : nat) (modulePath : string) : bool :=
  match nthRoot P k modulePath with
  | Some root =>
    match metadataAt P root with
    | Some (JsonObject pkg) => match truthy (pkg_name pkg) with
                               | None => true
                               | Some _ => false
                               end
    | _ => false
    end
  | None => false
  end.

(** The [k]-th search finds metadata that is [null]. *)
Definition nullAt (P : Platform) (k : nat) (modulePath : string) : bool :=
  match nthRoot P k modulePath with
  | Some root =>
    match metadataAt P root with
    | Some JsonNull => true
    | _ => false
    end
  | None => false
  end.

(** The package at the root of the [k]-th search, if that search finds a
    root and its metadata parses to an object. *)
Definition packageAt (P : Platform) (k : nat) (modulePath : string)
  : option ClosestPackage :=
  match nthRoot P k modulePath with
  | Some root =>
    match metadataAt P root with
    | Some (JsonObject pkg) => Some {| cp_package := pkg; cp_path := root |}
    | _ => None
    end
  | None => None
  end.

Definition hasName (cp : option ClosestPackage) : Prop :=
  match cp with
  | Some cp => exists n, pkg_name (cp_package cp) = Some n /\ n <> EmptyString
  | None => True
  end.

(** ** Issuer chains *)

(** The modules the walk of [getIssuer] visits from [m], when it ends
    within [n] links: it stops in front of a module without resource and
    behind a module without issuer. *)
Fixpoint issuerChain (heap : ModRef -> ModuleObj) (n : nat) (m : ModRef)
  : option (list ModRef) :=
  match truthy (mod_resource (heap m)) with
  | None => Some []
  | Some _ =>
    match mod_issuer (heap m) with
    | None => Some [m]
    | Some i =>
      match n with
      | O => None
      | S n' => option_map (cons m) (issuerChain heap n' i)
      end
    end
  end.

(** The answer of the locator for the resource of [m], with [fuel0]. *)
Definition ownerOf (P : Platform) (heap : ModRef -> ModuleObj) (fuel0 : nat)
  (m : ModRef) : result (option ClosestPackage) :=
  match truthy (mod_resource (heap m)) with
  | Some resource => getClosestPackage P fuel0 resource
  | None => Ret None
  end.

Definition returns {A : Type} (r : result A) : bool :=
  match r with Ret _ => true | _ => false end.

(** The [name@version] strings of the packages owning the modules of a
    chain, in the order of the chain. *)
Definition chainNames (P : Platform) (heap : ModRef -> ModuleObj)
  (fuel0 : nat) (chain : list ModRef) : list string :=
  flat_map
    (fun m => match ownerOf P heap fuel0 m with
              | Ret (Some cp) => [nameAtVersion (cp_package cp)]
              | _ => []
              end)
    chain.

(** A list without its repetitions: each element stays where it first
    occurs. *)
Fixpoint firstOccurrences (l : list string) : list string :=
  match l with
  | [] => []
  | x :: rest =>
    x :: filter (fun y => negb (String.eqb x y)) (firstOccurrences rest)
  end.

(** ** What a module contributes to the aggregation *)

(** The values one turn of the aggregation loop computes from its module
    before it touches [modules]: the name and version of the owning
    package, the normalised package path, the normalised resource of the
    issuer and the rendered issuer path. *)
Record Contribution : Type := {
  c_name : string;
  c_version : string;
  c_path : string;
  c_issuer : option string;
  c_issuerPath : option string
}.

Definition contribution (P : Platform) (heap : ModRef -> ModuleObj)
  (fuel : nat) (context : string) (m : ModRef)
  : result (option Contribution) :=
  match truthy (mod_resource (heap m)) with
  | None => Ret None
  | Some resource =>
    closestPackage <- getClosestPackage P fuel resource ;;
    match closestPackage with
    | None => Ret None
    | Some cp =>
      issuerPath <- issuerPathOf P heap fuel m ;;
      Ret (Some {|
        c_name := toString (pkg_name (cp_package cp));
        c_version := pkg_version (cp_package cp);
        c_path := cleanPathRelativeToContext context (cp_path cp);
        c_issuer :=
          match issuerResource heap (heap m) with
          | Some r => Some (cleanPathRelativeToContext context r)
          | None => None
          end;
        c_issuerPath := issuerPath |})
    end
  end.

Fixpoint contributions (P : Platform) (heap : ModRef -> ModuleObj)
  (fuel : nat) (context : string) (mods : list ModRef)
  : result (list Contribution) :=
  match mods with
  | [] => Ret []
  | m :: rest =>
    c <- contribution P heap fuel context m ;;
    cs <- contributions P heap fuel context rest ;;
    Ret (match c with Some c => c :: cs | None => cs end)
  end.

Definition newEntry (c : Contribution) : Instance :=
  {| entry_version := c_version c;
     entry_path := c_path c;
     entry_issuerPaths := [];
     entry_issuer := c_issuer c |}.

(** The effect of a contribution on the array of its package name. *)
Definition insertInstance (c : Contribution) (instances : list Instance)
  : list Instance :=
  match findVersion (c_version c) instances with
  | Some _ =>
    updateVersion (c_version c) (addIssuerPath (c_issuerPath c)) instances
  | None => instances ++ [addIssuerPath (c_issuerPath c) (newEntry c)]
  end.

Definition instancesOf (store : list (string * list Instance)) (name : string)
  : list Instance :=
  match getOwn store name with
  | Some instances => instances
  | None => []
  end.

(** The instance recorded for a name and a version. *)
Definition instanceOf (store : list (string * list Instance))
  (name version : string) : option Instance :=
  findVersion version (instancesOf store name).

(** The effect of a contribution on [modules] when the name is not one
    inherited from [Object.prototype]. *)
Definition insertContribution (store : list (string * list Instance))
  (c : Contribution) : list (string * list Instance) :=
  setOwn store (c_name c) (insertInstance c (instancesOf store (c_name c))).

Definition sameInstance (c c' : Contribution) : Prop :=
  c_name c = c_name c' /\ c_version c = c_version c'.

(** The invariants of [modules]. *)
Definition distinctVersions (store : list (string * list Instance)) : Prop :=
  forall name instances,
    getOwn store name = Some instances ->
    NoDup (map entry_version instances).

Definition distinctIssuerPaths (store : list (string * list Instance)) : Prop :=
  forall name instances i,
    getOwn store name = Some instances -> In i instances ->
    NoDup (entry_issuerPaths i).

(** The issuer paths recorded for a name and a version. *)
Definition pathsOf (store : list (string * list Instance))
  (name version : string) : list string :=
  match instanceOf store name version with
  | Some i => entry_issuerPaths i
  | None => []
  end.

(** No own property of [modules] has a name that [Object.prototype]
    also provides. *)
Definition ownKeysOnly (store : list (string * list Instance)) : Prop :=
  forall name, In name (map fst store) -> inheritsProperty name = false.

(** An instance keeps its version, path and issuer, and its issuer paths
    only grow. *)
Definition keeps (i i' : Instance) : Prop :=
  entry_version i' = entry_version i /\
  entry_path i' = entry_path i /\
  entry_issuer i' = entry_issuer i /\
  incl (entry_issuerPaths i) (entry_issuerPaths i').

(** ** Orders *)

(** The order of JavaScript's [<] on strings: code unit by code unit. *)
Definition strLt (a b : string) : Prop := String.ltb a b = true.

Definition versionLt (a b : Instance) : Prop :=
  strLt (entry_version a) (entry_version b).

(** A comparator that orders by a string key, and its order. *)
Definition keyBefore {A : Type} (key : A -> string) (a b : A) : bool :=
  String.ltb (key a) (key b).

Definition keyLt {A : Type} (key : A -> string) (a b : A) : Prop :=
  strLt (key a) (key b).

(** ** Classification and report *)

(** What one turn of the classification loop adds to [duplicates]. *)
Definition selectedBy (P : Platform) (strict : bool)
  (exclude : option (NamedInstance -> bool))
  (property : string * list Instance) : list (string * list Instance) :=
  match classifyName P strict exclude (fst property) (snd property) with
  | Ret (Some filtered) => [(fst property, filtered)]
  | _ => []
  end.

(** The instances reported for a name, if the name is reported. *)
Definition classified (P : Platform) (strict : bool)
  (exclude : option (NamedInstance -> bool))
  (store : list (string * list Instance)) (name : string)
  : option (list Instance) :=
  match getOwn store name with
  | Some instances =>
    match classifyName P strict exclude name instances with
    | Ret (Some filtered) => Some filtered
    | _ => None
    end
  | None => None
  end.

(** The compilation after the diagnostics of a report have been pushed
    and [callback] has been called. *)
Definition conclude (P : Platform) (options : Options)
  (compilation : Compilation) (sorted : list (string * list Instance))
  : Compilation :=
  let array := if emitError options then errors compilation
               else warnings compilation in
  let array := pushDiagnostics P (verbose options) (showHelp options)
                 (List.length sorted) sorted 0 array in
  {| context := context compilation;
     modules := modules compilation;
     errors := if emitError options then array else errors compilation;
     warnings := if emitError options then warnings compilation else array;
     callbacks := S (callbacks compilation) |}.

(** A message is the diagnostic of a report entry, with or without the
    help footer. *)
Definition diagnosticOf (P : Platform) (verbose : bool)
  (entry : string * list Instance) (message : string) : Prop :=
  message = diagnostic P verbose (fst entry) (snd entry) \/
  message = diagnostic P verbose (fst entry) (snd entry) +++ helpFooter P.

(** The list of the diagnostic sink the options select. *)
Definition sink (options : Options) (compilation : Compilation)
  : list string :=
  if emitError options then errors compilation else warnings compilation.

(** ** Major-version groups *)

(** The major version of the instance is [k]. *)
Definition majorIs (P : Platform) (k : N) (i : Instance) : bool :=
  match semver_major P (entry_version i) with
  | Some a => (a =? k)%N
  | None => false
  end.

Definition sameMajor (P : Platform) (i j : Instance) : bool :=
  match semver_major P (entry_version i) with
  | Some k => majorIs P k j
  | None => false
  end.

(** The number of instances of the list that share the major version of
    [i]. *)
Definition groupSize (P : Platform) (instances : list Instance)
  (i : Instance) : nat :=
  List.length (filter (sameMajor P i) instances).

(** [semver.major] accepts the version of every instance. *)
Definition validVersions (P : Platform) (instances : list Instance) : bool :=
  forallb (fun i => match semver_major P (entry_version i) with
                    | Some _ => true
                    | None => false
                    end) instances.

Definition getGroup (groups : list (N * list Instance)) (k : N)
  : list Instance :=
  match find (fun g => (fst g =? k)%N) groups with
  | Some g => snd g
  | None => []
  end.

Definition majorOrZero (P : Platform) (i : Instance) : N :=
  match semver_major P (entry_version i) with
  | Some k => k
  | None => 0%N
  end.

Definition isLarge (g : N * list Instance) : bool :=
  (1 <? List.length (snd g))%nat.

(** The groups [_.groupBy] builds when every version parses, and what
    relaxed mode keeps of them. *)
Definition groupAdd (P : Platform) (groups : list (N * list Instance))
  (i : Instance) : list (N * list Instance) :=
  addToGroup (majorOrZero P i) i groups.

Definition groupsOf (P : Platform) (instances : list Instance)
  : list (N * list Instance) :=
  fold_left (groupAdd P) instances [].

Definition relaxedFiltered (P : Platform) (instances : list Instance)
  : list Instance :=
  concatLargeGroups (groupsOf P instances).

(** The instances the exclusion predicate lets through. *)
Definition kept (ex : NamedInstance -> bool) (name : string)
  (filtered : list Instance) : list Instance :=
  filter (fun i => negb (ex {| ni_name := name; ni_instance := i |}))
         filtered.

(** ** Two runs *)

(** Two instances agree except for the order of their issuer paths. *)
Definition samePaths (i i' : Instance) : Prop :=
  entry_version i = entry_version i' /\
  Permutation (entry_issuerPaths i) (entry_issuerPaths i').

(** Two reports list the same names in the same order, and under each
    name instances of the same versions in the same order, whose issuer
    paths agree up to their order. *)
Definition sameUpToPathOrder (r r' : list (string * list Instance)) : Prop :=
  Forall2 (fun e e' => fst e = fst e' /\ Forall2 samePaths (snd e) (snd e'))
          r r'.

(** A report with the issuer paths of every instance put in ascending
    order. *)
Definition canonicalPaths (i : Instance) : Instance :=
  {| entry_version := entry_version i;
     entry_path := entry_path i;
     entry_issuerPaths := arraySort String.ltb (entry_issuerPaths i);
     entry_issuer := entry_issuer i |}.

Definition canonical (r : list (string * list Instance))
  : list (string * list Instance) :=
  map (fun e => (fst e, map canonicalPaths (snd e))) r.

Definition withModules (compilation : Compilation) (mods : list ModRef)
  : Compilation :=
  {| context := context compilation;
     modules := mods;
     errors := errors compilation;
     warnings := warnings compilation;
     callbacks := callbacks compilation |}.

(** Two instance lists hold the same versions, each once, and for each
    version the same issuer paths. *)
Definition sameVersions (l l' : list Instance) : Prop :=
  NoDup (map entry_version l) /\
  NoDup (map entry_version l') /\
  (forall v, In v (map entry_version l) <-> In v (map entry_version l')) /\
  (forall i i', In i l -> In i' l' -> entry_version i = entry_version i' ->
                Permutation (entry_issuerPaths i) (entry_issuerPaths i')).

(** Two version strings have the same major version. *)
Definition sameMajorVersion (P : Platform) (v w : string) : bool :=
  match semver_major P v, semver_major P w with
  | Some a, Some b => (a =? b)%N
  | _, _ => false
  end.

(** The exclusion predicate, if there is one, decides by the package
    name and the version of an instance only. *)
Definition decidesByVersion (exclude : option (NamedInstance -> bool)) : Prop :=
  match exclude with
  | None => True
  | Some ex =>
    forall name i i',
      entry_version i = entry_version i' ->
      ex {| ni_name := name; ni_instance := i |}
      = ex {| ni_name := name; ni_instance := i' |}
  end.

(** Two optional instance lists are both absent, or both present with
    the same versions. *)
Definition sameSelection (r r' : option (list Instance)) : Prop :=
  match r, r' with
  | None, None => True
  | Some f, Some f' => sameVersions f f'
  | _, _ => False
  end.

(** ** Further notions *)

(** The compilation after a pass that pushed nothing. *)
Definition calledBack (compilation : Compilation) : Compilation :=
  {| context := context compilation;
     modules := modules compilation;
     errors := errors compilation;
     warnings := warnings compilation;
     callbacks := S (callbacks compilation) |}.

(** Every package name with two or more instances has versions that
    [semver.major] accepts. *)
Definition relaxedSafe (P : Platform) (store : list (string * list Instance))
  : bool :=
  forallb (fun p => (List.length (snd p) <=? 1)%nat || validVersions P (snd p))
          store.

(** The text of the diagnostic of a report entry, without footer. *)
Definition entryText (P : Platform) (verbose : bool)
  (entry : string * list Instance) : string :=
  diagnostic P verbose (fst entry) (snd entry).

(** The messages with the footer appended to the last one. *)
Fixpoint withFooter (footer : string) (messages : list string)
  : list string :=
  match messages with
  | [] => []
  | message :: rest =>
    match rest with
    | [] => [message +++ footer]
    | _ :: _ => message :: withFooter footer rest
    end
  end.

(** The messages of a pass whose report is [sorted]. *)
Definition messagesOf (P : Platform) (options : Options)
  (sorted : list (string * list Instance)) : list string :=
  if showHelp options
  then withFooter (helpFooter P) (map (entryText P (verbose options)) sorted)
  else map (entryText P (verbose options)) sorted.

(** ** Enumeration of the map *)

(** The package names in the order in which [for (let name in modules)]
    meets them. *)
Definition enumeratedNames (store : list (string * list Instance))
  : list string :=
  map fst (ownPropertyOrder arrayIndex store).

Definition isArrayIndex (name : string) : bool :=
  match arrayIndex name with Some _ => true | None => false end.

(** Both names are array indices, the first not above the second. *)
Definition indexLe (a b : string) : Prop :=
  match arrayIndex a, arrayIndex b with
  | Some x, Some y => (x <= y)%N
  | _, _ => False
  end.

(** ** What a diagnostic says *)

(** The text after the first occurrence of [part] in [s]. *)
Fixpoint afterFirst (part s : string) : option string :=
  if String.prefix part s then Some (dropString (String.length part) s)
  else match s with
       | EmptyString => None
       | String _ t => afterFirst part t
       end.

(** The text holds the parts one after the other, in this order. *)
Fixpoint listsInOrder (parts : list string) (text : string) : bool :=
  match parts with
  | [] => true
  | part :: rest =>
    match afterFirst part text with
    | Some t => listsInOrder rest t
    | None => false
    end
  end.

(** What a diagnostic is to show of an instance: its version, its
    issuer paths joined by newlines and, in verbose mode, its recorded
    issuer if it has one. *)
Definition shownOf (P : Platform) (verbose : bool) (i : Instance)
  : list string :=
  [ chalk_green_bold P (entry_version i);
    chalk_white_bold P (String.concat nl (entry_issuerPaths i)) ]
  ++ (if verbose
      then match truthy (entry_issuer i) with
           | Some issuer => [chalk_white_bold P issuer]
           | None => []
           end
      else []).

(** The message is a diagnostic of the entry: it starts with the
    package name on a line of its own, names the package in its header
    and then shows the instances of the entry one after the other, in
    the order of the entry. *)
Definition describes (P : Platform) (verbose : bool)
  (entry : string * list Instance) (message : string) : Prop :=
  String.prefix (fst entry +++ nl) message = true
  /\ listsInOrder
       ((fst entry +++ nl) :: chalk_green_bold P (fst entry)
        :: flat_map (shownOf P verbose) (snd entry))
       message = true.

(* ================================================================== *)
(** * Part IV: properties *)
(* ================================================================== *)

(** ** [cleanPath] *)

Lemma splitNodeModules_cons (s : string) (k : nat) :
  exists piece rest, splitNodeModules k s = piece :: rest.
Proof.
  revert k. induction s as [|c t IH]; intros k.
  - simpl. eauto.
  - destruct k as [|k]; cbn [splitNodeModules]; [|apply IH].
    destruct (matchAt (String c t)); [eauto|].
    destruct (IH 0) as (piece & rest & ->). eauto.
Qed.

Lemma concat_String (sep : string) (c : ascii) (piece : string)
  (rest : list string) :
  String.concat sep (String c piece :: rest)
  = String c (String.concat sep (piece :: rest)).
Proof. destruct rest; reflexivity. Qed.

Lemma clean_skip (k : nat) (c : ascii) (t : string) :
  clean (S k) (String c t) = clean k t.
Proof. reflexivity. Qed.

Lemma clean_match (c : ascii) (t : string) :
  matchAt (String c t) = true ->
  clean 0 (String c t) = "/~/" +++ clean 13 t.
Proof.
  intros H. unfold clean. cbn [splitNodeModules]. rewrite H.
  destruct (splitNodeModules_cons t 13) as (piece & rest & ->).
  reflexivity.
Qed.

Lemma clean_copy (c : ascii) (t : string) :
  matchAt (String c t) = false ->
  clean 0 (String c t) = String c (clean 0 t).
Proof.
  intros H. unfold clean. cbn [splitNodeModules]. rewrite H.
  destruct (splitNodeModules_cons t 0) as (piece & rest & ->).
  apply concat_String.
Qed.

Lemma clean_drop (k : nat) (s : string) :
  clean k s = clean 0 (dropString k s).
Proof.
  revert s. induction k as [|k IH]; intros s.
  - destruct s; reflexivity.
  - destruct s as [|c t]; [reflexivity|]. rewrite clean_skip. apply IH.
Qed.

Lemma matchAt_isSep (c : ascii) (t : string) :
  matchAt (String c t) = true -> isSep c = true.
Proof. simpl. intros H. apply andb_prop in H. tauto. Qed.

Lemma eqb_sep_false (a c : ascii) :
  isSep a = false -> isSep c = true -> Ascii.eqb a c = false.
Proof.
  intros Ha Hc. destruct (Ascii.eqb_spec a c) as [->|]; congruence.
Qed.

(** Cleaning does not change whether a path starts with a given word
    followed by a separator. *)
Lemma wordThenSep_clean (w : string) :
  sepFree w = true ->
  forall s, wordThenSep w (clean 0 s) = wordThenSep w s.
Proof.
  induction w as [|a w IH]; intros Hw s.
  - destruct s as [|c t]; [reflexivity|].
    destruct (matchAt (String c t)) eqn:Hm.
    + rewrite (clean_match _ _ Hm). simpl.
      symmetry. apply (matchAt_isSep _ _ Hm).
    + rewrite (clean_copy _ _ Hm). reflexivity.
  - simpl in Hw. apply andb_prop in Hw. destruct Hw as [Ha Hw].
    apply negb_true_iff in Ha.
    destruct s as [|c t]; [reflexivity|].
    destruct (matchAt (String c t)) eqn:Hm.
    + rewrite (clean_match _ _ Hm).
      cbn [String.append wordThenSep].
      rewrite (eqb_sep_false a "/" Ha eq_refl).
      rewrite (eqb_sep_false a c Ha (matchAt_isSep _ _ Hm)). reflexivity.
    + rewrite (clean_copy _ _ Hm). cbn [wordThenSep].
      rewrite (IH Hw). reflexivity.
Qed.

Lemma hasDouble_tail (c : ascii) (t : string) :
  hasDouble (String c t) = false -> hasDouble t = false.
Proof. simpl. intros H. apply orb_false_elim in H. tauto. Qed.

Lemma hasDouble_drop (k : nat) (s : string) :
  hasDouble s = false -> hasDouble (dropString k s) = false.
Proof.
  revert s. induction k as [|k IH]; intros s H.
  - destruct s; exact H.
  - destruct s as [|c t]; [reflexivity|].
    simpl. apply IH. exact (hasDouble_tail _ _ H).
Qed.

Lemma dropString_length (k : nat) (s : string) :
  String.length (dropString k s) <= String.length s.
Proof.
  revert s. induction k as [|k IH]; intros s.
  - destruct s; simpl; lia.
  - destruct s as [|c t]; simpl; [lia|]. specialize (IH t). lia.
Qed.

(** After cleaning a path without adjacent [node_modules] segments no
    match of the regular expression is left. *)
Lemma hasMatch_clean (n : nat) :
  forall s, String.length s <= n -> hasDouble s = false ->
            hasMatch (clean 0 s) = false.
Proof.
  induction n as [|n IH]; intros s Hlen Hd.
  - destruct s; [reflexivity | simpl in Hlen; lia].
  - destruct s as [|c t]; [reflexivity|].
    simpl in Hlen.
    destruct (matchAt (String c t)) eqn:Hm.
    + rewrite (clean_match _ _ Hm), clean_drop.
      assert (Hw : wordThenSep "node_modules" (dropString 13 t) = false).
      { simpl in Hd. apply orb_false_elim in Hd. destruct Hd as [Hd _].
        unfold doubleAt in Hd. rewrite Hm in Hd. exact Hd. }
      assert (Hrec : hasMatch (clean 0 (dropString 13 t)) = false).
      { apply IH.
        - pose proof (dropString_length 13 t). lia.
        - apply hasDouble_drop. exact (hasDouble_tail _ _ Hd). }
      cbn [String.append hasMatch matchAt].
      rewrite (wordThenSep_clean "node_modules" eq_refl), Hw, Hrec.
      reflexivity.
    + rewrite (clean_copy _ _ Hm).
      cbn [hasMatch matchAt].
      rewrite (wordThenSep_clean "node_modules" eq_refl).
      change (isSep c && wordThenSep "node_modules" t)
        with (matchAt (String c t)).
      rewrite Hm. simpl. apply IH; [lia|]. exact (hasDouble_tail _ _ Hd).
Qed.

Lemma clean_no_match (s : string) :
  hasMatch s = false -> clean 0 s = s.
Proof.
  induction s as [|c t IH]; intros H; [reflexivity|].
  cbn [hasMatch] in H. apply orb_false_elim in H. destruct H as [Hm Ht].
  rewrite (clean_copy _ _ Hm), (IH Ht). reflexivity.
Qed.

(** C4, as stated, fails: a second pass rewrites the [node_modules]
    segment that follows a replaced one. *)
Lemma cleanPath_not_idempotent :
  cleanPath (cleanPath "/a/node_modules/node_modules/b")
  <> cleanPath "/a/node_modules/node_modules/b".
Proof. vm_compute. discriminate. Qed.

(** C4, amended: on every path that has no two adjacent [node_modules]
    segments, normalising twice gives the same string as normalising
    once. *)
Theorem cleanPath_idempotent (path : string) :
  hasDouble path = false ->
  cleanPath (cleanPath path) = cleanPath path.
Proof.
  intros H. change (clean 0 (clean 0 path) = clean 0 path).
  apply clean_no_match. apply (hasMatch_clean (String.length path)); auto.
Qed.

Lemma cleanPath_idempotent_witness :
  hasDouble "/app/node_modules/b/node_modules/c/index.js" = false /\
  cleanPath (cleanPath "/app/node_modules/b/node_modules/c/index.js")
  = cleanPath "/app/node_modules/b/node_modules/c/index.js".
Proof.
  split; [reflexivity|].
  apply (cleanPath_idempotent "/app/node_modules/b/node_modules/c/index.js").
  reflexivity.
Defined.

(** The condition is the weakest one: on a path with two adjacent
    segments the second pass finds a match and shortens the path. *)

Lemma string_length_append (s t : string) :
  String.length (s +++ t) = String.length s + String.length t.
Proof. induction s as [|c s IH]; simpl; [reflexivity | rewrite IH; lia]. Qed.

Lemma wordThenSep_split (w t : string) :
  wordThenSep w t = true ->
  exists d r, t = w +++ String d r /\ isSep d = true.
Proof.
  revert t. induction w as [|a w IH]; intros [|c t]; simpl; try discriminate.
  - intros H. exists c, t. auto.
  - intros H. apply andb_prop in H. destruct H as [Hac Ht].
    apply Ascii.eqb_eq in Hac. subst c.
    destruct (IH t Ht) as (d & r & -> & Hd). exists d, r. auto.
Qed.

Lemma dropString_append (w r : string) :
  dropString (String.length w) (w +++ r) = r.
Proof.
  induction w as [|a w IH]; simpl; [destruct r; reflexivity | exact IH].
Qed.

Lemma hasDouble_after_word (w r : string) :
  sepFree w = true -> hasDouble (w +++ r) = hasDouble r.
Proof.
  induction w as [|a w IH]; intros Hw; [reflexivity|].
  cbn [sepFree] in Hw. apply andb_prop in Hw. destruct Hw as [Ha Hw].
  apply negb_true_iff in Ha.
  cbn [String.append hasDouble]. unfold doubleAt, matchAt.
  rewrite Ha. cbn [andb orb]. exact (IH Hw).
Qed.

Lemma hasMatch_marker (s : string) :
  hasMatch ("/~/" +++ s) = wordThenSep "node_modules" s || hasMatch s.
Proof. reflexivity. Qed.

Lemma match_shape (c : ascii) (t : string) :
  matchAt (String c t) = true ->
  exists d r, t = "node_modules" +++ String d r /\ isSep d = true /\
              dropString 13 t = r.
Proof.
  intros H. unfold matchAt in H. apply andb_prop in H. destruct H as [_ H].
  destruct (wordThenSep_split _ _ H) as (d & r & -> & Hd).
  exists d, r. repeat split; auto.
Qed.

Lemma hasDouble_leaves_match (n : nat) :
  forall s, String.length s <= n -> hasDouble s = true ->
            hasMatch (clean 0 s) = true.
Proof.
  induction n as [|n IH]; intros s Hlen Hd.
  - destruct s; [discriminate | simpl in Hlen; lia].
  - destruct s as [|c t]; [discriminate|]. simpl in Hlen.
    cbn [hasDouble] in Hd.
    destruct (matchAt (String c t)) eqn:Hm.
    + rewrite (clean_match _ _ Hm), clean_drop, hasMatch_marker.
      rewrite (wordThenSep_clean "node_modules" eq_refl).
      destruct (match_shape c t Hm) as (d & r & Ht & Hsep & Hdrop).
      rewrite Hdrop. apply orb_true_iff.
      unfold doubleAt in Hd. rewrite Hm in Hd.
      change (dropString 14 (String c t)) with (dropString 13 t) in Hd.
      rewrite Hdrop in Hd. cbn [andb] in Hd.
      apply orb_prop in Hd. destruct Hd as [Hd|Hd]; [auto|].
      rewrite Ht, (hasDouble_after_word "node_modules" _ eq_refl) in Hd.
      cbn [hasDouble] in Hd. apply orb_prop in Hd.
      destruct Hd as [Hd|Hd].
      * left. unfold doubleAt, matchAt in Hd. apply andb_prop in Hd.
        destruct Hd as [Hd _]. apply andb_prop in Hd. tauto.
      * right. apply IH; [|exact Hd].
        rewrite Ht, string_length_append in Hlen. simpl in Hlen. lia.
    + rewrite (clean_copy _ _ Hm). cbn [hasMatch]. apply orb_true_iff.
      right. apply IH; [lia|].
      unfold doubleAt in Hd. rewrite Hm in Hd. exact Hd.
Qed.

Lemma clean_shortens (n : nat) :
  forall s, String.length s <= n ->
            String.length (clean 0 s) <= String.length s /\
            (hasMatch s = true ->
             String.length (clean 0 s) < String.length s).
Proof.
  induction n as [|n IH]; intros s Hlen.
  - destruct s; [|simpl in Hlen; lia]. split; [reflexivity | discriminate].
  - destruct s as [|c t]; [split; [reflexivity | discriminate]|].
    simpl in Hlen. destruct (matchAt (String c t)) eqn:Hm.
    + rewrite (clean_match _ _ Hm), clean_drop.
      destruct (match_shape c t Hm) as (d & r & Ht & Hsep & Hdrop).
      rewrite Hdrop. rewrite Ht, string_length_append in Hlen.
      simpl in Hlen.
      destruct (IH r ltac:(lia)) as [Hle _].
      rewrite string_length_append. cbn [String.length].
      rewrite Ht, string_length_append. cbn [String.length]. lia.
    + rewrite (clean_copy _ _ Hm). cbn [String.length hasMatch].
      rewrite Hm. simpl. destruct (IH t ltac:(lia)) as [Hle Hlt].
      split; [lia|]. intros H. specialize (Hlt H). lia.
Qed.

Lemma adjacent_segments_break_idempotence (path : string) :
  cleanPath (cleanPath path) = cleanPath path -> hasDouble path = false.
Proof.
  change (clean 0 (clean 0 path) = clean 0 path -> hasDouble path = false).
  intros H. destruct (hasDouble path) eqn:Hd; [|reflexivity]. exfalso.
  pose proof (hasDouble_leaves_match _ path (le_n _) Hd) as Hm.
  destruct (clean_shortens _ (clean 0 path) (le_n _)) as [_ Hlt].
  specialize (Hlt Hm). rewrite H in Hlt. lia.
Qed.

(** ** [getClosestPackage] *)

Lemma truthy_Some (v : option string) (s : string) :
  truthy v = Some s -> v = Some s /\ s <> EmptyString.
Proof.
  destruct v as [[|c t]|]; simpl; intros H; try discriminate.
  injection H as <-. split; [reflexivity | discriminate].
Qed.

Lemma nthRoot_S (P : Platform) (k : nat) (p root : string) :
  findRoot P p = Some root ->
  nthRoot P (S k) p = nthRoot P k (path_resolve P root "..").
Proof. intros H. simpl. rewrite H. reflexivity. Qed.

Lemma anonymousAt_0 (P : Platform) (p : string) :
  anonymousAt P 0 p = true ->
  exists root pkg, findRoot P p = Some root /\
                   metadataAt P root = Some (JsonObject pkg) /\
                   truthy (pkg_name pkg) = None.
Proof.
  unfold anonymousAt. simpl.
  destruct (findRoot P p) as [root|]; [|discriminate].
  destruct (metadataAt P root) as [[|pkg]|] eqn:Hm; try discriminate.
  destruct (truthy (pkg_name pkg)) eqn:E; [discriminate|].
  intros _. exists root, pkg. auto.
Qed.

(** More fuel does not change an answer. *)
Lemma getClosestPackage_fuel_mono (P : Platform) (fuel fuel' : nat)
  (p : string) (r : option ClosestPackage) :
  getClosestPackage P fuel p = Ret r -> fuel <= fuel' ->
  getClosestPackage P fuel' p = Ret r.
Proof.
  revert fuel' p. induction fuel as [|fuel IH]; intros fuel' p H Hle.
  - discriminate.
  - destruct fuel' as [|fuel']; [lia|].
    simpl in *.
    destruct (findRoot P p) as [root|]; [|exact H].
    destruct (requireJson P (path_join P root "package.json"))
      as [[|pkg]|]; try exact H.
    destruct (truthy (pkg_name pkg)); [exact H|].
    apply IH; [exact H | lia].
Qed.

(** X23: when the nearest [k] searches find metadata without a name and
    the next one does not, the locator ends with what that search
    finds: it throws if the metadata is [null], and otherwise returns
    the package of that root (which has a name), or none if no root is
    found or its metadata does not load.  Each retry starts one
    directory above the root found. *)
Theorem getClosestPackage_nearest_named (P : Platform) (k fuel : nat)
  (modulePath : string) :
  (forall i, i < k -> anonymousAt P i modulePath = true) ->
  anonymousAt P k modulePath = false ->
  k < fuel ->
  getClosestPackage P fuel modulePath
  = (if nullAt P k modulePath then Throw nullNameError
     else Ret (packageAt P k modulePath))
  /\ hasName (packageAt P k modulePath).
Proof.
  revert fuel modulePath.
  induction k as [|k IH]; intros fuel p Hanon Hstop Hfuel.
  - destruct fuel as [|fuel]; [lia|].
    unfold anonymousAt, nullAt, packageAt, metadataAt in *. simpl in *.
    destruct (findRoot P p) as [root|]; [|split; [reflexivity | exact I]].
    destruct (requireJson P (path_join P root "package.json"))
      as [[|pkg]|]; try (split; [reflexivity | exact I]).
    destruct (truthy (pkg_name pkg)) as [n|] eqn:E; [|discriminate].
    split; [reflexivity|]. simpl. exists n. apply truthy_Some. exact E.
  - destruct fuel as [|fuel]; [lia|].
    destruct (anonymousAt_0 P p (Hanon 0 ltac:(lia)))
      as (root & pkg & Hroot & Hmeta & Hname).
    assert (Hstep : getClosestPackage P (S fuel) p
                    = getClosestPackage P fuel (path_resolve P root "..")).
    { simpl. rewrite Hroot. unfold metadataAt in Hmeta. rewrite Hmeta, Hname.
      reflexivity. }
    assert (Hpkg : packageAt P (S k) p
                   = packageAt P k (path_resolve P root "..")).
    { unfold packageAt. rewrite (nthRoot_S P k p root Hroot). reflexivity. }
    assert (Hnull : nullAt P (S k) p
                    = nullAt P k (path_resolve P root "..")).
    { unfold nullAt. rewrite (nthRoot_S P k p root Hroot). reflexivity. }
    rewrite Hstep, Hpkg, Hnull. apply IH.
    + intros i Hi. specialize (Hanon (S i) ltac:(lia)).
      unfold anonymousAt in *. rewrite (nthRoot_S P i p root Hroot) in Hanon.
      exact Hanon.
    + unfold anonymousAt in *. rewrite (nthRoot_S P k p root Hroot) in Hstop.
      exact Hstop.
    + lia.
Qed.

Lemma getClosestPackage_nearest_named_witness :
  getClosestPackage nestedPlatform 2 "/app/node_modules/c/lib/x.js"
  = Ret (Some {| cp_package := named "c" "3.0.0";
                 cp_path := "/app/node_modules/c" |})
  /\ hasName (packageAt nestedPlatform 1 "/app/node_modules/c/lib/x.js").
Proof.
  apply (getClosestPackage_nearest_named nestedPlatform 1 2
           "/app/node_modules/c/lib/x.js").
  - intros i Hi. assert (i = 0) as -> by lia. reflexivity.
  - reflexivity.
  - lia.
Defined.

(** C7: the locator does not always answer none where it finds no
    package: for a file whose nearest [package.json] holds [null] the
    metadata loads, the read of [pkg.name] behind the [try] throws, and
    the locator fails with a [TypeError], whatever the fuel. *)
Theorem getClosestPackage_throws_on_null_metadata (fuel : nat) :
  getClosestPackage nullPlatform (S fuel) "/app/node_modules/c/index.js"
  = Throw nullNameError.
Proof. reflexivity. Qed.

(** The handler fails with it: nothing is pushed and the callback is
    not called. *)
Example emit_throws_on_null_metadata :
  emit nullPlatform chainHeap 5 defaults
       {| context := "/app"; modules := [0; 1; 2]; errors := [];
          warnings := []; callbacks := 0 |}
  = Throw nullNameError.
Proof. reflexivity. Qed.

(** ** [getIssuer] *)

Lemma getIssuer_default (P : Platform) (heap : ModRef -> ModuleObj)
  (fuel : nat) (issuer : option ModRef) :
  getIssuer P heap fuel issuer None = getIssuer P heap fuel issuer (Some []).
Proof. destruct fuel; reflexivity. Qed.

Lemma notIn_true (x : string) (l : list string) :
  notIn x l = true <-> ~ In x l.
Proof.
  unfold notIn. rewrite negb_true_iff. split.
  - intros H Hin. assert (existsb (String.eqb x) l = true); [|congruence].
    apply existsb_exists. exists x. split; [exact Hin | apply String.eqb_refl].
  - intros H. destruct (existsb (String.eqb x) l) eqn:E; [|reflexivity].
    apply existsb_exists in E. destruct E as (y & Hy & Hxy).
    apply String.eqb_eq in Hxy. subst y. contradiction.
Qed.

Lemma notIn_false (x : string) (l : list string) :
  notIn x l = false <-> In x l.
Proof.
  destruct (notIn x l) eqn:E.
  - apply notIn_true in E. split; [discriminate | contradiction].
  - split; [intros _ | reflexivity].
    destruct (in_dec string_dec x l) as [H|H]; [exact H|].
    apply notIn_true in H. congruence.
Qed.

Lemma filter_filter_comm {A : Type} (p q : A -> bool) (l : list A) :
  filter p (filter q l) = filter q (filter p l).
Proof.
  induction l as [|x l IH]; [reflexivity|]. simpl.
  destruct (q x) eqn:Hq, (p x) eqn:Hp; simpl; rewrite ?Hq, ?Hp, IH; reflexivity.
Qed.

Lemma filter_andb {A : Type} (p q : A -> bool) (l : list A) :
  filter p (filter q l) = filter (fun x => p x && q x) l.
Proof.
  induction l as [|x l IH]; [reflexivity|]. simpl.
  destruct (q x) eqn:Hq; simpl; rewrite IH.
  - rewrite andb_true_r. reflexivity.
  - rewrite andb_false_r. reflexivity.
Qed.

Lemma filter_absorb {A : Type} (p q : A -> bool) (l : list A) :
  (forall x, p x = true -> q x = true) ->
  filter p (filter q l) = filter p l.
Proof.
  intros H. induction l as [|x l IH]; [reflexivity|]. simpl.
  destruct (q x) eqn:Hq; simpl.
  - rewrite IH. reflexivity.
  - destruct (p x) eqn:Hp; [|exact IH].
    apply H in Hp. congruence.
Qed.

Lemma firstOccurrences_filter (p : string -> bool) (l : list string) :
  firstOccurrences (filter p l) = filter p (firstOccurrences l).
Proof.
  induction l as [|x l IH]; [reflexivity|]. simpl.
  destruct (p x) eqn:Hp; simpl.
  - rewrite IH. f_equal. apply filter_filter_comm.
  - rewrite IH. symmetry. apply filter_absorb.
    intros y Hy. apply negb_true_iff. apply String.eqb_neq.
    intros ->. congruence.
Qed.

Lemma firstOccurrences_In (x : string) (l : list string) :
  In x (firstOccurrences l) <-> In x l.
Proof.
  induction l as [|y l IH]; [tauto|]. simpl.
  rewrite filter_In, IH, negb_true_iff, String.eqb_neq.
  destruct (string_dec y x); intuition congruence.
Qed.


(** Pushing the elements of [names] one by one, each only when absent. *)
Lemma fold_pushUnique (names acc : list string) :
  fold_left pushUnique names acc
  = acc ++ firstOccurrences (filter (fun x => notIn x acc) names).
Proof.
  revert acc. induction names as [|x names IH]; intros acc; simpl.
  - rewrite app_nil_r. reflexivity.
  - rewrite IH. unfold pushUnique. destruct (notIn x acc) eqn:Hx; simpl.
    + rewrite <- app_assoc. simpl. do 2 f_equal.
      rewrite <- firstOccurrences_filter, filter_andb. f_equal.
      apply filter_ext. intros y.
      unfold notIn. rewrite existsb_app. simpl.
      rewrite orb_false_r, negb_orb, (String.eqb_sym y x).
      apply andb_comm.
    + reflexivity.
Qed.

Lemma fold_pushUnique_nil (names : list string) :
  fold_left pushUnique names [] = firstOccurrences names.
Proof.
  rewrite fold_pushUnique. simpl. f_equal.
  induction names as [|x names IH]; [reflexivity|]. simpl. f_equal. exact IH.
Qed.

Lemma chainNames_cons (P : Platform) (heap : ModRef -> ModuleObj)
  (fuel0 : nat) (m : ModRef) (chain : list ModRef) :
  chainNames P heap fuel0 (m :: chain)
  = chainNames P heap fuel0 [m] ++ chainNames P heap fuel0 chain.
Proof. unfold chainNames. simpl. rewrite app_nil_r. reflexivity. Qed.

(** The walk of [getIssuer] along a chain that ends. *)
Lemma getIssuer_chain (P : Platform) (heap : ModRef -> ModuleObj)
  (fuel0 : nat) :
  forall n m chain fuel ret,
    issuerChain heap n m = Some chain ->
    forallb (fun x => returns (ownerOf P heap fuel0 x)) chain = true ->
    fuel0 + List.length chain < fuel ->
    getIssuer P heap fuel (Some m) (Some ret)
    = Ret (fold_left pushUnique (chainNames P heap fuel0 chain) ret).
Proof.
  assert (Hone : forall m resource fuel ret,
    truthy (mod_resource (heap m)) = Some resource ->
    returns (ownerOf P heap fuel0 m) = true -> fuel0 <= fuel ->
    exists pkg,
      getClosestPackage P fuel resource = Ret pkg /\
      fold_left pushUnique (chainNames P heap fuel0 [m]) ret
      = match pkg with
        | Some pkg => pushUnique ret (nameAtVersion (cp_package pkg))
        | None => ret
        end).
  { intros m resource fuel ret Hres Hret Hle.
    unfold chainNames, ownerOf in *. simpl. rewrite Hres in *.
    destruct (getClosestPackage P fuel0 resource) as [pkg| |] eqn:E;
      try discriminate.
    exists pkg. split.
    - apply (getClosestPackage_fuel_mono P fuel0 fuel _ _ E Hle).
    - destruct pkg; reflexivity. }
  induction n as [|n IH]; intros m chain fuel ret Hchain Hret Hfuel;
    (destruct fuel as [|fuel]; [lia|]);
    cbn [issuerChain] in Hchain; cbn [getIssuer];
    destruct (truthy (mod_resource (heap m))) as [resource|] eqn:Hres.
  - destruct (mod_issuer (heap m)) as [i|]; [discriminate|].
    injection Hchain as <-. simpl in Hret, Hfuel.
    rewrite andb_true_r in Hret.
    destruct (Hone m resource (S fuel) ret Hres Hret ltac:(lia))
      as (pkg & -> & ->). reflexivity.
  - injection Hchain as <-. reflexivity.
  - destruct (mod_issuer (heap m)) as [i|].
    + destruct (issuerChain heap n i) as [chain'|] eqn:Hc; [|discriminate].
      injection Hchain as <-. simpl in Hret, Hfuel.
      apply andb_prop in Hret. destruct Hret as [Hm Hrest].
      destruct (Hone m resource (S fuel) ret Hres Hm ltac:(lia))
        as (pkg & -> & Hpush). cbn [bind].
      rewrite (IH i chain' fuel _ Hc Hrest ltac:(lia)).
      f_equal.
      rewrite chainNames_cons, fold_left_app, Hpush. reflexivity.
    + injection Hchain as <-. simpl in Hret, Hfuel.
      rewrite andb_true_r in Hret.
      destruct (Hone m resource (S fuel) ret Hres Hret ltac:(lia))
        as (pkg & -> & ->). reflexivity.
  - injection Hchain as <-. reflexivity.
Qed.



(** ** The rendered issuer path *)

(** C1, as stated, fails: for [c] issued by [b] issued by the entry module
    of [app], the rendered path is not [~/app@1.0.0 -> b@2.0.0], whatever
    the fuel. *)
Lemma issuerPath_drops_root_not_requester :
  ~ exists fuel,
      issuerPathOf chainPlatform chainHeap fuel 2
      = Ret (Some "~/app@1.0.0 -> b@2.0.0").
Proof.
  intros [fuel H].
  destruct fuel as [|[|[|[|fuel]]]]; vm_compute in H; discriminate.
Qed.

(** C1, amended: for a module [c] issued by [b], itself issued by [a]
    which has no issuer, where the three levels resolve to packages with
    pairwise distinct [name@version] strings, the rendered path is [~/]
    followed by [b]'s [name@version], [ -> ] and [c]'s own
    [name@version]: the entry of the root-most module [a] is dropped and
    the others appear root-most first. *)
Theorem issuerPath_three_levels (P : Platform) (heap : ModRef -> ModuleObj)
  (a b c : ModRef) (ra rb rc : string) (pa pb pc : ClosestPackage)
  (fuel0 fuel : nat) :
  mod_issuer (heap c) = Some b ->
  mod_issuer (heap b) = Some a ->
  mod_issuer (heap a) = None ->
  truthy (mod_resource (heap c)) = Some rc ->
  truthy (mod_resource (heap b)) = Some rb ->
  truthy (mod_resource (heap a)) = Some ra ->
  getClosestPackage P fuel0 rc = Ret (Some pc) ->
  getClosestPackage P fuel0 rb = Ret (Some pb) ->
  getClosestPackage P fuel0 ra = Ret (Some pa) ->
  nameAtVersion (cp_package pa) <> nameAtVersion (cp_package pb) ->
  nameAtVersion (cp_package pa) <> nameAtVersion (cp_package pc) ->
  nameAtVersion (cp_package pb) <> nameAtVersion (cp_package pc) ->
  fuel0 + 3 < fuel ->
  issuerPathOf P heap fuel c
  = Ret (Some ("~/" +++ nameAtVersion (cp_package pb) +++ " -> "
               +++ nameAtVersion (cp_package pc))).
Proof.
  intros Hcb Hba Ha Hrc Hrb Hra Hpc Hpb Hpa Hab Hac Hbc Hfuel.
  unfold issuerPathOf, issuerResource. rewrite Hcb, Hrb.
  assert (Hchain : issuerChain heap 2 c = Some [c; b; a]).
  { simpl. rewrite Hrc, Hcb. simpl. rewrite Hrb, Hba. simpl.
    rewrite Hra, Ha. reflexivity. }
  assert (Hown : forall m r p, truthy (mod_resource (heap m)) = Some r ->
                 getClosestPackage P fuel0 r = Ret (Some p) ->
                 ownerOf P heap fuel0 m = Ret (Some p)).
  { intros m r p Hr Hp. unfold ownerOf. rewrite Hr. exact Hp. }
  pose proof (Hown c rc pc Hrc Hpc) as Hoc.
  pose proof (Hown b rb pb Hrb Hpb) as Hob.
  pose proof (Hown a ra pa Hra Hpa) as Hoa.
  rewrite getIssuer_default,
    (getIssuer_chain P heap fuel0 2 c [c; b; a] fuel [] Hchain).
  - unfold chainNames. simpl. rewrite Hoc, Hob, Hoa. simpl.
    unfold pushUnique, notIn. simpl.
    apply String.eqb_neq in Hbc. rewrite Hbc.
    simpl.
    apply String.eqb_neq in Hac. apply String.eqb_neq in Hab.
    rewrite Hac, Hab. simpl. reflexivity.
  - simpl. rewrite Hoc, Hob, Hoa. reflexivity.
  - simpl. lia.
Qed.

Lemma issuerPath_three_levels_witness :
  issuerPathOf chainPlatform chainHeap 5 2
  = Ret (Some "~/b@2.0.0 -> c@3.0.0").
Proof.
  apply (issuerPath_three_levels chainPlatform chainHeap 0 1 2
           "/app/src/index.js" "/app/node_modules/b/index.js"
           "/app/node_modules/c/index.js"
           {| cp_package := named "app" "1.0.0"; cp_path := "/app" |}
           {| cp_package := named "b" "2.0.0";
              cp_path := "/app/node_modules/b" |}
           {| cp_package := named "c" "3.0.0";
              cp_path := "/app/node_modules/c" |}
           1 5); try reflexivity; try (vm_compute; discriminate).
  simpl. lia.
Defined.

(** ** Dictionaries *)

Lemma getOwn_setOwn_same {V : Type} (o : list (string * V)) (k : string)
  (v : V) :
  getOwn (setOwn o k v) k = Some v.
Proof.
  induction o as [|[k' w] o IH]; simpl.
  - rewrite String.eqb_refl. reflexivity.
  - destruct (String.eqb k' k) eqn:E; simpl; rewrite E; auto.
Qed.

Lemma getOwn_setOwn_other {V : Type} (o : list (string * V)) (k k' : string)
  (v : V) :
  k <> k' -> getOwn (setOwn o k v) k' = getOwn o k'.
Proof.
  intros Hne. induction o as [|[k0 w] o IH]; simpl.
  - apply String.eqb_neq in Hne. rewrite Hne. reflexivity.
  - destruct (String.eqb k0 k) eqn:E; simpl.
    + apply String.eqb_eq in E. subst k0.
      apply String.eqb_neq in Hne. rewrite Hne. reflexivity.
    + rewrite IH. reflexivity.
Qed.

Lemma getOwn_In {V : Type} (o : list (string * V)) (k : string) (v : V) :
  getOwn o k = Some v -> In (k, v) o.
Proof.
  induction o as [|[k' w] o IH]; simpl; [discriminate|].
  destruct (String.eqb_spec k' k) as [->|].
  - intros H. injection H as ->. auto.
  - auto.
Qed.

Lemma getOwn_None {V : Type} (o : list (string * V)) (k : string) :
  getOwn o k = None <-> ~ In k (map fst o).
Proof.
  induction o as [|[k' w] o IH]; simpl; [tauto|].
  destruct (String.eqb_spec k' k) as [->|Hne].
  - split; [discriminate | tauto].
  - rewrite IH. tauto.
Qed.

Lemma In_getOwn {V : Type} (o : list (string * V)) (k : string) (v : V) :
  NoDup (map fst o) -> In (k, v) o -> getOwn o k = Some v.
Proof.
  induction o as [|[k' w] o IH]; simpl; [tauto|].
  intros Hnd [H|H].
  - injection H as -> ->. rewrite String.eqb_refl. reflexivity.
  - inversion Hnd as [|? ? Hnotin Hnd']; subst.
    destruct (String.eqb_spec k' k) as [->|Hne].
    + exfalso. apply Hnotin. apply (in_map fst) in H. exact H.
    + auto.
Qed.

Lemma setOwn_keys {V : Type} (o : list (string * V)) (k : string) (v : V) :
  map fst (setOwn o k v)
  = match getOwn o k with
    | Some _ => map fst o
    | None => map fst o ++ [k]
    end.
Proof.
  induction o as [|[k' w] o IH]; simpl; [reflexivity|].
  destruct (String.eqb k' k) eqn:E; simpl; [reflexivity|].
  rewrite IH. destruct (getOwn o k); reflexivity.
Qed.

Lemma setOwn_NoDup {V : Type} (o : list (string * V)) (k : string) (v : V) :
  NoDup (map fst o) -> NoDup (map fst (setOwn o k v)).
Proof.
  intros H. rewrite setOwn_keys. destruct (getOwn o k) eqn:E; [exact H|].
  apply getOwn_None in E.
  apply NoDup_app; [exact H | repeat constructor; simpl; tauto |].
  intros x Hx [<-|[]]. contradiction.
Qed.

Lemma setOwn_absent {V : Type} (o : list (string * V)) (k : string) (v : V) :
  getOwn o k = None -> setOwn o k v = o ++ [(k, v)].
Proof.
  induction o as [|[k' w] o IH]; simpl; [reflexivity|].
  destruct (String.eqb k' k); [discriminate|].
  intros H. rewrite (IH H). reflexivity.
Qed.

(** ** Instance lists *)

Lemma findVersion_Some (v : string) (l : list Instance) (i : Instance) :
  findVersion v l = Some i -> In i l /\ entry_version i = v.
Proof.
  unfold findVersion. intros H. apply find_some in H.
  rewrite String.eqb_eq in H. exact H.
Qed.

Lemma findVersion_None (v : string) (l : list Instance) :
  findVersion v l = None <-> ~ In v (map entry_version l).
Proof.
  unfold findVersion. induction l as [|i l IH]; simpl; [tauto|].
  destruct (String.eqb_spec (entry_version i) v) as [E|E].
  - split; [discriminate | tauto].
  - rewrite IH. tauto.
Qed.

Lemma addIssuerPath_version (p : option string) (i : Instance) :
  entry_version (addIssuerPath p i) = entry_version i.
Proof.
  unfold addIssuerPath. destruct (truthy p); [|reflexivity].
  destruct (notIn _ _); reflexivity.
Qed.

Lemma addIssuerPath_path (p : option string) (i : Instance) :
  entry_path (addIssuerPath p i) = entry_path i.
Proof.
  unfold addIssuerPath. destruct (truthy p); [|reflexivity].
  destruct (notIn _ _); reflexivity.
Qed.

Lemma addIssuerPath_issuer (p : option string) (i : Instance) :
  entry_issuer (addIssuerPath p i) = entry_issuer i.
Proof.
  unfold addIssuerPath. destruct (truthy p); [|reflexivity].
  destruct (notIn _ _); reflexivity.
Qed.

Lemma addIssuerPath_In (p : option string) (i : Instance) (x : string) :
  In x (entry_issuerPaths (addIssuerPath p i))
  <-> In x (entry_issuerPaths i) \/ truthy p = Some x.
Proof.
  unfold addIssuerPath. destruct (truthy p) as [q|]; [|intuition discriminate].
  destruct (notIn q (entry_issuerPaths i)) eqn:E; simpl.
  - rewrite in_app_iff. simpl. intuition congruence.
  - apply notIn_false in E. intuition congruence.
Qed.

Lemma addIssuerPath_NoDup (p : option string) (i : Instance) :
  NoDup (entry_issuerPaths i) ->
  NoDup (entry_issuerPaths (addIssuerPath p i)).
Proof.
  intros H. unfold addIssuerPath. destruct (truthy p) as [q|]; [|exact H].
  destruct (notIn q (entry_issuerPaths i)) eqn:E; [|exact H]. simpl.
  apply notIn_true in E.
  apply NoDup_app; [exact H | repeat constructor; simpl; tauto |].
  intros x Hx [<-|[]]. contradiction.
Qed.

Lemma updateVersion_versions (v : string) (f : Instance -> Instance)
  (l : list Instance) :
  (forall i, entry_version (f i) = entry_version i) ->
  map entry_version (updateVersion v f l) = map entry_version l.
Proof.
  intros Hf. induction l as [|i l IH]; simpl; [reflexivity|].
  destruct (String.eqb (entry_version i) v); simpl.
  - rewrite Hf. reflexivity.
  - rewrite IH. reflexivity.
Qed.

Lemma findVersion_updateVersion (v w : string) (f : Instance -> Instance)
  (l : list Instance) :
  (forall i, entry_version (f i) = entry_version i) ->
  findVersion w (updateVersion v f l)
  = if String.eqb v w then option_map f (findVersion w l)
    else findVersion w l.
Proof.
  intros Hf. unfold findVersion.
  induction l as [|i l IH]; simpl.
  - destruct (String.eqb v w); reflexivity.
  - destruct (String.eqb_spec (entry_version i) v) as [E|E]; simpl.
    + rewrite Hf, E. destruct (String.eqb v w); reflexivity.
    + destruct (String.eqb_spec (entry_version i) w) as [E'|E'].
      * destruct (String.eqb_spec v w); [congruence | reflexivity].
      * exact IH.
Qed.

Lemma findVersion_app (w : string) (l : list Instance) (x : Instance) :
  findVersion w (l ++ [x])
  = match findVersion w l with
    | Some i => Some i
    | None => if String.eqb (entry_version x) w then Some x else None
    end.
Proof.
  unfold findVersion. induction l as [|i l IH]; simpl; [reflexivity|].
  destruct (String.eqb (entry_version i) w); [reflexivity | exact IH].
Qed.

Lemma findVersion_In (l : list Instance) (i : Instance) :
  NoDup (map entry_version l) -> In i l ->
  findVersion (entry_version i) l = Some i.
Proof.
  unfold findVersion. induction l as [|j l IH]; simpl; [tauto|].
  intros Hnd [->|Hi].
  - rewrite String.eqb_refl. reflexivity.
  - inversion Hnd as [|? ? Hnotin Hnd']; subst.
    destruct (String.eqb_spec (entry_version j) (entry_version i)) as [E|E].
    + exfalso. apply Hnotin. rewrite E. apply in_map. exact Hi.
    + auto.
Qed.

Lemma updateVersion_In_inv (v : string) (f : Instance -> Instance)
  (l : list Instance) (j : Instance) :
  In j (updateVersion v f l) -> In j l \/ exists i, In i l /\ j = f i.
Proof.
  induction l as [|i l IH]; simpl; [tauto|].
  destruct (String.eqb (entry_version i) v); simpl.
  - intros [<-|H]; eauto.
  - intros [<-|H]; [auto|]. destruct (IH H) as [|(i' & ? & ?)]; eauto.
Qed.

(** ** One contribution *)

Lemma insertInstance_versions (c : Contribution) (l : list Instance) :
  map entry_version (insertInstance c l)
  = if existsb (String.eqb (c_version c)) (map entry_version l)
    then map entry_version l
    else map entry_version l ++ [c_version c].
Proof.
  unfold insertInstance.
  destruct (findVersion (c_version c) l) as [i|] eqn:E.
  - apply findVersion_Some in E. destruct E as [Hi Hv].
    assert (H : existsb (String.eqb (c_version c)) (map entry_version l)
                = true).
    { apply existsb_exists. exists (entry_version i).
      split; [apply in_map; exact Hi|]. rewrite Hv. apply String.eqb_refl. }
    rewrite H. apply updateVersion_versions. apply addIssuerPath_version.
  - apply findVersion_None, notIn_true in E. unfold notIn in E.
    apply negb_true_iff in E. rewrite E, map_app. simpl.
    rewrite addIssuerPath_version. reflexivity.
Qed.

Lemma insertInstance_NoDup_versions (c : Contribution) (l : list Instance) :
  NoDup (map entry_version l) ->
  NoDup (map entry_version (insertInstance c l)).
Proof.
  intros H. rewrite insertInstance_versions.
  destruct (existsb _ _) eqn:E; [exact H|].
  assert (Hn : ~ In (c_version c) (map entry_version l)).
  { apply notIn_true. unfold notIn. rewrite E. reflexivity. }
  apply NoDup_app; [exact H | repeat constructor; simpl; tauto |].
  intros x Hx [<-|[]]. contradiction.
Qed.

Lemma insertInstance_NoDup_paths (c : Contribution) (l : list Instance) :
  (forall i, In i l -> NoDup (entry_issuerPaths i)) ->
  forall j, In j (insertInstance c l) -> NoDup (entry_issuerPaths j).
Proof.
  intros H j Hj. unfold insertInstance in Hj.
  destruct (findVersion (c_version c) l) as [found|].
  - apply updateVersion_In_inv in Hj. destruct Hj as [Hj|(i & Hi & ->)].
    + auto.
    + apply addIssuerPath_NoDup. auto.
  - apply in_app_or in Hj. destruct Hj as [Hj|[<-|[]]]; [auto|].
    apply addIssuerPath_NoDup. constructor.
Qed.

(** The instance recorded for a version after a contribution. *)
Lemma findVersion_insertInstance (c : Contribution) (l : list Instance)
  (w : string) :
  findVersion w (insertInstance c l)
  = if String.eqb (c_version c) w
    then Some (addIssuerPath (c_issuerPath c)
                 match findVersion w l with
                 | Some i => i
                 | None => newEntry c
                 end)
    else findVersion w l.
Proof.
  unfold insertInstance.
  destruct (findVersion (c_version c) l) as [i|] eqn:E.
  - rewrite findVersion_updateVersion by apply addIssuerPath_version.
    destruct (String.eqb_spec (c_version c) w) as [<-|]; [|reflexivity].
    rewrite E. reflexivity.
  - rewrite findVersion_app, addIssuerPath_version. simpl.
    destruct (String.eqb_spec (c_version c) w) as [<-|].
    + rewrite E. reflexivity.
    + destruct (findVersion w l); reflexivity.
Qed.

Lemma instancesOf_insert (store : list (string * list Instance))
  (c : Contribution) (name : string) :
  instancesOf (insertContribution store c) name
  = if String.eqb (c_name c) name
    then insertInstance c (instancesOf store name)
    else instancesOf store name.
Proof.
  unfold instancesOf at 1, insertContribution.
  destruct (String.eqb_spec (c_name c) name) as [<-|Hne].
  - rewrite getOwn_setOwn_same. reflexivity.
  - rewrite getOwn_setOwn_other by exact Hne. reflexivity.
Qed.

Lemma instanceOf_insert (store : list (string * list Instance))
  (c : Contribution) (name version : string) :
  instanceOf (insertContribution store c) name version
  = if String.eqb (c_name c) name && String.eqb (c_version c) version
    then Some (addIssuerPath (c_issuerPath c)
                 match instanceOf store name version with
                 | Some i => i
                 | None => newEntry c
                 end)
    else instanceOf store name version.
Proof.
  unfold instanceOf. rewrite instancesOf_insert.
  destruct (String.eqb (c_name c) name); simpl; [|reflexivity].
  apply findVersion_insertInstance.
Qed.

Lemma instanceOf_Some (store : list (string * list Instance))
  (name version : string) (i : Instance) :
  instanceOf store name version = Some i ->
  exists instances,
    getOwn store name = Some instances /\ In i instances /\
    entry_version i = version.
Proof.
  unfold instanceOf, instancesOf. intros H.
  destruct (getOwn store name) as [instances|]; [|discriminate].
  apply findVersion_Some in H. exists instances. tauto.
Qed.

Lemma keeps_refl (i : Instance) : keeps i i.
Proof. unfold keeps. auto using incl_refl. Qed.

Lemma keeps_trans (i j k : Instance) : keeps i j -> keeps j k -> keeps i k.
Proof.
  unfold keeps. intros (? & ? & ? & ?) (? & ? & ? & ?).
  repeat split; try congruence. eapply incl_tran; eauto.
Qed.

Lemma keeps_addIssuerPath (p : option string) (i : Instance) :
  keeps i (addIssuerPath p i).
Proof.
  unfold keeps.
  rewrite addIssuerPath_version, addIssuerPath_path, addIssuerPath_issuer.
  repeat split. intros x Hx. apply addIssuerPath_In. auto.
Qed.

(** *** Invariants preserved by one contribution *)

Lemma insertContribution_NoDup_keys (store : list (string * list Instance))
  (c : Contribution) :
  NoDup (map fst store) -> NoDup (map fst (insertContribution store c)).
Proof. apply setOwn_NoDup. Qed.

Lemma distinctVersions_instancesOf (store : list (string * list Instance)) :
  distinctVersions store <->
  forall name, NoDup (map entry_version (instancesOf store name)).
Proof.
  unfold distinctVersions, instancesOf. split.
  - intros H name. destruct (getOwn store name) eqn:E; [eauto | constructor].
  - intros H name instances E. specialize (H name). rewrite E in H. exact H.
Qed.

Lemma distinctIssuerPaths_instancesOf (store : list (string * list Instance)) :
  distinctIssuerPaths store <->
  forall name i, In i (instancesOf store name) -> NoDup (entry_issuerPaths i).
Proof.
  unfold distinctIssuerPaths, instancesOf. split.
  - intros H name i. destruct (getOwn store name) eqn:E; [eauto | intros []].
  - intros H name instances i E. specialize (H name i). rewrite E in H.
    exact H.
Qed.

Lemma insertContribution_distinctVersions
  (store : list (string * list Instance)) (c : Contribution) :
  distinctVersions store -> distinctVersions (insertContribution store c).
Proof.
  rewrite !distinctVersions_instancesOf. intros H name.
  rewrite instancesOf_insert. destruct (String.eqb (c_name c) name); [|auto].
  apply insertInstance_NoDup_versions. auto.
Qed.

Lemma insertContribution_distinctIssuerPaths
  (store : list (string * list Instance)) (c : Contribution) :
  distinctIssuerPaths store ->
  distinctIssuerPaths (insertContribution store c).
Proof.
  rewrite !distinctIssuerPaths_instancesOf. intros H name i.
  rewrite instancesOf_insert.
  destruct (String.eqb (c_name c) name); [|apply H].
  intros Hi.
  apply (insertInstance_NoDup_paths c (instancesOf store name)); [|exact Hi].
  intros j Hj. exact (H name j Hj).
Qed.

Lemma insertContribution_keys (store : list (string * list Instance))
  (c : Contribution) (name : string) :
  In name (map fst (insertContribution store c))
  <-> In name (map fst store) \/ c_name c = name.
Proof.
  unfold insertContribution. rewrite setOwn_keys.
  destruct (getOwn store (c_name c)) eqn:E.
  - split; [auto|]. intros [H|<-]; [exact H|].
    apply getOwn_In in E. apply (in_map fst) in E. exact E.
  - rewrite in_app_iff. simpl. tauto.
Qed.

Lemma insertContribution_keeps (store : list (string * list Instance))
  (c : Contribution) (name version : string) (i : Instance) :
  instanceOf store name version = Some i ->
  exists i', instanceOf (insertContribution store c) name version = Some i'
             /\ keeps i i'.
Proof.
  intros H. rewrite instanceOf_insert, H.
  destruct (_ && _); eauto using keeps_addIssuerPath, keeps_refl.
Qed.

Lemma insertContribution_pathsOf (store : list (string * list Instance))
  (c : Contribution) (name version p : string) :
  In p (pathsOf (insertContribution store c) name version)
  <-> In p (pathsOf store name version)
      \/ (c_name c = name /\ c_version c = version /\
          truthy (c_issuerPath c) = Some p).
Proof.
  unfold pathsOf. rewrite instanceOf_insert.
  destruct (String.eqb_spec (c_name c) name) as [En|En]; simpl;
    [destruct (String.eqb_spec (c_version c) version) as [Ev|Ev]|];
    try solve [intuition congruence].
  rewrite addIssuerPath_In.
  destruct (instanceOf store name version); simpl; intuition congruence.
Qed.

Lemma insertContribution_present (store : list (string * list Instance))
  (c : Contribution) (name version : string) :
  instanceOf (insertContribution store c) name version <> None
  <-> instanceOf store name version <> None
      \/ (c_name c = name /\ c_version c = version).
Proof.
  rewrite instanceOf_insert.
  destruct (String.eqb_spec (c_name c) name) as [En|En]; simpl;
    [destruct (String.eqb_spec (c_version c) version) as [Ev|Ev]|];
    intuition congruence.
Qed.

(** *** Invariants of a sequence of contributions *)

Lemma build_invariants (cs : list Contribution) :
  forall store,
    NoDup (map fst store) -> distinctVersions store ->
    distinctIssuerPaths store ->
    NoDup (map fst (fold_left insertContribution cs store))
    /\ distinctVersions (fold_left insertContribution cs store)
    /\ distinctIssuerPaths (fold_left insertContribution cs store).
Proof.
  induction cs as [|c cs IH]; intros store Hk Hv Hp; simpl; [auto|].
  apply IH.
  - apply insertContribution_NoDup_keys. exact Hk.
  - apply insertContribution_distinctVersions. exact Hv.
  - apply insertContribution_distinctIssuerPaths. exact Hp.
Qed.

Lemma build_keys (cs : list Contribution) :
  forall store name,
    In name (map fst (fold_left insertContribution cs store))
    <-> In name (map fst store) \/ exists c, In c cs /\ c_name c = name.
Proof.
  induction cs as [|c cs IH]; intros store name; simpl.
  - split; [auto|]. intros [H|(c & [] & _)]. exact H.
  - rewrite IH, insertContribution_keys. split.
    + intros [[H|H]|(c' & Hc' & Hn)]; eauto.
    + intros [H|(c' & [<-|Hc'] & Hn)]; eauto.
Qed.

Lemma build_keeps (cs : list Contribution) :
  forall store name version i,
    instanceOf store name version = Some i ->
    exists i',
      instanceOf (fold_left insertContribution cs store) name version
      = Some i' /\ keeps i i'.
Proof.
  induction cs as [|c cs IH]; intros store name version i H; simpl.
  - eauto using keeps_refl.
  - destruct (insertContribution_keeps store c name version i H)
      as (i1 & H1 & K1).
    destruct (IH _ name version i1 H1) as (i2 & H2 & K2).
    eauto using keeps_trans.
Qed.

Lemma build_pathsOf (cs : list Contribution) :
  forall store name version p,
    In p (pathsOf (fold_left insertContribution cs store) name version)
    <-> In p (pathsOf store name version)
        \/ exists c, In c cs /\ c_name c = name /\ c_version c = version /\
                     truthy (c_issuerPath c) = Some p.
Proof.
  induction cs as [|c cs IH]; intros store name version p; simpl.
  - split; [auto|]. intros [H|(c & [] & _)]. exact H.
  - rewrite IH, insertContribution_pathsOf. split.
    + intros [[H|H]|(c' & Hc' & Hn)]; eauto 6.
    + intros [H|(c' & [<-|Hc'] & Hn)]; eauto 6.
Qed.

Lemma build_present (cs : list Contribution) :
  forall store name version,
    instanceOf (fold_left insertContribution cs store) name version <> None
    <-> instanceOf store name version <> None
        \/ exists c, In c cs /\ c_name c = name /\ c_version c = version.
Proof.
  induction cs as [|c cs IH]; intros store name version; simpl.
  - split; [auto|]. intros [H|(c & [] & _)]. exact H.
  - rewrite IH, insertContribution_present. split.
    + intros [[H|H]|(c' & Hc' & Hn)]; eauto 6.
    + intros [H|(c' & [<-|Hc'] & Hn)]; eauto 6.
Qed.

(** ** The aggregation loop *)

Lemma slotOf_Arr (store : list (string * list Instance)) (name : string)
  (instances : list Instance) :
  slotOf store name = Arr instances -> instances = instancesOf store name.
Proof.
  unfold slotOf, instancesOf. destruct (getOwn store name).
  - intros H. injection H as ->. reflexivity.
  - destruct (inheritsProperty name); [discriminate|].
    intros H. injection H as <-. reflexivity.
Qed.

(** One turn of the loop computes the contribution of the module and
    then stores it, or throws when the name is an inherited property. *)
Lemma forEachModule_contribution (P : Platform) (heap : ModRef -> ModuleObj)
  (fuel : nat) (context : string) (store : list (string * list Instance))
  (m : ModRef) :
  forEachModule P heap fuel context store m
  = (c <- contribution P heap fuel context m ;;
     match c with
     | None => Ret store
     | Some c =>
       match slotOf store (c_name c) with
       | Arr _ => Ret (insertContribution store c)
       | Inherited =>
         Throw (TypeError "modules[pkg.name].push is not a function")
       end
     end).
Proof.
  unfold forEachModule, contribution.
  destruct (truthy (mod_resource (heap m))) as [resource|]; [|reflexivity].
  destruct (getClosestPackage P fuel resource) as [[cp|]| |]; simpl;
    try reflexivity.
  destruct (issuerPathOf P heap fuel m) as [issuerPath| |]; simpl;
    try reflexivity.
  destruct (slotOf store (toString (pkg_name (cp_package cp))))
    as [instances|] eqn:Hslot; [|reflexivity].
  apply slotOf_Arr in Hslot. subst instances.
  unfold insertContribution, insertInstance, newEntry. simpl.
  destruct (findVersion _ _); reflexivity.
Qed.

Lemma slotOf_not_inherited (store : list (string * list Instance))
  (name : string) :
  ownKeysOnly store ->
  (exists instances, slotOf store name = Arr instances)
  <-> inheritsProperty name = false.
Proof.
  intros Hown. unfold slotOf. destruct (getOwn store name) eqn:E.
  - split; [|eauto]. intros _. apply Hown.
    apply getOwn_In in E. apply (in_map fst) in E. exact E.
  - destruct (inheritsProperty name); split; eauto; try discriminate.
    intros [? ?]. discriminate.
Qed.

Lemma insertContribution_ownKeysOnly (store : list (string * list Instance))
  (c : Contribution) :
  ownKeysOnly store -> inheritsProperty (c_name c) = false ->
  ownKeysOnly (insertContribution store c).
Proof.
  intros Hown Hc name Hname. apply insertContribution_keys in Hname.
  destruct Hname as [H| <-]; auto.
Qed.

Lemma aggregate_contributions (P : Platform) (heap : ModRef -> ModuleObj)
  (fuel : nat) (context : string) (mods : list ModRef) :
  forall store0 store,
    ownKeysOnly store0 ->
    foldM (forEachModule P heap fuel context) mods store0 = Ret store ->
    exists cs,
      contributions P heap fuel context mods = Ret cs /\
      store = fold_left insertContribution cs store0 /\
      Forall (fun c => inheritsProperty (c_name c) = false) cs.
Proof.
  induction mods as [|m mods IH]; intros store0 store Hown H; simpl in *.
  - injection H as <-. exists []. auto.
  - rewrite forEachModule_contribution in H.
    destruct (contribution P heap fuel context m) as [[c|]| |];
      simpl in H; try discriminate.
    + destruct (slotOf store0 (c_name c)) as [instances|] eqn:Hslot;
        simpl in H; [|discriminate].
      assert (Hc : inheritsProperty (c_name c) = false).
      { apply (slotOf_not_inherited store0); eauto. }
      destruct (IH _ _ (insertContribution_ownKeysOnly _ _ Hown Hc) H)
        as (cs & -> & -> & Hall).
      exists (c :: cs). simpl. auto.
    + destruct (IH _ _ Hown H) as (cs & -> & -> & Hall).
      exists cs. auto.
Qed.

Lemma contributions_aggregate (P : Platform) (heap : ModRef -> ModuleObj)
  (fuel : nat) (context : string) (mods : list ModRef) :
  forall store0 cs,
    ownKeysOnly store0 ->
    contributions P heap fuel context mods = Ret cs ->
    Forall (fun c => inheritsProperty (c_name c) = false) cs ->
    foldM (forEachModule P heap fuel context) mods store0
    = Ret (fold_left insertContribution cs store0).
Proof.
  induction mods as [|m mods IH]; intros store0 cs Hown H Hall; simpl in *.
  - injection H as <-. reflexivity.
  - rewrite forEachModule_contribution.
    destruct (contribution P heap fuel context m) as [[c|]| |];
      simpl in *; try discriminate;
      destruct (contributions P heap fuel context mods) as [cs'| |];
      simpl in H; try discriminate; injection H as <-.
    + inversion Hall as [|? ? Hc Hall']; subst.
      destruct (proj2 (slotOf_not_inherited store0 (c_name c) Hown) Hc)
        as (instances & ->). simpl.
      apply IH; auto using insertContribution_ownKeysOnly.
    + apply IH; auto.
Qed.

Lemma contributions_app (P : Platform) (heap : ModRef -> ModuleObj)
  (fuel : nat) (context : string) (pre post : list ModRef)
  (cs : list Contribution) :
  contributions P heap fuel context (pre ++ post) = Ret cs ->
  exists cs1 cs2,
    contributions P heap fuel context pre = Ret cs1 /\
    contributions P heap fuel context post = Ret cs2 /\
    cs = cs1 ++ cs2.
Proof.
  revert cs. induction pre as [|m pre IH]; intros cs H; simpl in *.
  - exists [], cs. auto.
  - destruct (contribution P heap fuel context m) as [c| |];
      simpl in *; try discriminate.
    destruct (contributions P heap fuel context (pre ++ post)) as [cs'| |];
      simpl in H; try discriminate. injection H as <-.
    destruct (IH cs' eq_refl) as (cs1 & cs2 & -> & -> & ->). simpl.
    destruct c; eexists _, _; repeat split; reflexivity.
Qed.

Lemma contributions_In (P : Platform) (heap : ModRef -> ModuleObj)
  (fuel : nat) (context : string) (mods : list ModRef) :
  forall cs c,
    contributions P heap fuel context mods = Ret cs ->
    (In c cs <-> exists m, In m mods /\
                           contribution P heap fuel context m = Ret (Some c)).
Proof.
  induction mods as [|m mods IH]; intros cs c H; simpl in *.
  - injection H as <-. split; [intros [] | intros (? & [] & _)].
  - destruct (contribution P heap fuel context m) as [c0| |] eqn:Hm;
      simpl in *; try discriminate.
    destruct (contributions P heap fuel context mods) as [cs'| |];
      simpl in H; try discriminate. injection H as <-.
    specialize (IH cs' c eq_refl).
    destruct c0 as [c0|]; simpl; rewrite ?IH; split.
    + intros [<-|(m' & Hm' & Hc)]; eauto.
    + intros (m' & [<-|Hm'] & Hc); [left; congruence | eauto].
    + intros (m' & Hm' & Hc). eauto.
    + intros (m' & [<-|Hm'] & Hc); [congruence | eauto].
Qed.

Lemma ownKeysOnly_nil : ownKeysOnly [].
Proof. intros name []. Qed.

Lemma distinctVersions_nil : distinctVersions [].
Proof. intros name instances H. discriminate. Qed.

Lemma distinctIssuerPaths_nil : distinctIssuerPaths [].
Proof. intros name instances i H. discriminate. Qed.

(** A rendered issuer path is never the empty string. *)
Lemma issuerPathOf_truthy (P : Platform) (heap : ModRef -> ModuleObj)
  (fuel : nat) (m : ModRef) (p : option string) :
  issuerPathOf P heap fuel m = Ret p -> truthy p = p.
Proof.
  unfold issuerPathOf. destruct (issuerResource heap (heap m)).
  - destruct (getIssuer P heap fuel (Some m) None); simpl; try discriminate.
    intros H. injection H as <-. reflexivity.
  - intros H. injection H as <-. reflexivity.
Qed.

Lemma contribution_truthy (P : Platform) (heap : ModRef -> ModuleObj)
  (fuel : nat) (context : string) (m : ModRef) (c : Contribution) :
  contribution P heap fuel context m = Ret (Some c) ->
  truthy (c_issuerPath c) = c_issuerPath c.
Proof.
  unfold contribution.
  destruct (truthy (mod_resource (heap m))); [|discriminate].
  destruct (getClosestPackage P fuel s) as [[cp|]| |]; simpl;
    try discriminate.
  destruct (issuerPathOf P heap fuel m) as [p| |] eqn:E; simpl;
    try discriminate.
  intros H. injection H as <-. simpl.
  exact (issuerPathOf_truthy P heap fuel m p E).
Qed.

(** The store built from a sequence of contributions holds, for each of
    them, an instance of its version that lists its issuer path and
    that carries the path and issuer of the first contribution of that
    name and version. *)
Lemma build_contribution (cs1 cs2 : list Contribution) (c : Contribution) :
  exists instances i,
    getOwn (fold_left insertContribution (cs1 ++ c :: cs2) []) (c_name c)
    = Some instances /\
    In i instances /\ entry_version i = c_version c /\
    (forall p, truthy (c_issuerPath c) = Some p ->
               In p (entry_issuerPaths i)) /\
    ((forall c', In c' cs1 -> ~ sameInstance c' c) ->
     entry_path i = c_path c /\ entry_issuer i = c_issuer c).
Proof.
  rewrite fold_left_app. simpl.
  set (s1 := fold_left insertContribution cs1 []).
  pose proof (instanceOf_insert s1 c (c_name c) (c_version c)) as H1.
  rewrite !String.eqb_refl in H1. simpl in H1.
  destruct (build_keeps cs2 _ _ _ _ H1) as (i' & Hi' & Hv & Hp & Hi & Hincl).
  destruct (instanceOf_Some _ _ _ _ Hi') as (instances & Hget & Hin & Hver).
  exists instances, i'. repeat split; auto.
  - intros p Hp'. apply Hincl. apply addIssuerPath_In. auto.
  - rewrite Hp, addIssuerPath_path.
    destruct (instanceOf s1 (c_name c) (c_version c)) eqn:E; [|reflexivity].
    exfalso.
    assert (Hne : instanceOf s1 (c_name c) (c_version c) <> None)
      by congruence.
    apply build_present in Hne. destruct Hne as [Hne|(c' & Hc' & Hn & Hv')].
    + apply Hne. reflexivity.
    + apply (H c' Hc'). split; assumption.
  - rewrite Hi, addIssuerPath_issuer.
    destruct (instanceOf s1 (c_name c) (c_version c)) eqn:E; [|reflexivity].
    exfalso.
    assert (Hne : instanceOf s1 (c_name c) (c_version c) <> None)
      by congruence.
    apply build_present in Hne. destruct Hne as [Hne|(c' & Hc' & Hn & Hv')].
    + apply Hne. reflexivity.
    + apply (H c' Hc'). split; assumption.
Qed.

(** C8: when the aggregation pass returns, every instance list of the
    map has pairwise distinct versions and every instance pairwise
    distinct issuer paths; and for every module that resolves to a
    package the map holds an instance of that version which lists the
    rendered issuer path of the module and which carries the path and
    issuer of the first module that resolved to this name and version:
    the first-seen instance is extended, never replaced. *)
Theorem aggregate_invariants (P : Platform) (heap : ModRef -> ModuleObj)
  (fuel : nat) (context : string) (mods : list ModRef)
  (store : list (string * list Instance)) :
  aggregate P heap fuel context mods = Ret store ->
  distinctVersions store
  /\ distinctIssuerPaths store
  /\ forall pre m post c,
       mods = pre ++ m :: post ->
       contribution P heap fuel context m = Ret (Some c) ->
       exists instances i,
         getOwn store (c_name c) = Some instances /\
         In i instances /\
         entry_version i = c_version c /\
         (forall p, c_issuerPath c = Some p -> In p (entry_issuerPaths i)) /\
         ((forall m' c', In m' pre ->
                         contribution P heap fuel context m' = Ret (Some c') ->
                         ~ sameInstance c' c) ->
          entry_path i = c_path c /\ entry_issuer i = c_issuer c).
Proof.
  intros H. unfold aggregate in H.
  destruct (aggregate_contributions P heap fuel context mods [] store
              ownKeysOnly_nil H) as (cs & Hcs & -> & Hall).
  destruct (build_invariants cs [] (NoDup_nil _) distinctVersions_nil
              distinctIssuerPaths_nil) as (_ & Hv & Hp).
  split; [exact Hv|]. split; [exact Hp|].
  intros pre m post c -> Hc.
  destruct (contributions_app P heap fuel context pre (m :: post) cs Hcs)
    as (cs1 & cs2' & Hpre & Hpost & ->).
  simpl in Hpost. rewrite Hc in Hpost. simpl in Hpost.
  destruct (contributions P heap fuel context post) as [cs2| |];
    simpl in Hpost; try discriminate. injection Hpost as <-.
  destruct (build_contribution cs1 cs2 c)
    as (instances & i & Hget & Hin & Hver & Hpaths & Hfirst).
  exists instances, i. repeat split; auto.
  - intros p Hp'. apply Hpaths.
    rewrite (contribution_truthy P heap fuel context m c Hc). exact Hp'.
  - apply Hfirst. intros c' Hc'.
    apply (contributions_In P heap fuel context pre cs1 c' Hpre) in Hc'.
    destruct Hc' as (m' & Hm' & Hc'). eauto.
  - apply Hfirst. intros c' Hc'.
    apply (contributions_In P heap fuel context pre cs1 c' Hpre) in Hc'.
    destruct Hc' as (m' & Hm' & Hc'). eauto.
Qed.

Lemma aggregate_invariants_witness : distinctVersions dupStore.
Proof.
  apply (aggregate_invariants dupPlatform dupHeap 5 "/app" [0; 1; 2; 3; 4]).
  reflexivity.
Defined.

(** ** The order on strings *)

Lemma ltb_compare (a b : string) :
  String.ltb a b = true <-> String.compare a b = Lt.
Proof.
  unfold String.ltb. destruct (String.compare a b); split;
    intros H; try reflexivity; discriminate.
Qed.

Lemma strLt_trans (a b c : string) : strLt a b -> strLt b c -> strLt a c.
Proof.
  unfold strLt. rewrite !ltb_compare.
  change String.compare with String_as_OT.cmp.
  rewrite !String_as_OT.cmp_lt. apply String_as_OT.lt_trans.
Qed.

Lemma strLt_irrefl (a : string) : ~ strLt a a.
Proof.
  unfold strLt. rewrite ltb_compare. intros H.
  change String.compare with String_as_OT.cmp in H.
  apply String_as_OT.cmp_lt in H.
  exact (String_as_OT.lt_not_eq _ _ H eq_refl).
Qed.

Lemma strLt_total (a b : string) : a <> b -> strLt a b \/ strLt b a.
Proof.
  intros Hne. unfold strLt. rewrite !ltb_compare.
  destruct (String.compare a b) eqn:E.
  - apply String.compare_eq_iff in E. contradiction.
  - auto.
  - right. rewrite String.compare_antisym, E. reflexivity.
Qed.

(** ** Sorting *)

Lemma insertBy_perm {A : Type} (before : A -> A -> bool) (x : A)
  (l : list A) :
  Permutation (insertBy before x l) (x :: l).
Proof.
  induction l as [|y l IH]; simpl; [reflexivity|].
  destruct (before x y); [reflexivity|].
  rewrite IH. apply perm_swap.
Qed.

Lemma arraySort_perm {A : Type} (before : A -> A -> bool) (l : list A) :
  Permutation (arraySort before l) l.
Proof.
  induction l as [|x l IH]; simpl; [reflexivity|].
  rewrite insertBy_perm. constructor. exact IH.
Qed.

Lemma arraySort_In {A : Type} (before : A -> A -> bool) (l : list A) (x : A) :
  In x (arraySort before l) <-> In x l.
Proof.
  split; apply Permutation_in;
    [|symmetry]; apply arraySort_perm.
Qed.

Section SortByKey.

Variable A : Type.
Variable key : A -> string.


Lemma insertBy_sorted (x : A) (l : list A) :
  StronglySorted (keyLt key) l -> ~ In (key x) (map key l) ->
  StronglySorted (keyLt key) (insertBy (keyBefore key) x l).
Proof.
  induction l as [|y l IH]; simpl; intros Hs Hx.
  - repeat constructor.
  - apply StronglySorted_inv in Hs. destruct Hs as [Hs Hy].
    unfold keyBefore at 1. destruct (String.ltb (key x) (key y)) eqn:E.
    + constructor; [constructor; assumption|].
      constructor; [exact E|].
      eapply Forall_impl; [|exact Hy].
      intros z Hz. exact (strLt_trans _ _ _ E Hz).
    + assert (Hyx : keyLt key y x).
      { assert (Hne : key x <> key y) by (intros Heq; apply Hx; auto).
        destruct (strLt_total (key x) (key y) Hne) as [H|H]; [|exact H].
        unfold strLt in H. congruence. }
      constructor; [apply IH; tauto|].
      apply Forall_forall. intros z Hz.
      apply (Permutation_in _ (insertBy_perm (keyBefore key) x l)) in Hz.
      destruct Hz as [<-|Hz]; [exact Hyx|].
      rewrite Forall_forall in Hy. auto.
Qed.

(** On pairwise distinct keys the result is strictly ascending. *)
Lemma arraySort_sorted (l : list A) :
  NoDup (map key l) -> StronglySorted (keyLt key) (arraySort (keyBefore key) l).
Proof.
  induction l as [|x l IH]; simpl; intros Hnd; [constructor|].
  inversion Hnd as [|? ? Hx Hnd']; subst.
  apply insertBy_sorted; [auto|].
  intros Hin. apply Hx.
  apply (Permutation_in _
           (Permutation_map key (arraySort_perm (keyBefore key) l))).
  exact Hin.
Qed.

Lemma sorted_head_least (a : A) (l : list A) (x : A) :
  StronglySorted (keyLt key) (a :: l) -> In x (a :: l) ->
  x = a \/ keyLt key a x.
Proof.
  intros Hs [<-|Hx]; [auto|].
  apply StronglySorted_inv in Hs. destruct Hs as [_ Ha].
  rewrite Forall_forall in Ha. auto.
Qed.

(** Two strictly ascending arrangements of the same elements are equal:
    on distinct keys the result of a sort does not depend on the
    algorithm. *)
Lemma sorted_perm_eq (l1 l2 : list A) :
  StronglySorted (keyLt key) l1 -> StronglySorted (keyLt key) l2 ->
  Permutation l1 l2 -> l1 = l2.
Proof.
  revert l2. induction l1 as [|a l1 IH]; intros l2 H1 H2 Hp.
  - apply Permutation_nil in Hp. auto.
  - destruct l2 as [|b l2];
      [apply Permutation_sym, Permutation_nil in Hp; discriminate|].
    assert (a = b) as ->.
    { assert (Ha : In a (b :: l2))
        by (apply (Permutation_in _ Hp); left; reflexivity).
      assert (Hb : In b (a :: l1))
        by (apply (Permutation_in _ (Permutation_sym Hp)); left; reflexivity).
      destruct (sorted_head_least _ _ _ H2 Ha) as [E|Hba]; [exact E|].
      destruct (sorted_head_least _ _ _ H1 Hb) as [E|Hab]; [auto|].
      exfalso. exact (strLt_irrefl _ (strLt_trans _ _ _ Hab Hba)). }
    f_equal. apply IH.
    + apply StronglySorted_inv in H1. tauto.
    + apply StronglySorted_inv in H2. tauto.
    + exact (Permutation_cons_inv Hp).
Qed.

Lemma arraySort_unique (l l' : list A) :
  NoDup (map key l) -> Permutation l' l -> StronglySorted (keyLt key) l' ->
  l' = arraySort (keyBefore key) l.
Proof.
  intros Hnd Hp Hs. apply sorted_perm_eq; [exact Hs | |].
  - apply arraySort_sorted. exact Hnd.
  - rewrite Hp. symmetry. apply arraySort_perm.
Qed.

Lemma sorted_map_key (l : list A) :
  StronglySorted (keyLt key) l -> StronglySorted strLt (map key l).
Proof.
  induction 1 as [|a l Hs IH Ha]; simpl; constructor; [exact IH|].
  apply Forall_map. exact Ha.
Qed.

End SortByKey.

Lemma sorted_strings_eq (l1 l2 : list string) :
  StronglySorted strLt l1 -> StronglySorted strLt l2 ->
  (forall x, In x l1 <-> In x l2) -> l1 = l2.
Proof.
  intros H1 H2 Hiff.
  assert (Hnd : forall l, StronglySorted strLt l -> NoDup l).
  { induction 1 as [|a l Hs IH Ha]; constructor; [|exact IH].
    intros Hin. rewrite Forall_forall in Ha.
    exact (strLt_irrefl _ (Ha _ Hin)). }
  apply (sorted_perm_eq string (fun s => s)); auto.
  apply NoDup_Permutation; auto.
Qed.

(** ** Enumeration of properties *)

Lemma filter_partition_perm {A : Type} (p : A -> bool) (l : list A) :
  Permutation (filter p l ++ filter (fun x => negb (p x)) l) l.
Proof.
  induction l as [|x l IH]; simpl; [reflexivity|].
  destruct (p x); simpl.
  - constructor. exact IH.
  - rewrite <- Permutation_middle. constructor. exact IH.
Qed.

Lemma ownPropertyOrder_perm {K V : Type} (idx : K -> option N)
  (o : list (K * V)) :
  Permutation (ownPropertyOrder idx o) o.
Proof.
  unfold ownPropertyOrder. rewrite arraySort_perm.
  apply filter_partition_perm.
Qed.

Lemma ownPropertyOrder_In {K V : Type} (idx : K -> option N)
  (o : list (K * V)) (p : K * V) :
  In p (ownPropertyOrder idx o) <-> In p o.
Proof.
  split; apply Permutation_in; [|symmetry]; apply ownPropertyOrder_perm.
Qed.

Lemma ownPropertyOrder_keys {K V : Type} (idx : K -> option N)
  (o : list (K * V)) :
  Permutation (map fst (ownPropertyOrder idx o)) (map fst o).
Proof. apply Permutation_map, ownPropertyOrder_perm. Qed.

Lemma ownPropertyOrder_length {K V : Type} (idx : K -> option N)
  (o : list (K * V)) :
  List.length (ownPropertyOrder idx o) = List.length o.
Proof. apply Permutation_length, ownPropertyOrder_perm. Qed.

(** ** The classification loop *)

Section Classification.

Variable P : Platform.
Variable strict : bool.
Variable exclude : option (NamedInstance -> bool).

Lemma selectedBy_keys (props : list (string * list Instance)) (name : string) :
  In name (map fst (flat_map (selectedBy P strict exclude) props)) ->
  In name (map fst props).
Proof.
  induction props as [|[n instances] props IH]; simpl; [tauto|].
  rewrite map_app, in_app_iff. intros [H|H]; [|auto].
  unfold selectedBy in H. simpl in H.
  destruct (classifyName P strict exclude n instances) as [[f|]| |];
    simpl in H; tauto.
Qed.

Lemma selectedBy_NoDup (props : list (string * list Instance)) :
  NoDup (map fst props) ->
  NoDup (map fst (flat_map (selectedBy P strict exclude) props)).
Proof.
  induction props as [|[n instances] props IH]; simpl; intros Hnd;
    [constructor|].
  inversion Hnd as [|? ? Hn Hnd']; subst.
  unfold selectedBy at 1. simpl.
  destruct (classifyName P strict exclude n instances) as [[f|]| |];
    simpl; auto.
  constructor; [|auto]. intros H. apply Hn. apply selectedBy_keys. exact H.
Qed.

Lemma selectedBy_getOwn (props : list (string * list Instance))
  (name : string) :
  NoDup (map fst props) ->
  getOwn (flat_map (selectedBy P strict exclude) props) name
  = classified P strict exclude props name.
Proof.
  unfold classified.
  induction props as [|[n instances] props IH]; simpl; intros Hnd;
    [reflexivity|].
  inversion Hnd as [|? ? Hn Hnd']; subst.
  unfold selectedBy at 1. simpl.
  destruct (String.eqb_spec n name) as [->|Hne].
  - destruct (classifyName P strict exclude name instances) as [[f|]| |];
      simpl; rewrite ?String.eqb_refl; try reflexivity;
      apply getOwn_None; intros H; apply Hn; apply selectedBy_keys; exact H.
  - rewrite <- (IH Hnd').
    destruct (classifyName P strict exclude n instances) as [[f|]| |];
      simpl; try reflexivity.
    apply String.eqb_neq in Hne. rewrite Hne. reflexivity.
Qed.

(** The loop returns exactly when every turn does, and then [duplicates]
    holds what the turns selected, in the order of the turns. *)
Lemma foldM_classifyStep (props : list (string * list Instance)) :
  forall acc,
    NoDup (map fst (acc ++ props)) ->
    (forallb (fun p => returns (classifyName P strict exclude (fst p) (snd p)))
             props = true ->
     foldM (classifyStep P strict exclude) props acc
     = Ret (acc ++ flat_map (selectedBy P strict exclude) props))
    /\ (forall d, foldM (classifyStep P strict exclude) props acc = Ret d ->
        forallb (fun p => returns (classifyName P strict exclude
                                     (fst p) (snd p)))
                props = true).
Proof.
  induction props as [|[n instances] props IH]; intros acc Hnd.
  - simpl. rewrite app_nil_r. auto.
  - assert (Hn : getOwn acc n = None).
    { apply getOwn_None. rewrite map_app in Hnd.
      apply NoDup_remove_2 in Hnd. rewrite in_app_iff in Hnd. tauto. }
    cbn [foldM classifyStep flat_map forallb fst snd].
    unfold selectedBy at 1. cbn [fst snd].
    destruct (classifyName P strict exclude n instances) as [[f|]| |];
      cbn [bind returns andb].
    + rewrite (setOwn_absent acc n f Hn).
      specialize (IH (acc ++ [(n, f)])).
      rewrite <- !app_assoc in IH. simpl in IH.
      apply IH. rewrite !map_app in *. simpl. exact Hnd.
    + specialize (IH acc). apply IH.
      rewrite !map_app in *. simpl in Hnd.
      apply NoDup_remove_1 in Hnd. exact Hnd.
    + split; discriminate.
    + split; discriminate.
Qed.

Lemma classify_returns (store : list (string * list Instance)) :
  NoDup (map fst store) ->
  (forall name instances,
     In (name, instances) store ->
     returns (classifyName P strict exclude name instances) = true) ->
  classify P strict exclude store
  = Ret (flat_map (selectedBy P strict exclude)
                  (ownPropertyOrder arrayIndex store)).
Proof.
  intros Hnd Hret. unfold classify.
  apply (foldM_classifyStep (ownPropertyOrder arrayIndex store) []).
  - simpl. rewrite (ownPropertyOrder_keys arrayIndex store). exact Hnd.
  - apply forallb_forall. intros [n instances] Hin.
    apply ownPropertyOrder_In in Hin. simpl. auto.
Qed.

Lemma classify_Ret (store duplicates : list (string * list Instance)) :
  NoDup (map fst store) ->
  classify P strict exclude store = Ret duplicates ->
  (forall name instances,
     In (name, instances) store ->
     returns (classifyName P strict exclude name instances) = true)
  /\ NoDup (map fst duplicates)
  /\ forall name,
       getOwn duplicates name = classified P strict exclude store name.
Proof.
  intros Hnd H.
  assert (Hnd' : NoDup (map fst (ownPropertyOrder arrayIndex store)))
    by (rewrite (ownPropertyOrder_keys arrayIndex store); exact Hnd).
  assert (Hret : forall name instances,
             In (name, instances) store ->
             returns (classifyName P strict exclude name instances) = true).
  { unfold classify in H.
    apply (foldM_classifyStep (ownPropertyOrder arrayIndex store) [] Hnd')
      in H.
    rewrite forallb_forall in H. intros name instances Hin.
    apply (H (name, instances)). apply ownPropertyOrder_In. exact Hin. }
  split; [exact Hret|].
  rewrite (classify_returns store Hnd Hret) in H. injection H as <-.
  split; [apply selectedBy_NoDup; exact Hnd'|].
  intros name. rewrite (selectedBy_getOwn _ name Hnd').
  unfold classified.
  destruct (getOwn store name) as [instances|] eqn:E.
  - rewrite (In_getOwn _ name instances Hnd'); [reflexivity|].
    apply ownPropertyOrder_In. apply getOwn_In. exact E.
  - destruct (getOwn (ownPropertyOrder arrayIndex store) name) eqn:E';
      [|reflexivity].
    apply getOwn_In, ownPropertyOrder_In in E'.
    apply (In_getOwn _ _ _ Hnd) in E'. congruence.
Qed.

End Classification.

(** ** The report *)

Lemma aggregate_NoDup_keys (P : Platform) (heap : ModRef -> ModuleObj)
  (fuel : nat) (context : string) (mods : list ModRef)
  (store : list (string * list Instance)) :
  aggregate P heap fuel context mods = Ret store ->
  NoDup (map fst store) /\ distinctVersions store /\ distinctIssuerPaths store.
Proof.
  intros H. unfold aggregate in H.
  destruct (aggregate_contributions P heap fuel context mods [] store
              ownKeysOnly_nil H) as (cs & Hcs & -> & Hall).
  apply build_invariants;
    auto using NoDup_nil, distinctVersions_nil, distinctIssuerPaths_nil.
Qed.

Lemma report_keys (duplicates : list (string * list Instance)) :
  map fst (report duplicates) = sortedDuplicateKeys duplicates.
Proof.
  unfold report. rewrite map_map. simpl. apply map_id.
Qed.

Lemma sortedDuplicateKeys_perm (duplicates : list (string * list Instance)) :
  Permutation (sortedDuplicateKeys duplicates) (map fst duplicates).
Proof.
  unfold sortedDuplicateKeys. rewrite arraySort_perm.
  apply ownPropertyOrder_keys.
Qed.

Lemma report_names_In (duplicates : list (string * list Instance))
  (name : string) :
  In name (map fst (report duplicates)) <-> getOwn duplicates name <> None.
Proof.
  rewrite report_keys. split.
  - intros H. apply (Permutation_in _ (sortedDuplicateKeys_perm _)) in H.
    intros Hn. apply getOwn_None in Hn. contradiction.
  - intros H.
    apply (Permutation_in _ (Permutation_sym (sortedDuplicateKeys_perm _))).
    destruct (in_dec string_dec name (map fst duplicates)) as [Hin|Hin];
      [exact Hin|].
    apply getOwn_None in Hin. contradiction.
Qed.

Lemma report_names_sorted (duplicates : list (string * list Instance)) :
  NoDup (map fst duplicates) ->
  StronglySorted strLt (map fst (report duplicates)).
Proof.
  intros Hnd. rewrite report_keys. unfold sortedDuplicateKeys.
  apply (arraySort_sorted string (fun s => s)).
  rewrite map_id, (ownPropertyOrder_keys arrayIndex duplicates). exact Hnd.
Qed.

Lemma strLt_sorted_NoDup (l : list string) :
  StronglySorted strLt l -> NoDup l.
Proof.
  induction 1 as [|a l Hs IH Ha]; constructor; [|exact IH].
  intros Hin. rewrite Forall_forall in Ha. exact (strLt_irrefl _ (Ha _ Hin)).
Qed.

Lemma report_In (duplicates : list (string * list Instance)) (name : string)
  (reported : list Instance) :
  In (name, reported) (report duplicates) ->
  exists filtered,
    getOwn duplicates name = Some filtered /\
    reported = arraySort versionBefore filtered.
Proof.
  unfold report. rewrite in_map_iff. intros (n & H & Hn).
  injection H as -> <-.
  assert (Hin : In name (map fst (report duplicates)))
    by (rewrite report_keys; exact Hn).
  apply report_names_In in Hin. unfold sortedInstances.
  destruct (getOwn duplicates name) as [filtered|]; [eauto | contradiction].
Qed.

Lemma report_getOwn (duplicates : list (string * list Instance))
  (name : string) (filtered : list Instance) :
  getOwn duplicates name = Some filtered ->
  In (name, arraySort versionBefore filtered) (report duplicates).
Proof.
  intros H. unfold report. apply in_map_iff. exists name. split.
  - unfold sortedInstances. rewrite H. reflexivity.
  - rewrite <- report_keys. apply report_names_In. congruence.
Qed.

Lemma report_length (duplicates : list (string * list Instance)) :
  List.length (report duplicates) = List.length duplicates.
Proof.
  unfold report. rewrite length_map.
  rewrite (Permutation_length (sortedDuplicateKeys_perm duplicates)).
  apply length_map.
Qed.

(** ** Formatting *)

Lemma pushDiagnostics_messages (P : Platform) (verbose showHelp : bool)
  (duplicateCount : nat) (sorted : list (string * list Instance)) :
  forall i array,
  exists messages,
    pushDiagnostics P verbose showHelp duplicateCount sorted i array
    = array ++ messages /\
    Forall2 (diagnosticOf P verbose) sorted messages.
Proof.
  induction sorted as [|[name instances] sorted IH]; intros i array; simpl.
  - exists []. rewrite app_nil_r. auto.
  - match goal with
    | |- context [pushDiagnostics _ _ _ _ _ ?j (array ++ [?e])] =>
      destruct (IH j (array ++ [e])) as (messages & -> & Hall);
      exists (e :: messages)
    end.
    rewrite <- app_assoc. split; [reflexivity|].
    constructor; [|exact Hall]. unfold diagnosticOf. simpl.
    destruct (showHelp && _); auto.
Qed.

(** The handler aggregates, classifies, and pushes the diagnostics of
    the report before it calls back. *)
Lemma emit_conclude (P : Platform) (heap : ModRef -> ModuleObj) (fuel : nat)
  (options : Options) (compilation : Compilation) :
  emit P heap fuel options compilation
  = (store <- aggregate P heap fuel (context compilation)
                (modules compilation) ;;
     duplicates <- classify P (strict options) (exclude options) store ;;
     Ret (conclude P options compilation (report duplicates))).
Proof.
  unfold emit, conclude.
  destruct (aggregate _ _ _ _ _) as [store| |]; simpl; try reflexivity.
  destruct (classify _ _ _ _) as [duplicates| |]; simpl; try reflexivity.
  rewrite ownPropertyOrder_length, report_length.
  destruct duplicates as [|d duplicates]; [|reflexivity].
  simpl. destruct (emitError options); reflexivity.
Qed.

Lemma conclude_sink (P : Platform) (options : Options)
  (compilation : Compilation) (sorted : list (string * list Instance)) :
  exists messages,
    sink options (conclude P options compilation sorted)
    = sink options compilation ++ messages /\
    Forall2 (diagnosticOf P (verbose options)) sorted messages.
Proof.
  destruct (pushDiagnostics_messages P (verbose options) (showHelp options)
              (List.length sorted) sorted 0 (sink options compilation))
    as (messages & Hpush & Hall).
  exists messages. split; [|exact Hall].
  unfold sink in *. unfold conclude. simpl.
  destruct (emitError options); exact Hpush.
Qed.

(** ** Strict mode *)

Lemma classifyName_strict (P : Platform) (name : string)
  (instances : list Instance) :
  classifyName P true None name instances
  = Ret (if (List.length instances <=? 1)%nat then None else Some instances).
Proof.
  unfold classifyName. destruct (List.length instances <=? 1)%nat; reflexivity.
Qed.


(** The order is that of strings, not of version numbers: 10.0.0 comes
    before 9.0.0. *)
Example versions_sorted_as_strings :
  map entry_version
    (arraySort versionBefore
       [ {| entry_version := "9.0.0"; entry_path := "./~/a";
            entry_issuerPaths := []; entry_issuer := None |};
         {| entry_version := "10.0.0"; entry_path := "./~/b/~/a";
            entry_issuerPaths := []; entry_issuer := None |} ])
  = ["10.0.0"; "9.0.0"].
Proof. reflexivity. Qed.

(** ** Grouping by major version *)

Lemma getGroup_addToGroup (k k' : N) (i : Instance)
  (groups : list (N * list Instance)) :
  getGroup (addToGroup k i groups) k'
  = if (k =? k')%N then getGroup groups k' ++ [i] else getGroup groups k'.
Proof.
  unfold getGroup. induction groups as [|[k0 g] groups IH]; simpl.
  - destruct (k =? k')%N; reflexivity.
  - destruct (N.eqb_spec k0 k) as [->|Hne]; simpl.
    + destruct (k =? k')%N; reflexivity.
    + destruct (N.eqb_spec k0 k') as [->|Hne'].
      * destruct (N.eqb_spec k k'); [congruence | reflexivity].
      * exact IH.
Qed.

Lemma addToGroup_keys (k : N) (i : Instance)
  (groups : list (N * list Instance)) (k' : N) :
  In k' (map fst (addToGroup k i groups)) <-> k' = k \/ In k' (map fst groups).
Proof.
  induction groups as [|[k0 g] groups IH]; simpl; [intuition|].
  destruct (N.eqb_spec k0 k) as [->|Hne]; simpl; [intuition|].
  rewrite IH. intuition.
Qed.

Lemma addToGroup_NoDup (k : N) (i : Instance)
  (groups : list (N * list Instance)) :
  NoDup (map fst groups) -> NoDup (map fst (addToGroup k i groups)).
Proof.
  induction groups as [|[k0 g] groups IH]; simpl; intros Hnd.
  - repeat constructor. simpl. tauto.
  - inversion Hnd as [|? ? Hn Hnd']; subst.
    destruct (N.eqb_spec k0 k) as [->|Hne]; simpl.
    + constructor; assumption.
    + constructor; [|auto]. rewrite addToGroup_keys. intuition.
Qed.

Lemma addToGroup_perm (k : N) (i : Instance)
  (groups : list (N * list Instance)) :
  Permutation (flat_map snd (addToGroup k i groups))
              (i :: flat_map snd groups).
Proof.
  induction groups as [|[k0 g] groups IH]; simpl; [reflexivity|].
  destruct (k0 =? k)%N; simpl.
  - rewrite <- app_assoc. simpl.
    rewrite <- Permutation_middle. reflexivity.
  - rewrite IH. symmetry. apply Permutation_middle.
Qed.

Lemma getGroup_In (groups : list (N * list Instance)) (k : N) :
  getGroup groups k <> [] -> In (k, getGroup groups k) groups.
Proof.
  unfold getGroup.
  destruct (find (fun g => (fst g =? k)%N) groups) as [[k0 g]|] eqn:E;
    [|congruence].
  intros _. apply find_some in E. destruct E as [Hin Hk].
  simpl in *. apply N.eqb_eq in Hk. subst k0. exact Hin.
Qed.

Lemma In_getGroup (groups : list (N * list Instance)) (k : N)
  (g : list Instance) :
  NoDup (map fst groups) -> In (k, g) groups -> getGroup groups k = g.
Proof.
  unfold getGroup. induction groups as [|[k0 g0] groups IH]; simpl; [tauto|].
  intros Hnd [H|H].
  - injection H as -> ->. rewrite N.eqb_refl. reflexivity.
  - inversion Hnd as [|? ? Hn Hnd']; subst.
    destruct (N.eqb_spec k0 k) as [->|Hne]; [|auto].
    exfalso. apply Hn. apply (in_map fst) in H. exact H.
Qed.

Section Grouping.

Variable P : Platform.


Lemma foldM_groupStep (l : list Instance) :
  forall acc,
    (validVersions P l = true ->
     foldM (groupStep P) l acc = Ret (fold_left (groupAdd P) l acc))
    /\ (forall groups, foldM (groupStep P) l acc = Ret groups ->
                       validVersions P l = true).
Proof.
  induction l as [|i l IH]; intros acc; simpl; [auto|].
  assert (Hstep : forall k, semver_major P (entry_version i) = Some k ->
                            (groupAdd P) acc i = addToGroup k i acc).
  { intros k E. unfold groupAdd, majorOrZero. rewrite E. reflexivity. }
  unfold groupStep at 1 3.
  destruct (semver_major P (entry_version i)) as [k|]; simpl.
  - rewrite (Hstep k eq_refl). apply IH.
  - split; discriminate.
Qed.

Lemma majorIs_majorOrZero (k : N) (i : Instance) :
  semver_major P (entry_version i) <> None ->
  majorIs P k i = (majorOrZero P i =? k)%N.
Proof.
  unfold majorIs, majorOrZero.
  destruct (semver_major P (entry_version i)); [reflexivity | congruence].
Qed.

Lemma validVersions_cons (i : Instance) (l : list Instance) :
  validVersions P (i :: l) = true ->
  semver_major P (entry_version i) <> None /\ validVersions P l = true.
Proof.
  simpl. intros H. apply andb_prop in H. destruct H as [Hi Hl].
  split; [|exact Hl]. destruct (semver_major P (entry_version i));
    [discriminate | discriminate].
Qed.

Lemma fold_getGroup (l : list Instance) :
  forall acc k,
    validVersions P l = true ->
    getGroup (fold_left (groupAdd P) l acc) k
    = getGroup acc k ++ filter (majorIs P k) l.
Proof.
  induction l as [|i l IH]; intros acc k Hv; simpl.
  - rewrite app_nil_r. reflexivity.
  - apply validVersions_cons in Hv. destruct Hv as [Hi Hl].
    rewrite (IH _ k Hl). unfold groupAdd.
    rewrite getGroup_addToGroup, (majorIs_majorOrZero k i Hi).
    destruct (majorOrZero P i =? k)%N; [|reflexivity].
    rewrite <- app_assoc. reflexivity.
Qed.

Lemma fold_groups_NoDup (l : list Instance) :
  forall acc,
    NoDup (map fst acc) -> NoDup (map fst (fold_left (groupAdd P) l acc)).
Proof.
  induction l as [|i l IH]; intros acc Hnd; simpl; [exact Hnd|].
  apply IH. apply addToGroup_NoDup. exact Hnd.
Qed.

Lemma fold_groups_perm (l : list Instance) :
  forall acc,
    Permutation (flat_map snd (fold_left (groupAdd P) l acc))
                (flat_map snd acc ++ l).
Proof.
  induction l as [|i l IH]; intros acc; simpl.
  - rewrite app_nil_r. reflexivity.
  - rewrite IH. unfold groupAdd. rewrite addToGroup_perm. simpl.
    apply Permutation_middle.
Qed.

Lemma concatLargeGroups_flat_map (groups : list (N * list Instance)) :
  concatLargeGroups groups
  = flat_map snd (filter isLarge (ownPropertyOrder numberIndex groups)).
Proof.
  unfold concatLargeGroups.
  generalize (ownPropertyOrder numberIndex groups) as l.
  assert (H : forall l acc,
    fold_left
      (fun filtered g =>
         if (1 <? List.length (snd g))%nat then filtered ++ snd g
         else filtered) l acc
    = acc ++ flat_map snd (filter isLarge l)).
  { induction l as [|g l IH]; intros acc; simpl.
    - rewrite app_nil_r. reflexivity.
    - rewrite IH. unfold isLarge at 2.
      destruct (1 <? List.length (snd g))%nat; simpl; [|reflexivity].
      rewrite <- app_assoc. reflexivity. }
  intros l. apply H.
Qed.

Lemma sameMajor_majorIs (i : Instance) (k : N) :
  semver_major P (entry_version i) = Some k ->
  sameMajor P i = majorIs P k.
Proof. unfold sameMajor. intros ->. reflexivity. Qed.

(** What relaxed mode keeps of a list whose versions all parse. *)
Lemma relaxed_filtered (instances : list Instance) :
  validVersions P instances = true ->
  let filtered := concatLargeGroups (fold_left (groupAdd P) instances []) in
  (forall i, In i filtered <->
             In i instances /\ 2 <= groupSize P instances i)
  /\ (exists rest, Permutation (filtered ++ rest) instances)
  /\ (filtered = [] \/ 2 <= List.length filtered).
Proof.
  intros Hv filtered.
  set (groups := fold_left (groupAdd P) instances []) in *.
  assert (Hnd : NoDup (map fst groups))
    by (apply fold_groups_NoDup; constructor).
  assert (Hgrp : forall k, getGroup groups k = filter (majorIs P k) instances)
    by (intros k; unfold groups; rewrite fold_getGroup by exact Hv;
        reflexivity).
  assert (Hmem : forall k g, In (k, g) groups ->
                             g = filter (majorIs P k) instances).
  { intros k g Hin. rewrite <- Hgrp. symmetry.
    apply In_getGroup; assumption. }
  assert (Hmajor : forall i, In i instances ->
                exists k, semver_major P (entry_version i) = Some k).
  { intros i Hi. unfold validVersions in Hv. rewrite forallb_forall in Hv.
    specialize (Hv i Hi).
    destruct (semver_major P (entry_version i)); [eauto | discriminate]. }
  assert (Hfl : filtered
                = flat_map snd
                    (filter isLarge (ownPropertyOrder numberIndex groups)))
    by apply concatLargeGroups_flat_map.
  assert (Hin : forall i, In i filtered <->
                  exists k g, In (k, g) groups /\ isLarge (k, g) = true /\
                              In i g).
  { intros i. rewrite Hfl, in_flat_map. split.
    - intros ([k g] & Hg & Hi). apply filter_In in Hg.
      destruct Hg as [Hg Hl]. apply ownPropertyOrder_In in Hg. eauto.
    - intros (k & g & Hg & Hl & Hi). exists (k, g). split; [|exact Hi].
      apply filter_In. split; [|exact Hl].
      apply ownPropertyOrder_In. exact Hg. }
  split; [|split].
  - intros i. rewrite Hin. split.
    + intros (k & g & Hg & Hl & Hi).
      rewrite (Hmem k g Hg) in Hi, Hl. apply filter_In in Hi.
      destruct Hi as [Hi Hk]. split; [exact Hi|].
      unfold groupSize. unfold majorIs in Hk.
      destruct (semver_major P (entry_version i)) as [a|] eqn:E;
        [|discriminate].
      apply N.eqb_eq in Hk. subst a.
      rewrite (sameMajor_majorIs i k E).
      unfold isLarge in Hl. simpl in Hl. apply Nat.ltb_lt in Hl. lia.
    + intros [Hi Hsize]. destruct (Hmajor i Hi) as (k & E).
      unfold groupSize in Hsize. rewrite (sameMajor_majorIs i k E) in Hsize.
      assert (Hik : In i (filter (majorIs P k) instances)).
      { apply filter_In. split; [exact Hi|]. unfold majorIs. rewrite E.
        apply N.eqb_refl. }
      exists k, (filter (majorIs P k) instances). split; [|split].
      * rewrite <- Hgrp. apply getGroup_In. rewrite Hgrp.
        intros Hnil. rewrite Hnil in Hik. exact Hik.
      * unfold isLarge. simpl. apply Nat.ltb_lt. lia.
      * exact Hik.
  - exists (flat_map snd
              (filter (fun g => negb (isLarge g))
                 (ownPropertyOrder numberIndex groups))).
    rewrite Hfl, <- flat_map_app.
    rewrite (filter_partition_perm isLarge).
    rewrite (ownPropertyOrder_perm numberIndex groups).
    unfold groups. rewrite fold_groups_perm. reflexivity.
  - assert (Hlen : forall i, In i filtered -> 2 <= List.length filtered);
      [|destruct filtered as [|i rest];
        [auto | right; apply (Hlen i); left; reflexivity]].
    intros i Hi.
    apply Hin in Hi. destruct Hi as (k & g & Hg & Hl & Hi).
    assert (Hle : List.length g <= List.length filtered).
    { rewrite Hfl.
      assert (Hg' : In (k, g) (filter isLarge
                                 (ownPropertyOrder numberIndex groups))).
      { apply filter_In. split; [|exact Hl].
        apply ownPropertyOrder_In. exact Hg. }
      revert Hg'. generalize (filter isLarge
                                (ownPropertyOrder numberIndex groups)) as l.
      induction l as [|g0 l IHl]; simpl; [tauto|].
      rewrite length_app. intros [->|H]; simpl; [lia|].
      specialize (IHl H). lia. }
    unfold isLarge in Hl. simpl in Hl. apply Nat.ltb_lt in Hl. lia.
Qed.

End Grouping.

(** ** Relaxed mode *)

Lemma relaxedFiltered_spec (P : Platform) (instances : list Instance) :
  validVersions P instances = true ->
  (forall i, In i (relaxedFiltered P instances) <->
             In i instances /\ 2 <= groupSize P instances i)
  /\ (exists rest,
        Permutation (relaxedFiltered P instances ++ rest) instances)
  /\ (relaxedFiltered P instances = [] \/
      2 <= List.length (relaxedFiltered P instances)).
Proof. intros Hv. exact (relaxed_filtered P instances Hv). Qed.

Lemma policyFilter_relaxed (P : Platform) (instances : list Instance) :
  (validVersions P instances = true ->
   policyFilter P false instances
   = Ret (if (List.length (relaxedFiltered P instances) <=? 1)%nat
          then None else Some (relaxedFiltered P instances)))
  /\ (forall r, policyFilter P false instances = Ret r ->
                validVersions P instances = true).
Proof.
  unfold policyFilter, groupByMajor.
  destruct (foldM_groupStep P instances []) as [Hret Hvalid]. split.
  - intros Hv. rewrite (Hret Hv). simpl.
    change (fold_left _ instances []) with (groupsOf P instances).
    fold (relaxedFiltered P instances).
    destruct (_ <=? 1)%nat; reflexivity.
  - intros r H.
    destruct (foldM (groupStep P) instances []) as [groups| |] eqn:E;
      simpl in H; try discriminate.
    exact (Hvalid groups eq_refl).
Qed.

Lemma classifyName_relaxed (P : Platform) (name : string)
  (instances : list Instance) (r : option (list Instance)) :
  2 <= List.length instances ->
  classifyName P false None name instances = Ret r ->
  validVersions P instances = true /\
  r = if (List.length (relaxedFiltered P instances) <=? 1)%nat
      then None else Some (relaxedFiltered P instances).
Proof.
  intros Hlen. unfold classifyName.
  destruct (Nat.leb_spec (List.length instances) 1); [lia|].
  destruct (policyFilter P false instances) as [f| |] eqn:E; simpl;
    try discriminate.
  destruct (policyFilter_relaxed P instances) as [Hret Hvalid].
  pose proof (Hvalid f E) as Hv. rewrite (Hret Hv) in E.
  injection E as <-. intros Hr. split; [exact Hv|].
  destruct (_ <=? 1)%nat; simpl in Hr; congruence.
Qed.

(** What relaxed mode selects, without exclusion, when the
    classification returns: a name with two or more instances exactly
    when some instance shares its major version with another one, with
    exactly the instances whose major-version group has two or more
    members. *)
Lemma relaxed_mode_selection (P : Platform) (heap : ModRef -> ModuleObj)
  (fuel : nat) (context : string) (mods : list ModRef)
  (store duplicates : list (string * list Instance))
  (name : string) (instances : list Instance) :
  aggregate P heap fuel context mods = Ret store ->
  classify P false None store = Ret duplicates ->
  getOwn store name = Some instances ->
  2 <= List.length instances ->
  (In name (map fst (report duplicates)) <->
   exists i, In i instances /\ 2 <= groupSize P instances i)
  /\ (forall i,
        (exists reported,
           In (name, reported) (report duplicates) /\ In i reported) <->
        In i instances /\ 2 <= groupSize P instances i).
Proof.
  intros Hagg Hcl Hget Hlen.
  destruct (aggregate_NoDup_keys P heap fuel _ _ store Hagg)
    as (Hkeys & _ & _).
  destruct (classify_Ret P false None store _ Hkeys Hcl)
    as (Hret & Hnd & Hdup).
  specialize (Hret name instances (getOwn_In _ _ _ Hget)).
  destruct (classifyName P false None name instances) as [r| |] eqn:E;
    try discriminate.
  destruct (classifyName_relaxed P name instances r Hlen E) as [Hv ->].
  destruct (relaxedFiltered_spec P instances Hv) as (Hmem & _ & Hsize).
  assert (Hd : getOwn duplicates name
               = if (List.length (relaxedFiltered P instances) <=? 1)%nat
                 then None else Some (relaxedFiltered P instances)).
  { rewrite Hdup. unfold classified. rewrite Hget, E.
    destruct (_ <=? 1)%nat; reflexivity. }
  split.
  - rewrite report_names_In, Hd.
    destruct (Nat.leb_spec (List.length (relaxedFiltered P instances)) 1)
      as [Hle|Hgt].
    + split; [congruence|]. intros (i & Hi). apply Hmem in Hi.
      destruct Hsize as [Hnil|Hbig]; [|lia].
      rewrite Hnil in Hi. destruct Hi.
    + split; [|discriminate]. intros _.
      destruct (relaxedFiltered P instances) as [|i rest] eqn:Ef;
        [simpl in Hgt; lia|].
      exists i. apply Hmem. left. reflexivity.
  - intros i. rewrite <- Hmem. split.
    + intros (reported & Hin & Hi).
      destruct (report_In _ _ _ Hin) as (filtered & Hf & ->).
      rewrite Hd in Hf.
      destruct (_ <=? 1)%nat; [discriminate|]. injection Hf as <-.
      apply arraySort_In in Hi. exact Hi.
    + intros Hi.
      assert (Hbig : 2 <= List.length (relaxedFiltered P instances)).
      { destruct Hsize as [Hnil|Hbig]; [|exact Hbig].
        rewrite Hnil in Hi. destruct Hi. }
      destruct (Nat.leb_spec (List.length (relaxedFiltered P instances)) 1)
        as [Hle|Hgt]; [lia|].
      exists (arraySort versionBefore (relaxedFiltered P instances)).
      split; [apply report_getOwn; exact Hd | apply arraySort_In; exact Hi].
Qed.

(** The scenario of the specification: of [b] at 1.0.0, 1.5.0 and 2.0.0
    the report lists 1.0.0 and 1.5.0 only. *)
Example relaxed_mode_scenario :
  emit relaxedPlatform relaxedHeap 5
       {| verbose := false; showHelp := false; emitError := false;
          exclude := None; strict := false |}
       {| context := "/app"; modules := [0; 1; 2; 3]; errors := [];
          warnings := []; callbacks := 0 |}
  = Ret (conclude relaxedPlatform
           {| verbose := false; showHelp := false; emitError := false;
              exclude := None; strict := false |}
           {| context := "/app"; modules := [0; 1; 2; 3]; errors := [];
              warnings := []; callbacks := 0 |}
           [("b", [b_1_0_0; b_1_5_0])]).
Proof. reflexivity. Qed.

(** ** Exclusion *)

Lemma classifyName_excluded (P : Platform) (strict : bool)
  (ex : NamedInstance -> bool) (name : string)
  (instances filtered : list Instance) :
  2 <= List.length instances ->
  policyFilter P strict instances = Ret (Some filtered) ->
  classifyName P strict (Some ex) name instances
  = Ret (if (List.length (kept ex name filtered) <=? 1)%nat then None
         else Some (kept ex name filtered)).
Proof.
  intros Hlen Hpol. unfold classifyName.
  destruct (Nat.leb_spec (List.length instances) 1); [lia|].
  rewrite Hpol. reflexivity.
Qed.

(** C6: with an exclusion predicate, the instances of a name that remain
    after the strict or relaxed classification are each passed to the
    predicate together with the name, and those it accepts are dropped;
    when two or more remain they are what the report lists for the
    name, and when at most one remains the name is not reported. *)
Theorem exclusion_report (P : Platform) (heap : ModRef -> ModuleObj)
  (fuel : nat) (context : string) (mods : list ModRef)
  (store duplicates : list (string * list Instance)) (strict : bool)
  (ex : NamedInstance -> bool) (name : string)
  (instances filtered : list Instance) :
  aggregate P heap fuel context mods = Ret store ->
  classify P strict (Some ex) store = Ret duplicates ->
  getOwn store name = Some instances ->
  2 <= List.length instances ->
  policyFilter P strict instances = Ret (Some filtered) ->
  (2 <= List.length (kept ex name filtered) ->
   In (name, arraySort versionBefore (kept ex name filtered))
      (report duplicates))
  /\ (List.length (kept ex name filtered) <= 1 ->
      ~ In name (map fst (report duplicates)))
  /\ (forall i reported,
        In (name, reported) (report duplicates) ->
        (In i reported <->
         In i filtered /\
         ex {| ni_name := name; ni_instance := i |} = false)).
Proof.
  intros Hagg Hcl Hget Hlen Hpol.
  destruct (aggregate_NoDup_keys P heap fuel _ _ store Hagg)
    as (Hkeys & _ & _).
  destruct (classify_Ret P strict (Some ex) store _ Hkeys Hcl)
    as (_ & Hnd & Hdup).
  assert (Hd : getOwn duplicates name
               = if (List.length (kept ex name filtered) <=? 1)%nat
                 then None else Some (kept ex name filtered)).
  { rewrite Hdup. unfold classified.
    rewrite Hget, (classifyName_excluded P strict ex name instances filtered
                     Hlen Hpol).
    destruct (_ <=? 1)%nat; reflexivity. }
  split; [|split].
  - intros Hk. apply report_getOwn. rewrite Hd.
    destruct (Nat.leb_spec (List.length (kept ex name filtered)) 1);
      [lia | reflexivity].
  - intros Hk. rewrite report_names_In, Hd.
    destruct (Nat.leb_spec (List.length (kept ex name filtered)) 1);
      [congruence | lia].
  - intros i reported Hin.
    destruct (report_In _ _ _ Hin) as (f & Hf & ->).
    rewrite Hd in Hf. destruct (_ <=? 1)%nat; [discriminate|].
    injection Hf as <-. rewrite arraySort_In. unfold kept.
    rewrite filter_In, negb_true_iff. reflexivity.
Qed.

Lemma exclusion_report_witness :
  (2 <= List.length (kept (excludeVersion "3.1.0") "c"
                       (instancesOf dupStore "c")) ->
   In ("c", arraySort versionBefore
              (kept (excludeVersion "3.1.0") "c" (instancesOf dupStore "c")))
      (report []))
  /\ (List.length (kept (excludeVersion "3.1.0") "c"
                     (instancesOf dupStore "c")) <= 1 ->
      ~ In "c" (map fst (report [])))
  /\ (forall i reported,
        In ("c", reported) (report []) ->
        (In i reported <->
         In i (instancesOf dupStore "c") /\
         excludeVersion "3.1.0" {| ni_name := "c"; ni_instance := i |}
         = false)).
Proof.
  apply (exclusion_report dupPlatform dupHeap 5 "/app" [0; 1; 2; 3; 4]
           dupStore [] true (excludeVersion "3.1.0") "c"
           (instancesOf dupStore "c") (instancesOf dupStore "c")).
  - reflexivity.
  - reflexivity.
  - reflexivity.
  - simpl. lia.
  - reflexivity.
Defined.

(** The scenario of the specification: with an exclusion of version
    3.1.0 the duplicated [c] is left with one instance and nothing is
    pushed. *)
Example exclusion_scenario :
  emit dupPlatform dupHeap 5
       {| verbose := false; showHelp := true; emitError := false;
          exclude := Some (excludeVersion "3.1.0"); strict := true |}
       (dupCompilation [0; 1; 2; 3; 4])
  = Ret {| context := "/app"; modules := [0; 1; 2; 3; 4]; errors := [];
           warnings := []; callbacks := 1 |}.
Proof. reflexivity. Qed.

(** ** Two runs over the same modules in different orders *)

Lemma contributions_perm (P : Platform) (heap : ModRef -> ModuleObj)
  (fuel : nat) (context : string) (mods mods' : list ModRef) :
  Permutation mods mods' ->
  forall cs,
    contributions P heap fuel context mods = Ret cs ->
    exists cs',
      contributions P heap fuel context mods' = Ret cs' /\
      Permutation cs cs'.
Proof.
  induction 1 as [|m l l' Hp IH|m1 m2 l|l l' l'' Hp1 IH1 Hp2 IH2];
    intros cs H.
  - exists cs. auto.
  - simpl in *.
    destruct (contribution P heap fuel context m) as [c| |]; simpl in *;
      try discriminate.
    destruct (contributions P heap fuel context l) as [cs0| |]; simpl in *;
      try discriminate.
    injection H as <-. destruct (IH cs0 eq_refl) as (cs' & -> & Hperm).
    simpl. destruct c; eauto.
  - simpl in *.
    destruct (contribution P heap fuel context m2) as [c2| |]; simpl in *;
      try discriminate.
    destruct (contribution P heap fuel context m1) as [c1| |]; simpl in *;
      try discriminate.
    destruct (contributions P heap fuel context l) as [cs0| |]; simpl in *;
      try discriminate.
    injection H as <-. eexists. split; [reflexivity|].
    destruct c1, c2; auto using perm_swap.
  - destruct (IH1 cs H) as (cs1 & H1 & Hperm1).
    destruct (IH2 cs1 H1) as (cs2 & H2 & Hperm2).
    exists cs2. split; [exact H2|]. eapply Permutation_trans; eauto.
Qed.

Lemma getOwn_instancesOf_versions (store : list (string * list Instance))
  (name v : string) :
  In v (map entry_version (instancesOf store name))
  <-> instanceOf store name v <> None.
Proof.
  unfold instanceOf. split.
  - intros H Hn. apply findVersion_None in Hn. contradiction.
  - intros H.
    destruct (in_dec string_dec v
                (map entry_version (instancesOf store name))) as [Hin|Hin];
      [exact Hin|].
    apply findVersion_None in Hin. contradiction.
Qed.

(** The stores built from two arrangements of the same contributions
    have the same names and, under each name, the same versions with
    the same issuer paths. *)
Lemma build_perm (cs cs' : list Contribution) :
  Permutation cs cs' ->
  let store := fold_left insertContribution cs [] in
  let store' := fold_left insertContribution cs' [] in
  (forall name, In name (map fst store) <-> In name (map fst store'))
  /\ (forall name, sameVersions (instancesOf store name)
                                (instancesOf store' name)).
Proof.
  intros Hperm store store'.
  assert (Hex : forall (Q : Contribution -> Prop),
             (exists c, In c cs /\ Q c) <-> (exists c, In c cs' /\ Q c)).
  { intros Q. split; intros (c & Hc & Hq); exists c; split; auto.
    - exact (Permutation_in _ Hperm Hc).
    - exact (Permutation_in _ (Permutation_sym Hperm) Hc). }
  destruct (build_invariants cs [] (NoDup_nil _) distinctVersions_nil
              distinctIssuerPaths_nil) as (_ & Hv & Hp).
  destruct (build_invariants cs' [] (NoDup_nil _) distinctVersions_nil
              distinctIssuerPaths_nil) as (_ & Hv' & Hp').
  fold store in Hv, Hp. fold store' in Hv', Hp'.
  rewrite distinctVersions_instancesOf in Hv, Hv'.
  rewrite distinctIssuerPaths_instancesOf in Hp, Hp'.
  split.
  - intros name. unfold store, store'. rewrite !build_keys.
    rewrite (Hex (fun c => c_name c = name)). reflexivity.
  - intros name. unfold sameVersions.
    split; [apply Hv|split; [apply Hv'|split]].
    + intros v. rewrite !getOwn_instancesOf_versions.
      unfold store, store'. rewrite !build_present.
      rewrite (Hex (fun c => c_name c = name /\ c_version c = v)).
      reflexivity.
    + intros i i' Hi Hi' Hver.
      assert (Hf : instanceOf store name (entry_version i) = Some i)
        by (apply findVersion_In; [apply Hv | exact Hi]).
      assert (Hf' : instanceOf store' name (entry_version i) = Some i')
        by (rewrite Hver; apply findVersion_In; [apply Hv' | exact Hi']).
      apply NoDup_Permutation; [eapply Hp; eauto | eapply Hp'; eauto|].
      intros p.
      pose proof (build_pathsOf cs [] name (entry_version i) p) as B.
      pose proof (build_pathsOf cs' [] name (entry_version i) p) as B'.
      fold store in B. fold store' in B'.
      unfold pathsOf in B, B'. rewrite Hf in B. rewrite Hf' in B'.
      rewrite B, B'.
      rewrite (Hex (fun c => c_name c = name /\
                             c_version c = entry_version i /\
                             truthy (c_issuerPath c) = Some p)).
      reflexivity.
Qed.

Lemma Permutation_filter {A : Type} (p : A -> bool) (l l' : list A) :
  Permutation l l' -> Permutation (filter p l) (filter p l').
Proof.
  induction 1 as [|x l l' Hp IH|x y l|l l' l'' Hp1 IH1 Hp2 IH2]; simpl.
  - constructor.
  - destruct (p x); auto.
  - destruct (p x), (p y); auto using perm_swap.
  - eapply Permutation_trans; eauto.
Qed.

Lemma filter_map_length {A B : Type} (g : A -> B) (p : B -> bool)
  (l : list A) :
  List.length (filter (fun x => p (g x)) l)
  = List.length (filter p (map g l)).
Proof.
  induction l as [|x l IH]; simpl; [reflexivity|].
  destruct (p (g x)); simpl; rewrite IH; reflexivity.
Qed.

Lemma sameVersions_perm (l l' : list Instance) :
  sameVersions l l' ->
  Permutation (map entry_version l) (map entry_version l').
Proof.
  intros (Hnd & Hnd' & Hiff & _). apply NoDup_Permutation; assumption.
Qed.

Lemma sameVersions_length (l l' : list Instance) :
  sameVersions l l' -> List.length l = List.length l'.
Proof.
  intros H. apply sameVersions_perm, Permutation_length in H.
  rewrite !length_map in H. exact H.
Qed.

Lemma Forall2_same_versions (l l' : list Instance) :
  map entry_version l = map entry_version l' ->
  (forall i i', In i l -> In i' l' -> entry_version i = entry_version i' ->
                Permutation (entry_issuerPaths i) (entry_issuerPaths i')) ->
  Forall2 samePaths l l'.
Proof.
  revert l'. induction l as [|i l IH]; intros [|i' l'] Hmap Hp;
    simpl in Hmap; try discriminate; constructor.
  - injection Hmap as Hv _. split; [exact Hv|]. apply Hp; simpl; auto.
  - injection Hmap as _ Hmap. apply IH; [exact Hmap|].
    intros; apply Hp; simpl; auto.
Qed.

(** Sorted by version, two lists with the same versions list them in the
    same order. *)
Lemma sameVersions_sorted (l l' : list Instance) :
  sameVersions l l' ->
  Forall2 samePaths (arraySort versionBefore l) (arraySort versionBefore l').
Proof.
  intros (Hnd & Hnd' & Hiff & Hp).
  apply Forall2_same_versions.
  - apply sorted_strings_eq.
    + apply sorted_map_key.
      apply (arraySort_sorted Instance entry_version). exact Hnd.
    + apply sorted_map_key.
      apply (arraySort_sorted Instance entry_version). exact Hnd'.
    + intros v. rewrite !in_map_iff. split; intros (i & Hv & Hi);
        apply arraySort_In in Hi; apply (in_map entry_version) in Hi;
        rewrite Hv in Hi; apply Hiff in Hi; apply in_map_iff in Hi;
        destruct Hi as (j & Hj & Hin); exists j;
        (split; [exact Hj | apply arraySort_In; exact Hin]).
  - intros i i' Hi Hi'. apply arraySort_In in Hi, Hi'. auto.
Qed.

Section TwoLists.

Variable P : Platform.

Lemma sameMajor_versions (i j : Instance) :
  sameMajor P i j
  = sameMajorVersion P (entry_version i) (entry_version j).
Proof.
  unfold sameMajor, sameMajorVersion, majorIs.
  destruct (semver_major P (entry_version i)); [|reflexivity].
  destruct (semver_major P (entry_version j)); [|reflexivity].
  apply N.eqb_sym.
Qed.

Lemma groupSize_versions (l : list Instance) (i : Instance) :
  groupSize P l i
  = List.length (filter (sameMajorVersion P (entry_version i))
                        (map entry_version l)).
Proof.
  unfold groupSize. rewrite <- filter_map_length. f_equal.
  apply filter_ext. intros j. apply sameMajor_versions.
Qed.

Lemma sameVersions_groupSize (l l' : list Instance) (i i' : Instance) :
  sameVersions l l' -> entry_version i = entry_version i' ->
  groupSize P l i = groupSize P l' i'.
Proof.
  intros H Hv. rewrite !groupSize_versions, Hv.
  apply Permutation_length, Permutation_filter, sameVersions_perm. exact H.
Qed.

Lemma validVersions_versions (l : list Instance) :
  validVersions P l = true <->
  forall v, In v (map entry_version l) -> semver_major P v <> None.
Proof.
  unfold validVersions. rewrite forallb_forall. split.
  - intros H v Hv. apply in_map_iff in Hv. destruct Hv as (i & <- & Hi).
    specialize (H i Hi). destruct (semver_major P (entry_version i));
      [discriminate | discriminate].
  - intros H i Hi. specialize (H (entry_version i) (in_map _ _ _ Hi)).
    destruct (semver_major P (entry_version i)); [reflexivity | congruence].
Qed.

Lemma sameVersions_valid (l l' : list Instance) :
  sameVersions l l' ->
  validVersions P l = true -> validVersions P l' = true.
Proof.
  intros (_ & _ & Hiff & _). rewrite !validVersions_versions.
  intros H v Hv. apply H, Hiff, Hv.
Qed.

Lemma sameVersions_relaxed (l l' : list Instance) :
  sameVersions l l' ->
  validVersions P l = true ->
  sameVersions (relaxedFiltered P l) (relaxedFiltered P l').
Proof.
  intros Hsame Hv.
  pose proof (sameVersions_valid l l' Hsame Hv) as Hv'.
  destruct (relaxedFiltered_spec P l Hv) as (Hmem & (rest & Hperm) & _).
  destruct (relaxedFiltered_spec P l' Hv') as (Hmem' & (rest' & Hperm') & _).
  pose proof Hsame as (Hnd & Hnd' & Hiff & Hp).
  assert (Hsub : forall f r l0,
             Permutation (f ++ r) l0 -> NoDup (map entry_version l0) ->
             NoDup (map entry_version f)).
  { intros f r l0 Hpm Hn.
    apply (Permutation_map entry_version), Permutation_sym in Hpm.
    apply (Permutation_NoDup Hpm) in Hn. rewrite map_app in Hn.
    exact (NoDup_app_remove_r _ _ Hn). }
  assert (Hhalf : forall a a' : list Instance,
             sameVersions a a' ->
             forall f f' : list Instance,
             (forall i, In i f <-> In i a /\ 2 <= groupSize P a i) ->
             (forall i, In i f' <-> In i a' /\ 2 <= groupSize P a' i) ->
             forall v, In v (map entry_version f) ->
                       In v (map entry_version f')).
  { intros a a' Ha f f' Hf Hf' v Hin.
    pose proof Ha as (_ & _ & Haiff & _).
    apply in_map_iff in Hin. destruct Hin as (i & <- & Hi).
    apply Hf in Hi. destruct Hi as [Hi Hsize].
    pose proof (in_map entry_version _ _ Hi) as Hiv.
    apply Haiff, in_map_iff in Hiv. destruct Hiv as (i' & Hv'' & Hi').
    rewrite <- Hv''. apply in_map. apply Hf'. split; [exact Hi'|].
    rewrite <- (sameVersions_groupSize a a' i i' Ha (eq_sym Hv'')).
    exact Hsize. }
  assert (Hsym : sameVersions l' l).
  { unfold sameVersions. repeat split; auto.
    - apply Hiff. - apply Hiff.
    - intros i i' Hi Hi' Hver. symmetry. apply Hp; auto. }
  unfold sameVersions. split; [|split; [|split]].
  - exact (Hsub _ rest l Hperm Hnd).
  - exact (Hsub _ rest' l' Hperm' Hnd').
  - intros v. split.
    + exact (Hhalf l l' Hsame _ _ Hmem Hmem' v).
    + exact (Hhalf l' l Hsym _ _ Hmem' Hmem v).
  - intros i i' Hi Hi'. apply Hmem in Hi. apply Hmem' in Hi'.
    apply Hp; tauto.
Qed.

(** The classification of two lists with the same versions selects
    lists with the same versions, or nothing in both cases. *)
Lemma sameVersions_classifyName_policy (strict : bool) (name : string)
  (l l' : list Instance) (r : option (list Instance)) :
  sameVersions l l' ->
  classifyName P strict None name l = Ret r ->
  exists r',
    classifyName P strict None name l' = Ret r' /\ sameSelection r r'.
Proof.
  intros Hsame H. pose proof (sameVersions_length l l' Hsame) as Hlen.
  destruct strict.
  - rewrite classifyName_strict in *. injection H as <-.
    eexists. split; [reflexivity|]. rewrite <- Hlen.
    destruct (_ <=? 1)%nat; simpl; auto.
  - destruct (Nat.leb_spec (List.length l) 1) as [Hle|Hgt].
    + unfold classifyName in *. rewrite <- Hlen.
      destruct (Nat.leb_spec (List.length l) 1); [|lia].
      injection H as <-. exists None. simpl. auto.
    + destruct (classifyName_relaxed P name l r Hgt H) as [Hv ->].
      pose proof (sameVersions_valid l l' Hsame Hv) as Hv'.
      pose proof (sameVersions_relaxed l l' Hsame Hv) as Hrel.
      exists (if (List.length (relaxedFiltered P l') <=? 1)%nat
              then None else Some (relaxedFiltered P l')).
      split.
      * unfold classifyName. rewrite <- Hlen.
        destruct (Nat.leb_spec (List.length l) 1); [lia|].
        rewrite (proj1 (policyFilter_relaxed P l') Hv'). simpl.
        destruct (List.length (relaxedFiltered P l') <=? 1)%nat; reflexivity.
      * rewrite <- (sameVersions_length _ _ Hrel).
        destruct (List.length (relaxedFiltered P l) <=? 1)%nat; simpl; auto.
Qed.

Lemma NoDup_map_filter {A B : Type} (g : A -> B) (p : A -> bool)
  (l : list A) :
  NoDup (map g l) -> NoDup (map g (filter p l)).
Proof.
  induction l as [|x l IH]; simpl; intros H; [constructor|].
  inversion H as [|? ? Hx Hl]; subst.
  destruct (p x); simpl; [|auto].
  constructor; [|auto]. intros Hin. apply Hx.
  apply in_map_iff in Hin. destruct Hin as (y & Hy & Hin).
  apply filter_In in Hin. rewrite <- Hy. apply in_map. tauto.
Qed.

Lemma sameVersions_kept (ex : NamedInstance -> bool) (name : string)
  (f f' : list Instance) :
  decidesByVersion (Some ex) ->
  sameVersions f f' ->
  sameVersions (kept ex name f) (kept ex name f').
Proof.
  intros Hex (Hnd & Hnd' & Hiff & Hp). simpl in Hex.
  assert (Hhalf : forall a a' : list Instance,
             (forall v, In v (map entry_version a) ->
                        In v (map entry_version a')) ->
             forall v, In v (map entry_version (kept ex name a)) ->
                       In v (map entry_version (kept ex name a'))).
  { intros a a' Ha v Hv. apply in_map_iff in Hv.
    destruct Hv as (i & <- & Hi). unfold kept in Hi.
    apply filter_In in Hi. destruct Hi as [Hi Hk].
    pose proof (Ha _ (in_map entry_version _ _ Hi)) as Hi'.
    apply in_map_iff in Hi'. destruct Hi' as (i' & Hv' & Hi').
    rewrite <- Hv'. apply in_map. unfold kept. apply filter_In.
    split; [exact Hi'|]. rewrite (Hex name i' i Hv'). exact Hk. }
  unfold sameVersions. split; [|split; [|split]].
  - apply NoDup_map_filter. exact Hnd.
  - apply NoDup_map_filter. exact Hnd'.
  - intros v. split; apply Hhalf; intros w; apply Hiff.
  - intros i i' Hi Hi'. unfold kept in Hi, Hi'.
    apply filter_In in Hi, Hi'. apply Hp; tauto.
Qed.

Lemma sameSelection_excludeFilter (exclude : option (NamedInstance -> bool))
  (name : string) (f f' : list Instance) :
  decidesByVersion exclude ->
  sameVersions f f' ->
  sameSelection (excludeFilter exclude name f) (excludeFilter exclude name f').
Proof.
  intros Hex Hsame. destruct exclude as [ex|]; simpl; [|exact Hsame].
  pose proof (sameVersions_kept ex name f f' Hex Hsame) as Hk.
  unfold kept in Hk. rewrite <- (sameVersions_length _ _ Hk).
  destruct (_ <=? 1)%nat; simpl; auto.
Qed.

Lemma classifyName_factor (strict : bool)
  (exclude : option (NamedInstance -> bool)) (name : string)
  (l : list Instance) :
  classifyName P strict exclude name l
  = (r <- classifyName P strict None name l ;;
     Ret match r with
         | Some f => excludeFilter exclude name f
         | None => None
         end).
Proof.
  unfold classifyName. destruct (_ <=? 1)%nat; [reflexivity|].
  destruct (policyFilter P strict l) as [[f|]| |]; reflexivity.
Qed.

(** The classification of two lists with the same versions selects
    lists with the same versions, or nothing in both cases, also under
    an exclusion that decides by name and version. *)
Lemma sameVersions_classifyName (strict : bool)
  (exclude : option (NamedInstance -> bool)) (name : string)
  (l l' : list Instance) (r : option (list Instance)) :
  decidesByVersion exclude ->
  sameVersions l l' ->
  classifyName P strict exclude name l = Ret r ->
  exists r',
    classifyName P strict exclude name l' = Ret r' /\ sameSelection r r'.
Proof.
  intros Hex Hsame.
  rewrite (classifyName_factor strict exclude name l),
    (classifyName_factor strict exclude name l').
  destruct (classifyName P strict None name l) as [r0| |] eqn:E;
    simpl; try discriminate.
  intros H. injection H as <-.
  destruct (sameVersions_classifyName_policy strict name l l' r0 Hsame E)
    as (r0' & -> & Hsel). simpl.
  eexists. split; [reflexivity|].
  destruct r0 as [f|], r0' as [f'|]; simpl in Hsel; try contradiction;
    [|exact I].
  apply sameSelection_excludeFilter; assumption.
Qed.

End TwoLists.

(** *** Sorting strings depends on the elements only *)

Lemma ltb_asym (x y : string) :
  String.ltb x y = true -> String.ltb y x = false.
Proof.
  intros H. destruct (String.ltb y x) eqn:E; [|reflexivity].
  exfalso. exact (strLt_irrefl _ (strLt_trans _ _ _ H E)).
Qed.

Lemma ltb_neither (x y : string) :
  String.ltb x y = false -> String.ltb y x = false -> x = y.
Proof.
  intros Hxy Hyx. destruct (string_dec x y) as [E|E]; [exact E|].
  destruct (strLt_total x y E) as [H|H]; unfold strLt in H; congruence.
Qed.

Lemma insertBy_comm (x y : string) (l : list string) :
  insertBy String.ltb x (insertBy String.ltb y l)
  = insertBy String.ltb y (insertBy String.ltb x l).
Proof.
  induction l as [|z l IH]; simpl.
  - destruct (String.ltb x y) eqn:Exy.
    + rewrite (ltb_asym _ _ Exy). reflexivity.
    + destruct (String.ltb y x) eqn:Eyx; [reflexivity|].
      rewrite (ltb_neither _ _ Exy Eyx). reflexivity.
  - destruct (String.ltb y z) eqn:Eyz, (String.ltb x z) eqn:Exz; simpl;
      rewrite ?Eyz, ?Exz.
    + destruct (String.ltb x y) eqn:Exy.
      * rewrite (ltb_asym _ _ Exy). reflexivity.
      * destruct (String.ltb y x) eqn:Eyx; [reflexivity|].
        rewrite (ltb_neither _ _ Exy Eyx). reflexivity.
    + destruct (String.ltb x y) eqn:Exy; [|reflexivity].
      pose proof (strLt_trans _ _ _ Exy Eyz) as H. unfold strLt in H.
      congruence.
    + destruct (String.ltb y x) eqn:Eyx; [|reflexivity].
      pose proof (strLt_trans _ _ _ Eyx Exz) as H. unfold strLt in H.
      congruence.
    + rewrite IH. reflexivity.
Qed.

Lemma arraySort_strings_perm (l l' : list string) :
  Permutation l l' -> arraySort String.ltb l = arraySort String.ltb l'.
Proof.
  induction 1 as [|x l l' Hp IH|x y l|l l' l'' Hp1 IH1 Hp2 IH2]; simpl.
  - reflexivity.
  - rewrite IH. reflexivity.
  - apply insertBy_comm.
  - congruence.
Qed.

(** *** The text of the diagnostics *)

Lemma canonicalPaths_line (P : Platform) (i i' : Instance) :
  samePaths i i' ->
  instanceLine P false (canonicalPaths i)
  = instanceLine P false (canonicalPaths i').
Proof.
  intros [Hv Hp]. unfold instanceLine, canonicalPaths. simpl.
  rewrite Hv, (arraySort_strings_perm _ _ Hp). reflexivity.
Qed.

Lemma canonical_diagnostic (P : Platform) (name : string)
  (l l' : list Instance) :
  Forall2 samePaths l l' ->
  diagnostic P false name (map canonicalPaths l)
  = diagnostic P false name (map canonicalPaths l').
Proof.
  intros H. unfold diagnostic.
  assert (Hlines : map (instanceLine P false) (map canonicalPaths l)
                   = map (instanceLine P false) (map canonicalPaths l')).
  { induction H as [|i i' l l' Hi Hl IH]; cbn [map]; [reflexivity|].
    rewrite (canonicalPaths_line P i i' Hi), IH. reflexivity. }
  rewrite Hlines. reflexivity.
Qed.

Lemma canonical_pushDiagnostics (P : Platform) (showHelp : bool)
  (duplicateCount : nat) (r r' : list (string * list Instance)) :
  sameUpToPathOrder r r' ->
  forall i array,
    pushDiagnostics P false showHelp duplicateCount (canonical r) i array
    = pushDiagnostics P false showHelp duplicateCount (canonical r') i array.
Proof.
  induction 1 as [|[name l] [name' l'] r r' [Hn Hl] Hr IH]; intros i array;
    simpl; [reflexivity|].
  simpl in Hn, Hl. subst name'.
  rewrite (canonical_diagnostic P name l l' Hl). apply IH.
Qed.

Lemma sameUpToPathOrder_length (r r' : list (string * list Instance)) :
  sameUpToPathOrder r r' -> List.length r = List.length r'.
Proof. induction 1; simpl; congruence. Qed.

Lemma canonical_length (r : list (string * list Instance)) :
  List.length (canonical r) = List.length r.
Proof. apply length_map. Qed.

Lemma canonical_sink (P : Platform) (options : Options)
  (compilation compilation' : Compilation)
  (r r' : list (string * list Instance)) :
  verbose options = false ->
  errors compilation = errors compilation' ->
  warnings compilation = warnings compilation' ->
  sameUpToPathOrder r r' ->
  sink options (conclude P options compilation (canonical r))
  = sink options (conclude P options compilation' (canonical r')).
Proof.
  intros Hverb He Hw Hsame. unfold sink, conclude. simpl.
  rewrite Hverb, !canonical_length, <- He, <- Hw,
    <- (sameUpToPathOrder_length r r' Hsame).
  destruct (emitError options);
    apply canonical_pushDiagnostics; exact Hsame.
Qed.

(** *** From the stores to the reports *)

Lemma getOwn_Some_key {V : Type} (o : list (string * V)) (k : string) :
  In k (map fst o) -> exists v, getOwn o k = Some v.
Proof.
  intros H. destruct (getOwn o k) as [v|] eqn:E; [eauto|].
  apply getOwn_None in E. contradiction.
Qed.

Lemma classified_Ret (P : Platform) (strict : bool)
  (exclude : option (NamedInstance -> bool))
  (store : list (string * list Instance)) (name : string)
  (l : list Instance) (r : option (list Instance)) :
  getOwn store name = Some l ->
  classifyName P strict exclude name l = Ret r ->
  classified P strict exclude store name = r.
Proof.
  intros Hget Hr. unfold classified. rewrite Hget, Hr.
  destruct r; reflexivity.
Qed.

Lemma returns_Ret {A : Type} (r : result A) :
  returns r = true -> exists a, r = Ret a.
Proof. destruct r; try discriminate. eauto. Qed.

Lemma stores_classify (P : Platform) (strict : bool)
  (exclude : option (NamedInstance -> bool))
  (store store' duplicates : list (string * list Instance)) :
  decidesByVersion exclude ->
  NoDup (map fst store) -> NoDup (map fst store') ->
  (forall name, In name (map fst store) <-> In name (map fst store')) ->
  (forall name, sameVersions (instancesOf store name)
                             (instancesOf store' name)) ->
  classify P strict exclude store = Ret duplicates ->
  exists duplicates',
    classify P strict exclude store' = Ret duplicates' /\
    NoDup (map fst duplicates) /\ NoDup (map fst duplicates') /\
    forall name,
      sameSelection (getOwn duplicates name) (getOwn duplicates' name).
Proof.
  intros Hex Hnd Hnd' Hkeys Hsame Hcl.
  destruct (classify_Ret P strict exclude store _ Hnd Hcl)
    as (Hret & Hdnd & Hdup).
  assert (Hboth : forall name l',
             getOwn store' name = Some l' ->
             exists l r r',
               getOwn store name = Some l /\
               classifyName P strict exclude name l = Ret r /\
               classifyName P strict exclude name l' = Ret r' /\
               sameSelection r r').
  { intros name l' Hget'.
    assert (Hk : In name (map fst store)).
    { apply Hkeys. apply getOwn_In in Hget'.
      apply (in_map fst) in Hget'. exact Hget'. }
    destruct (getOwn_Some_key store name Hk) as (l & Hget).
    destruct (returns_Ret _ (Hret name l (getOwn_In _ _ _ Hget)))
      as (r & Hr).
    specialize (Hsame name). unfold instancesOf in Hsame.
    rewrite Hget, Hget' in Hsame.
    destruct (sameVersions_classifyName P strict exclude name l l' r Hex Hsame
                Hr)
      as (r' & Hr' & Hsel).
    exists l, r, r'. auto. }
  assert (Hret' : forall name l',
             In (name, l') store' ->
             returns (classifyName P strict exclude name l') = true).
  { intros name l' Hin. apply (In_getOwn _ _ _ Hnd') in Hin.
    destruct (Hboth name l' Hin) as (l & r & r' & _ & _ & -> & _).
    reflexivity. }
  pose proof (classify_returns P strict exclude store' Hnd' Hret') as Hcl'.
  destruct (classify_Ret P strict exclude store' _ Hnd' Hcl')
    as (_ & Hdnd' & Hdup').
  eexists. split; [exact Hcl'|]. split; [exact Hdnd|].
  split; [exact Hdnd'|].
  intros name. rewrite Hdup, Hdup'.
  destruct (getOwn store' name) as [l'|] eqn:Hget'.
  - destruct (Hboth name l' Hget') as (l & r & r' & Hget & Hr & Hr' & Hsel).
    rewrite (classified_Ret P strict exclude store name l r Hget Hr).
    rewrite (classified_Ret P strict exclude store' name l' r' Hget' Hr').
    exact Hsel.
  - unfold classified. rewrite Hget'.
    destruct (getOwn store name) as [l|] eqn:Hget; [|exact I].
    exfalso. apply getOwn_None in Hget'. apply Hget', Hkeys.
    apply getOwn_In in Hget. apply (in_map fst) in Hget. exact Hget.
Qed.

Lemma sameSelection_present (r r' : option (list Instance)) :
  sameSelection r r' -> (r <> None <-> r' <> None).
Proof.
  destruct r, r'; simpl; intros H; try contradiction;
    split; congruence.
Qed.

Lemma report_same (duplicates duplicates' : list (string * list Instance)) :
  NoDup (map fst duplicates) -> NoDup (map fst duplicates') ->
  (forall name,
     sameSelection (getOwn duplicates name) (getOwn duplicates' name)) ->
  sameUpToPathOrder (report duplicates) (report duplicates').
Proof.
  intros Hnd Hnd' Hsel.
  assert (Hkeys : sortedDuplicateKeys duplicates
                  = sortedDuplicateKeys duplicates').
  { rewrite <- !report_keys. apply sorted_strings_eq.
    - apply report_names_sorted. exact Hnd.
    - apply report_names_sorted. exact Hnd'.
    - intros name. rewrite !report_names_In.
      apply sameSelection_present, Hsel. }
  unfold sameUpToPathOrder, report. rewrite <- Hkeys.
  generalize (sortedDuplicateKeys duplicates) as names.
  induction names as [|name names IH]; simpl; constructor; [|exact IH].
  simpl. split; [reflexivity|]. unfold sortedInstances.
  specialize (Hsel name).
  destruct (getOwn duplicates name) as [f|],
           (getOwn duplicates' name) as [f'|]; simpl in Hsel;
    try contradiction; [|constructor].
  apply sameVersions_sorted. exact Hsel.
Qed.

(** C9, as stated, fails: in verbose mode the text shows the issuer of
    the first module seen for an instance, which depends on the order
    of the modules.  The two runs below record the same issuer paths in
    the same order and push different diagnostics. *)
Lemma verbose_diagnostics_depend_on_order :
  Permutation [0; 1; 2; 3] [0; 2; 1; 3] /\
  exists r r',
    emit dupPlatform verboseHeap 5 verboseOptions
         (dupCompilation [0; 1; 2; 3])
    = Ret (conclude dupPlatform verboseOptions
             (dupCompilation [0; 1; 2; 3]) r) /\
    emit dupPlatform verboseHeap 5 verboseOptions
         (dupCompilation [0; 2; 1; 3])
    = Ret (conclude dupPlatform verboseOptions
             (dupCompilation [0; 2; 1; 3]) r') /\
    map (fun e => (fst e, map (fun i => (entry_version i,
                                          entry_issuerPaths i)) (snd e))) r
    = map (fun e => (fst e, map (fun i => (entry_version i,
                                            entry_issuerPaths i)) (snd e))) r'
    /\ warnings (conclude dupPlatform verboseOptions
                   (dupCompilation [0; 1; 2; 3]) r)
       <> warnings (conclude dupPlatform verboseOptions
                      (dupCompilation [0; 2; 1; 3]) r').
Proof.
  split; [constructor; apply perm_swap|].
  exists
    [("c", [ {| entry_version := "3.0.0"; entry_path := "./~/c";
                entry_issuerPaths := ["~/c@3.0.0"];
                entry_issuer := Some "./src/index.js" |};
             {| entry_version := "3.1.0"; entry_path := "./~/b/~/c";
                entry_issuerPaths := ["~/c@3.1.0"];
                entry_issuer := Some "./src/index.js" |} ])],
    [("c", [ {| entry_version := "3.0.0"; entry_path := "./~/c";
                entry_issuerPaths := ["~/c@3.0.0"];
                entry_issuer := Some "./~/c/index.js" |};
             {| entry_version := "3.1.0"; entry_path := "./~/b/~/c";
                entry_issuerPaths := ["~/c@3.1.0"];
                entry_issuer := Some "./src/index.js" |} ])].
  split; [reflexivity|]. split; [reflexivity|]. split; [reflexivity|].
  vm_compute. discriminate.
Qed.

(** C9, amended: when verbose mode is off and the exclusion predicate,
    if one is configured, decides by package name and version only, a
    run over the same modules in another order returns as well, and the
    two reports list the same package names in the same order and under
    each name the same versions in the same order, with issuer paths
    that agree up to their order; once the issuer paths of every
    instance are put in one order the text of the diagnostics is the
    same. *)
Theorem reshuffled_modules_same_diagnostics (P : Platform)
  (heap : ModRef -> ModuleObj) (fuel : nat) (options : Options)
  (compilation : Compilation) (mods' : list ModRef) (out : Compilation) :
  verbose options = false ->
  decidesByVersion (exclude options) ->
  Permutation (modules compilation) mods' ->
  emit P heap fuel options compilation = Ret out ->
  exists r r',
    out = conclude P options compilation r
    /\ emit P heap fuel options (withModules compilation mods')
       = Ret (conclude P options (withModules compilation mods') r')
    /\ sameUpToPathOrder r r'
    /\ sink options (conclude P options compilation (canonical r))
       = sink options
           (conclude P options (withModules compilation mods')
              (canonical r')).
Proof.
  intros Hverb Hexcl Hperm Hemit.
  rewrite emit_conclude in Hemit.
  destruct (aggregate P heap fuel (context compilation)
              (modules compilation)) as [store| |] eqn:Hagg;
    simpl in Hemit; try discriminate.
  destruct (classify P (strict options) (exclude options) store)
    as [duplicates| |]
    eqn:Hcl; simpl in Hemit; try discriminate.
  injection Hemit as <-.
  pose proof Hagg as Hagg0. unfold aggregate in Hagg0.
  destruct (aggregate_contributions P heap fuel _ _ [] store
              ownKeysOnly_nil Hagg0) as (cs & Hcs & Hstore & Hall).
  destruct (contributions_perm P heap fuel _ _ _ Hperm cs Hcs)
    as (cs' & Hcs' & Hpcs).
  assert (Hall' : Forall (fun c => inheritsProperty (c_name c) = false) cs').
  { rewrite Forall_forall in *. intros c Hc. apply Hall.
    exact (Permutation_in _ (Permutation_sym Hpcs) Hc). }
  pose proof (contributions_aggregate P heap fuel _ _ [] cs'
                ownKeysOnly_nil Hcs' Hall') as Hagg'.
  set (store' := fold_left insertContribution cs' []) in *.
  destruct (build_perm cs cs' Hpcs) as (Hkeys & Hsame).
  rewrite <- Hstore in Hkeys, Hsame. fold store' in Hkeys, Hsame.
  destruct (aggregate_NoDup_keys P heap fuel _ _ store Hagg)
    as (Hnd & _ & _).
  destruct (aggregate_NoDup_keys P heap fuel _ _ store' Hagg')
    as (Hnd' & _ & _).
  destruct (stores_classify P (strict options) (exclude options) store
              store' duplicates Hexcl Hnd Hnd' Hkeys Hsame Hcl)
    as (duplicates' & Hcl' & Hdnd & Hdnd' & Hsel).
  pose proof (report_same duplicates duplicates' Hdnd Hdnd' Hsel) as Hrep.
  exists (report duplicates), (report duplicates').
  split; [reflexivity|]. split; [|split; [exact Hrep|]].
  - rewrite emit_conclude. simpl.
    change (foldM (forEachModule P heap fuel (context compilation)) mods' [])
      with (aggregate P heap fuel (context compilation) mods') in Hagg'.
    rewrite Hagg'. simpl. rewrite Hcl'. reflexivity.
  - apply canonical_sink; auto.
Qed.

Lemma reshuffled_modules_same_diagnostics_witness :
  exists r r',
    conclude dupPlatform defaults (dupCompilation [0; 1; 2; 3; 4])
      (report [("c", instancesOf dupStore "c")])
    = conclude dupPlatform defaults (dupCompilation [0; 1; 2; 3; 4]) r
    /\ emit dupPlatform dupHeap 5 defaults
         (withModules (dupCompilation [0; 1; 2; 3; 4]) [0; 1; 4; 3; 2])
       = Ret (conclude dupPlatform defaults
                (withModules (dupCompilation [0; 1; 2; 3; 4])
                   [0; 1; 4; 3; 2]) r')
    /\ sameUpToPathOrder r r'
    /\ sink defaults
         (conclude dupPlatform defaults (dupCompilation [0; 1; 2; 3; 4])
            (canonical r))
       = sink defaults
           (conclude dupPlatform defaults
              (withModules (dupCompilation [0; 1; 2; 3; 4]) [0; 1; 4; 3; 2])
              (canonical r')).
Proof.
  apply (reshuffled_modules_same_diagnostics dupPlatform dupHeap 5 defaults
           (dupCompilation [0; 1; 2; 3; 4]) [0; 1; 4; 3; 2]).
  - reflexivity.
  - exact I.
  - simpl. do 2 constructor.
    apply (Permutation_trans (l' := [4; 2; 3])).
    + apply (Permutation_trans (l' := [2; 4; 3]));
        [constructor; apply perm_swap | apply perm_swap].
    + constructor. apply perm_swap.
  - reflexivity.
Defined.

(** ** Exceptions that leave the handler *)

(** C3 does not hold of the code: in relaxed mode [semver.major] is
    called outside any [try]; on a package with two instances one of
    which has a version that is not a semantic version the handler
    throws, and it never reaches [callback()], whatever the fuel. *)
Theorem emit_throws_on_invalid_version :
  emit badVersionPlatform badVersionHeap 5 relaxedOptions
       {| context := "/app"; modules := [0; 1; 2]; errors := [];
          warnings := []; callbacks := 0 |}
  = Throw (TypeError "Invalid Version").
Proof. reflexivity. Qed.

(** With less fuel the model gives no answer; with no fuel does the
    handler complete. *)
Lemma emit_never_completes_on_invalid_version (fuel : nat)
  (out : Compilation) :
  emit badVersionPlatform badVersionHeap fuel relaxedOptions
       {| context := "/app"; modules := [0; 1; 2]; errors := [];
          warnings := []; callbacks := 0 |}
  <> Ret out.
Proof.
  intros H.
  destruct fuel as [|[|[|fuel]]]; vm_compute in H; discriminate.
Qed.

(** A second way out: for a package named like a property that every
    object inherits, [modules[pkg.name] || []] is not an array and
    [push] fails. *)
Example emit_throws_on_inherited_name :
  emit constructorPlatform constructorHeap 5 defaults
       {| context := "/app"; modules := [0]; errors := [];
          warnings := []; callbacks := 0 |}
  = Throw (TypeError "modules[pkg.name].push is not a function").
Proof. reflexivity. Qed.

(** A third one: on a cyclic issuer chain [getIssuer] does not return. *)
Lemma getIssuer_cycle_diverges (fuel : nat) (ret : option (list string)) :
  getIssuer chainPlatform cyclicHeap fuel (Some 0) ret = Diverge.
Proof.
  revert ret. induction fuel as [|fuel IH]; intros ret; [reflexivity|].
  cbn [getIssuer]. change (truthy (mod_resource (cyclicHeap 0)))
    with (Some "/app/src/index.js").
  change (mod_issuer (cyclicHeap 0)) with (Some 0).
  destruct (getClosestPackage chainPlatform (S fuel) "/app/src/index.js");
    simpl; auto.
Qed.

(** An exclusion predicate that looks at the issuer of an instance sees
    the issuer of the first module seen, and the report changes with
    the order of the modules: here [c] is reported in one order and not
    in the other. *)
Example exclusion_by_issuer_depends_on_order :
  emit dupPlatform verboseHeap 5
    {| verbose := false; showHelp := false; emitError := false;
       exclude := Some (excludeIssuer "./~/c/index.js"); strict := true |}
    (dupCompilation [0; 1; 2; 3])
  = Ret {| context := "/app"; modules := [0; 1; 2; 3]; errors := [];
           warnings :=
             [ diagnostic dupPlatform false "c"
                 [ {| entry_version := "3.0.0"; entry_path := "./~/c";
                      entry_issuerPaths := ["~/c@3.0.0"];
                      entry_issuer := Some "./src/index.js" |};
                   {| entry_version := "3.1.0"; entry_path := "./~/b/~/c";
                      entry_issuerPaths := ["~/c@3.1.0"];
                      entry_issuer := Some "./src/index.js" |} ] ];
           callbacks := 1 |}
  /\ emit dupPlatform verboseHeap 5
       {| verbose := false; showHelp := false; emitError := false;
          exclude := Some (excludeIssuer "./~/c/index.js"); strict := true |}
       (dupCompilation [0; 2; 1; 3])
     = Ret {| context := "/app"; modules := [0; 2; 1; 3]; errors := [];
              warnings := []; callbacks := 1 |}.
Proof. split; reflexivity. Qed.

(** Without options the plugin runs with the defaults: strict mode, no
    exclusion. *)
Example plugin_defaults :
  DuplicatePackageCheckerPlugin
    {| user_verbose := None; user_showHelp := None; user_emitError := None;
       user_exclude := None; user_strict := None |}
  = defaults.
Proof. reflexivity. Qed.

(* ================================================================== *)
(** * Part V: further properties of the code *)
(* ================================================================== *)

(** ** [cleanPath] and [cleanPathRelativeToContext] *)

(** X1: a path in which the regular expression finds no [node_modules]
    segment is returned as it is. *)
Theorem cleanPath_without_segment (path : string) :
  hasMatch path = false -> cleanPath path = path.
Proof. intros H. exact (clean_no_match path H). Qed.

Lemma cleanPath_without_segment_witness :
  cleanPath "C:\project\src\index.js" = "C:\project\src\index.js".
Proof.
  apply (cleanPath_without_segment "C:\project\src\index.js"). reflexivity.
Defined.

(** X2: the normalised path is never longer than the path, and it is
    shorter exactly when the path holds a [node_modules] segment. *)
Theorem cleanPath_never_longer (path : string) :
  String.length (cleanPath path) <= String.length path
  /\ (hasMatch path = true <->
      String.length (cleanPath path) < String.length path).
Proof.
  change (cleanPath path) with (clean 0 path).
  destruct (clean_shortens _ path (le_n _)) as [Hle Hlt].
  split; [exact Hle|]. split; [exact Hlt|].
  intros H. destruct (hasMatch path) eqn:E; [reflexivity|].
  rewrite (clean_no_match path E) in H. lia.
Qed.

(** X3: when the path has no two adjacent [node_modules] segments, no
    [node_modules] segment is left in the normalised path. *)
Theorem cleanPath_leaves_no_segment (path : string) :
  hasDouble path = false -> hasMatch (cleanPath path) = false.
Proof.
  intros H. exact (hasMatch_clean (String.length path) path (le_n _) H).
Qed.

Lemma cleanPath_leaves_no_segment_witness :
  hasMatch (cleanPath "/app/node_modules/b\node_modules\c/lib/node_modules")
  = false.
Proof.
  apply (cleanPath_leaves_no_segment
           "/app/node_modules/b\node_modules\c/lib/node_modules").
  reflexivity.
Defined.

Lemma prefix_append (c r : string) : String.prefix c (c +++ r) = true.
Proof.
  induction c as [|a c IH]; simpl; [destruct r; reflexivity|].
  destruct (ascii_dec a a); [exact IH | congruence].
Qed.

Lemma removeFirst_unfold (pat s : string) :
  removeFirst pat s
  = if String.prefix pat s then dropString (String.length pat) s
    else match s with
         | EmptyString => EmptyString
         | String c t => String c (removeFirst pat t)
         end.
Proof. destruct s; reflexivity. Qed.

(** X4: when the normalised path starts with the compilation context,
    the context is cut off and a dot put in its place, whatever follows
    the context (the cut does not look for a separator). *)
Theorem cleanPathRelativeToContext_strips_context
  (context path rest : string) :
  cleanPath path = context +++ rest ->
  cleanPathRelativeToContext context path = "." +++ rest.
Proof.
  intros H. unfold cleanPathRelativeToContext.
  rewrite H, prefix_append, removeFirst_unfold, prefix_append,
    dropString_append. reflexivity.
Qed.

Lemma cleanPathRelativeToContext_strips_context_witness :
  cleanPathRelativeToContext "/app" "/application/node_modules/b"
  = "." +++ "lication/~/b".
Proof.
  apply (cleanPathRelativeToContext_strips_context
           "/app" "/application/node_modules/b" "lication/~/b").
  reflexivity.
Defined.

(** ** [getClosestPackage] *)

(** X5: whatever the locator returns is what one of the searches found:
    there is a search, reached through metadata without a name only,
    that did not find such metadata, and the result is the package at
    its root (with a non-empty name) or none if it found no root or no
    metadata that parses. *)
Theorem getClosestPackage_sound (P : Platform) (fuel : nat)
  (modulePath : string) (r : option ClosestPackage) :
  getClosestPackage P fuel modulePath = Ret r ->
  exists k,
    k < fuel /\
    (forall i, i < k -> anonymousAt P i modulePath = true) /\
    anonymousAt P k modulePath = false /\
    r = packageAt P k modulePath /\
    hasName r.
Proof.
  revert modulePath. induction fuel as [|fuel IH]; intros p H;
    [discriminate|].
  simpl in H.
  destruct (findRoot P p) as [root|] eqn:Hroot.
  - destruct (requireJson P (path_join P root "package.json"))
      as [[|pkg]|] eqn:Hmeta; [discriminate| |].
    + destruct (truthy (pkg_name pkg)) as [n|] eqn:Hname.
      * injection H as <-. exists 0.
        unfold anonymousAt, packageAt, metadataAt. simpl.
        rewrite Hroot, Hmeta, Hname.
        split; [lia|]. split; [intros i Hi; lia|].
        split; [reflexivity|]. split; [reflexivity|].
        simpl. exists n. apply truthy_Some. exact Hname.
      * destruct (IH _ H) as (k & Hk & Hanon & Hstop & Hr & Hn).
        exists (S k). unfold anonymousAt, packageAt in *.
        rewrite (nthRoot_S P k p root Hroot).
        split; [lia|]. split; [|auto].
        intros [|i] Hi.
        -- simpl. rewrite Hroot. unfold metadataAt. rewrite Hmeta, Hname.
           reflexivity.
        -- rewrite (nthRoot_S P i p root Hroot). apply Hanon. lia.
    + injection H as <-. exists 0.
      unfold anonymousAt, packageAt, metadataAt. simpl.
      rewrite Hroot, Hmeta. repeat split; try lia; try exact I.
  - injection H as <-. exists 0.
    unfold anonymousAt, packageAt. simpl. rewrite Hroot.
    repeat split; try lia; try exact I.
Qed.

Lemma getClosestPackage_sound_witness :
  exists k,
    k < 2 /\
    (forall i, i < k ->
               anonymousAt nestedPlatform i "/app/node_modules/c/lib/x.js"
               = true) /\
    anonymousAt nestedPlatform k "/app/node_modules/c/lib/x.js" = false /\
    Some {| cp_package := named "c" "3.0.0";
            cp_path := "/app/node_modules/c" |}
    = packageAt nestedPlatform k "/app/node_modules/c/lib/x.js" /\
    hasName (Some {| cp_package := named "c" "3.0.0";
                     cp_path := "/app/node_modules/c" |}).
Proof.
  apply (getClosestPackage_sound nestedPlatform 2
           "/app/node_modules/c/lib/x.js").
  reflexivity.
Defined.

(** ** [getIssuer] and the rendered path *)

Lemma pushUnique_extends (ret : list string) (p : string) :
  (exists more, pushUnique ret p = ret ++ more)
  /\ (NoDup ret -> NoDup (pushUnique ret p)).
Proof.
  unfold pushUnique. destruct (notIn p ret) eqn:E.
  - split; [eauto|]. intros H. apply notIn_true in E.
    apply NoDup_app; [exact H | repeat constructor; simpl; tauto|].
    intros x Hx [<-|[]]. contradiction.
  - split; [exists []; rewrite app_nil_r; reflexivity | auto].
Qed.

(** X7: [getIssuer] only appends to the list it is given: what it
    returns starts with that list, and is free of repetitions if that
    list was. *)
Theorem getIssuer_extends_accumulator (P : Platform)
  (heap : ModRef -> ModuleObj) (fuel : nat) (issuer : option ModRef)
  (ret l : list string) :
  getIssuer P heap fuel issuer (Some ret) = Ret l ->
  (exists more, l = ret ++ more) /\ (NoDup ret -> NoDup l).
Proof.
  revert issuer ret. induction fuel as [|fuel IH]; intros issuer ret H;
    [discriminate|].
  assert (Hsame : forall r, Ret ret = Ret r ->
            (exists more, r = ret ++ more) /\ (NoDup ret -> NoDup r)).
  { intros r Hr. injection Hr as <-.
    split; [exists []; rewrite app_nil_r; reflexivity | auto]. }
  cbn [getIssuer] in H. destruct issuer as [m|]; [|auto].
  destruct (truthy (mod_resource (heap m))) as [resource|]; [|auto].
  destruct (getClosestPackage P (S fuel) resource) as [pkg| |];
    cbn [bind] in H; try discriminate.
  set (ret' := match pkg with
               | Some pkg => pushUnique ret (nameAtVersion (cp_package pkg))
               | None => ret
               end) in *.
  assert (Hret' : (exists more, ret' = ret ++ more)
                  /\ (NoDup ret -> NoDup ret')).
  { unfold ret'. destruct pkg as [pkg|]; [apply pushUnique_extends|].
    split; [exists []; rewrite app_nil_r; reflexivity | auto]. }
  destruct Hret' as [(more1 & Hmore1) Hnd1].
  assert (Hl : (exists more, l = ret' ++ more) /\ (NoDup ret' -> NoDup l)).
  { destruct (mod_issuer (heap m)) as [i|].
    - exact (IH _ _ H).
    - injection H as <-.
      split; [exists []; rewrite app_nil_r; reflexivity | auto]. }
  destruct Hl as [(more2 & Hmore2) Hnd2]. split.
  - exists (more1 ++ more2). rewrite Hmore2, Hmore1, app_assoc. reflexivity.
  - auto.
Qed.

Lemma getIssuer_extends_accumulator_witness :
  (exists more, ["seen@1.0.0"; "b@2.0.0"; "app@1.0.0"]
                = ["seen@1.0.0"] ++ more)
  /\ (NoDup ["seen@1.0.0"] -> NoDup ["seen@1.0.0"; "b@2.0.0"; "app@1.0.0"]).
Proof.
  apply (getIssuer_extends_accumulator chainPlatform chainHeap 5 (Some 1)).
  reflexivity.
Defined.

Lemma issuerChain_None_inv (heap : ModRef -> ModuleObj) (m : ModRef) :
  (forall n, issuerChain heap n m = None) ->
  exists resource i,
    truthy (mod_resource (heap m)) = Some resource /\
    mod_issuer (heap m) = Some i /\
    forall n, issuerChain heap n i = None.
Proof.
  intros H. pose proof (H 0) as H0. simpl in H0.
  destruct (truthy (mod_resource (heap m))) as [resource|] eqn:Hr;
    [|discriminate].
  destruct (mod_issuer (heap m)) as [i|] eqn:Hi; [|discriminate].
  exists resource, i. repeat split.
  intros n. specialize (H (S n)). simpl in H. rewrite Hr, Hi in H.
  destruct (issuerChain heap n i); [discriminate | reflexivity].
Qed.

(** X8: there is no cycle detection: when the issuer links from a module
    never reach a module without resource or without issuer, [getIssuer]
    does not return, whatever the fuel. *)
Theorem getIssuer_never_returns_on_cycle (P : Platform)
  (heap : ModRef -> ModuleObj) (m : ModRef) :
  (forall n, issuerChain heap n m = None) ->
  forall fuel ret l, getIssuer P heap fuel (Some m) ret <> Ret l.
Proof.
  intros H fuel. revert m H.
  induction fuel as [|fuel IH]; intros m H ret l; [discriminate|].
  destruct (issuerChain_None_inv heap m H) as (resource & i & Hr & Hi & Hn).
  cbn [getIssuer]. rewrite Hr, Hi.
  destruct (getClosestPackage P (S fuel) resource) as [pkg| |];
    cbn [bind]; try discriminate.
  apply IH. exact Hn.
Qed.

Lemma getIssuer_never_returns_on_cycle_witness :
  getIssuer chainPlatform cyclicHeap 1000 (Some 0) None
  <> Ret ["app@1.0.0"; "b@2.0.0"].
Proof.
  apply (getIssuer_never_returns_on_cycle chainPlatform cyclicHeap 0).
  intros n. induction n as [|n IH]; [reflexivity|].
  simpl. simpl in IH. rewrite IH. reflexivity.
Defined.

Lemma firstOccurrences_constant (s : string) (l : list string) :
  (forall x, In x l -> x = s) ->
  firstOccurrences l = [] \/ firstOccurrences l = [s].
Proof.
  induction l as [|y l IH]; intros H; [auto|]. right.
  assert (y = s) as -> by (apply H; left; reflexivity).
  simpl. destruct IH as [->| ->]; [intros; apply H; right; assumption| |].
  - reflexivity.
  - simpl. rewrite String.eqb_refl. reflexivity.
Qed.

(** X9: the rendered path of a module whose issuer chain stays within
    one package is [~/] with no name in it: the only entry of the chain
    is the one that is dropped. *)
Theorem issuerPath_within_one_package (P : Platform)
  (heap : ModRef -> ModuleObj) (n fuel0 fuel : nat) (m : ModRef)
  (chain : list ModRef) (s : string) :
  issuerResource heap (heap m) <> None ->
  issuerChain heap n m = Some chain ->
  forallb (fun x => returns (ownerOf P heap fuel0 x)) chain = true ->
  (forall x, In x (chainNames P heap fuel0 chain) -> x = s) ->
  fuel0 + List.length chain < fuel ->
  issuerPathOf P heap fuel m = Ret (Some "~/").
Proof.
  intros Hiss Hchain Hret Hsame Hfuel. unfold issuerPathOf.
  destruct (issuerResource heap (heap m)); [|congruence].
  rewrite getIssuer_default,
    (getIssuer_chain P heap fuel0 n m chain fuel [] Hchain Hret Hfuel),
    fold_pushUnique_nil.
  destruct (firstOccurrences_constant s _ Hsame) as [-> | ->]; reflexivity.
Qed.

Lemma issuerPath_within_one_package_witness :
  issuerPathOf twoFilesPlatform twoFilesHeap 5 1 = Ret (Some "~/").
Proof.
  apply (issuerPath_within_one_package twoFilesPlatform twoFilesHeap 1 1 5 1
           [1; 0] "app@1.0.0").
  - discriminate.
  - reflexivity.
  - reflexivity.
  - simpl. intuition.
  - simpl. lia.
Defined.

(** ** The aggregation loop *)

Lemma foldM_app {A S : Type} (body : S -> A -> result S) (a b : list A)
  (s : S) :
  foldM body (a ++ b) s = (s' <- foldM body a s ;; foldM body b s').
Proof.
  revert s. induction a as [|x a IH]; intros s; simpl; [reflexivity|].
  destruct (body s x); simpl; auto.
Qed.

(** X10: a module without resource, or whose resource lies in no named
    package, contributes nothing: leaving it out of the list does not
    change the result of the pass. *)
Theorem aggregate_skips_unresolved (P : Platform)
  (heap : ModRef -> ModuleObj) (fuel : nat) (context : string)
  (pre post : list ModRef) (m : ModRef) :
  contribution P heap fuel context m = Ret None ->
  aggregate P heap fuel context (pre ++ m :: post)
  = aggregate P heap fuel context (pre ++ post).
Proof.
  intros H. unfold aggregate. rewrite !foldM_app.
  destruct (foldM (forEachModule P heap fuel context) pre []) as [s| |];
    simpl; try reflexivity.
  rewrite forEachModule_contribution, H. reflexivity.
Qed.

Lemma aggregate_skips_unresolved_witness :
  aggregate dupPlatform dupHeap 5 "/app" ([0; 1] ++ 7 :: [2; 3; 4])
  = aggregate dupPlatform dupHeap 5 "/app" ([0; 1] ++ [2; 3; 4]).
Proof.
  apply (aggregate_skips_unresolved dupPlatform dupHeap 5 "/app" [0; 1]
           [2; 3; 4] 7).
  reflexivity.
Defined.

Lemma setOwn_same {V : Type} (o : list (string * V)) (k : string) (v : V) :
  getOwn o k = Some v -> setOwn o k v = o.
Proof.
  induction o as [|[k' w] o IH]; simpl; [discriminate|].
  destruct (String.eqb_spec k' k) as [->|Hne].
  - intros H. injection H as ->. reflexivity.
  - intros H. rewrite (IH H). reflexivity.
Qed.

Lemma updateVersion_same (v : string) (f : Instance -> Instance)
  (l : list Instance) (i : Instance) :
  findVersion v l = Some i -> f i = i -> updateVersion v f l = l.
Proof.
  unfold findVersion. induction l as [|j l IH]; simpl; [discriminate|].
  destruct (String.eqb (entry_version j) v).
  - intros H Hf. injection H as ->. rewrite Hf. reflexivity.
  - intros H Hf. rewrite (IH H Hf). reflexivity.
Qed.

Lemma addIssuerPath_present (p : option string) (i : Instance) :
  (forall x, truthy p = Some x -> In x (entry_issuerPaths i)) ->
  addIssuerPath p i = i.
Proof.
  intros H. unfold addIssuerPath. destruct (truthy p) as [x|]; [|reflexivity].
  specialize (H x eq_refl). apply notIn_false in H. rewrite H. reflexivity.
Qed.

(** A module the pass has already met leaves the map as it is. *)
Lemma forEachModule_absorbed (P : Platform) (heap : ModRef -> ModuleObj)
  (fuel : nat) (context : string) (pre mid : list ModRef) (m : ModRef)
  (s : list (string * list Instance)) :
  foldM (forEachModule P heap fuel context) (pre ++ m :: mid) [] = Ret s ->
  forEachModule P heap fuel context s m = Ret s.
Proof.
  intros H.
  destruct (aggregate_contributions P heap fuel context _ [] s
              ownKeysOnly_nil H) as (cs & Hcs & -> & _).
  destruct (contributions_app P heap fuel context pre (m :: mid) cs Hcs)
    as (cs1 & cs2' & _ & Hpost & ->).
  rewrite forEachModule_contribution. simpl in Hpost.
  destruct (contribution P heap fuel context m) as [[c|]| |];
    simpl in *; try discriminate; [|reflexivity].
  destruct (contributions P heap fuel context mid) as [cs2| |];
    simpl in Hpost; try discriminate. injection Hpost as <-.
  destruct (build_contribution cs1 cs2 c)
    as (instances & i & Hget & Hin & Hver & Hpaths & _).
  destruct (build_invariants (cs1 ++ c :: cs2) [] (NoDup_nil _)
              distinctVersions_nil distinctIssuerPaths_nil)
    as (_ & Hdv & _).
  set (store := fold_left insertContribution (cs1 ++ c :: cs2) []) in *.
  unfold slotOf. rewrite Hget. f_equal.
  unfold insertContribution, instancesOf. rewrite Hget.
  assert (Hfind : findVersion (c_version c) instances = Some i).
  { rewrite <- Hver. apply findVersion_In; [|exact Hin].
    exact (Hdv _ _ Hget). }
  unfold insertInstance. rewrite Hfind.
  rewrite (updateVersion_same _ _ _ i Hfind
             (addIssuerPath_present _ _ Hpaths)).
  apply setOwn_same. exact Hget.
Qed.

(** X11: a module that occurs a second time in the list changes
    nothing: the pass gives the same result as without the second
    occurrence. *)
Theorem aggregate_repeated_module (P : Platform)
  (heap : ModRef -> ModuleObj) (fuel : nat) (context : string)
  (pre mid post : list ModRef) (m : ModRef) :
  aggregate P heap fuel context (pre ++ m :: mid ++ m :: post)
  = aggregate P heap fuel context (pre ++ m :: mid ++ post).
Proof.
  unfold aggregate.
  change (pre ++ m :: mid ++ m :: post)
    with (pre ++ (m :: mid) ++ m :: post).
  change (pre ++ m :: mid ++ post) with (pre ++ (m :: mid) ++ post).
  rewrite !app_assoc, (foldM_app _ ((pre ++ m :: mid)) (m :: post)),
    (foldM_app _ (pre ++ m :: mid) post).
  destruct (foldM (forEachModule P heap fuel context) (pre ++ m :: mid) [])
    as [s| |] eqn:E; simpl; try reflexivity.
  rewrite (forEachModule_absorbed P heap fuel context pre mid m s E).
  reflexivity.
Qed.

Lemma setOwn_keys_pushUnique {V : Type} (o : list (string * V)) (k : string)
  (v : V) :
  map fst (setOwn o k v) = pushUnique (map fst o) k.
Proof.
  rewrite setOwn_keys. unfold pushUnique.
  destruct (getOwn o k) eqn:E.
  - assert (H : notIn k (map fst o) = false).
    { apply notIn_false. apply getOwn_In in E.
      apply (in_map fst) in E. exact E. }
    rewrite H. reflexivity.
  - apply getOwn_None, notIn_true in E. rewrite E. reflexivity.
Qed.

Lemma build_keys_order (cs : list Contribution) :
  forall store,
    map fst (fold_left insertContribution cs store)
    = fold_left pushUnique (map c_name cs) (map fst store).
Proof.
  induction cs as [|c cs IH]; intros store; simpl; [reflexivity|].
  rewrite IH. unfold insertContribution at 1.
  rewrite setOwn_keys_pushUnique. reflexivity.
Qed.

Lemma build_versions_order (cs : list Contribution) (name : string) :
  forall store,
    map entry_version
        (instancesOf (fold_left insertContribution cs store) name)
    = fold_left pushUnique
        (map c_version (filter (fun c => String.eqb (c_name c) name) cs))
        (map entry_version (instancesOf store name)).
Proof.
  induction cs as [|c cs IH]; intros store; simpl; [reflexivity|].
  rewrite IH, instancesOf_insert.
  destruct (String.eqb (c_name c) name); simpl; [|reflexivity].
  rewrite insertInstance_versions. unfold pushUnique, notIn.
  destruct (existsb _ _); reflexivity.
Qed.

Lemma map_fst_filter {V : Type} (q : string -> bool)
  (l : list (string * V)) :
  map fst (filter (fun p => q (fst p)) l) = filter q (map fst l).
Proof.
  induction l as [|[k v] l IH]; simpl; [reflexivity|].
  destruct (q k); simpl; rewrite IH; reflexivity.
Qed.

Lemma indexLe_trans (a b c : string) :
  indexLe a b -> indexLe b c -> indexLe a c.
Proof.
  unfold indexLe.
  destruct (arrayIndex a), (arrayIndex b), (arrayIndex c); try tauto. lia.
Qed.

Lemma insertBy_index_sorted {V : Type} (x : string * V)
  (l : list (string * V)) :
  isArrayIndex (fst x) = true ->
  Forall (fun p => isArrayIndex (fst p) = true) l ->
  StronglySorted (fun p q => indexLe (fst p) (fst q)) l ->
  StronglySorted (fun p q => indexLe (fst p) (fst q))
                 (insertBy (indexBefore arrayIndex) x l).
Proof.
  intros Hx Hall Hs. induction Hs as [|y l Hs IH Hy]; simpl.
  - repeat constructor.
  - inversion Hall as [|? ? Hyi Hl]; subst.
    unfold indexBefore at 1. unfold isArrayIndex in Hx, Hyi.
    destruct (arrayIndex (fst x)) as [a|] eqn:Ea; [|discriminate].
    destruct (arrayIndex (fst y)) as [b|] eqn:Eb; [|discriminate].
    destruct (N.ltb_spec a b) as [Hlt|Hge].
    + constructor; [constructor; assumption|].
      assert (Hxy : indexLe (fst x) (fst y))
        by (unfold indexLe; rewrite Ea, Eb; lia).
      constructor; [exact Hxy|].
      eapply Forall_impl; [|exact Hy].
      intros z Hz. exact (indexLe_trans _ _ _ Hxy Hz).
    + constructor; [apply IH; exact Hl|].
      apply (Permutation_Forall
               (Permutation_sym (insertBy_perm (indexBefore arrayIndex) x l))).
      constructor; [|exact Hy].
      unfold indexLe. rewrite Ea, Eb. lia.
Qed.

Lemma arraySort_index_sorted {V : Type} (l : list (string * V)) :
  Forall (fun p => isArrayIndex (fst p) = true) l ->
  StronglySorted (fun p q => indexLe (fst p) (fst q))
                 (arraySort (indexBefore arrayIndex) l).
Proof.
  induction 1 as [|x l Hx Hl IH]; simpl; [constructor|].
  apply insertBy_index_sorted; [exact Hx| |exact IH].
  apply (Permutation_Forall
           (Permutation_sym (arraySort_perm (indexBefore arrayIndex) l))).
  exact Hl.
Qed.

Lemma sorted_map_fst {V : Type} (R : string -> string -> Prop)
  (l : list (string * V)) :
  StronglySorted (fun p q => R (fst p) (fst q)) l ->
  StronglySorted R (map fst l).
Proof.
  induction 1 as [|a l Hs IH Ha]; simpl; constructor; [exact IH|].
  apply Forall_map. exact Ha.
Qed.

(** How the loop over a map meets its names: the array indices first,
    in ascending order, then the other names as the map lists them. *)
Lemma enumeratedNames_order (store : list (string * list Instance)) :
  exists indices,
    enumeratedNames store
    = indices ++ filter (fun n => negb (isArrayIndex n)) (map fst store)
    /\ Permutation indices (filter isArrayIndex (map fst store))
    /\ StronglySorted indexLe indices.
Proof.
  exists (map fst (arraySort (indexBefore arrayIndex)
                     (filter (isIndex arrayIndex) store))).
  split; [|split].
  - unfold enumeratedNames, ownPropertyOrder. rewrite map_app. f_equal.
    apply (map_fst_filter (fun n => negb (isArrayIndex n))).
  - rewrite <- (map_fst_filter isArrayIndex).
    apply Permutation_map, arraySort_perm.
  - apply sorted_map_fst, arraySort_index_sorted.
    apply Forall_forall. intros p Hp. apply filter_In in Hp.
    destruct Hp as [_ Hp]. exact Hp.
Qed.

(** X12: the classification loop meets the package names that are array
    indices first, in ascending numeric order, and then the other
    names in the order in which the pass first met them; under each
    name the versions are listed in the order in which the pass first
    met them. *)
Theorem aggregate_enumeration_order (P : Platform)
  (heap : ModRef -> ModuleObj) (fuel : nat) (context : string)
  (mods : list ModRef) (store : list (string * list Instance)) :
  aggregate P heap fuel context mods = Ret store ->
  exists cs,
    contributions P heap fuel context mods = Ret cs /\
    (exists indices,
       enumeratedNames store
       = indices ++ filter (fun n => negb (isArrayIndex n))
                           (firstOccurrences (map c_name cs))
       /\ Permutation indices
            (filter isArrayIndex (firstOccurrences (map c_name cs)))
       /\ StronglySorted indexLe indices) /\
    forall name,
      map entry_version (instancesOf store name)
      = firstOccurrences
          (map c_version
               (filter (fun c => String.eqb (c_name c) name) cs)).
Proof.
  intros H. unfold aggregate in H.
  destruct (aggregate_contributions P heap fuel context mods [] store
              ownKeysOnly_nil H) as (cs & Hcs & -> & _).
  exists cs. split; [exact Hcs|]. split.
  - destruct (enumeratedNames_order (fold_left insertContribution cs []))
      as (indices & Henum & Hperm & Hsorted).
    rewrite build_keys_order in Henum, Hperm. simpl in Henum, Hperm.
    rewrite fold_pushUnique_nil in Henum, Hperm.
    exists indices. auto.
  - intros name. rewrite build_versions_order. apply fold_pushUnique_nil.
Qed.

Lemma aggregate_enumeration_order_witness :
  exists cs,
    contributions indexNamePlatform indexNameHeap 5 "/app" [0; 1; 2]
    = Ret cs /\
    (exists indices,
       enumeratedNames indexNameStore
       = indices ++ filter (fun n => negb (isArrayIndex n))
                           (firstOccurrences (map c_name cs))
       /\ Permutation indices
            (filter isArrayIndex (firstOccurrences (map c_name cs)))
       /\ StronglySorted indexLe indices) /\
    forall name,
      map entry_version (instancesOf indexNameStore name)
      = firstOccurrences
          (map c_version
               (filter (fun c => String.eqb (c_name c) name) cs)).
Proof.
  apply (aggregate_enumeration_order indexNamePlatform indexNameHeap 5
           "/app" [0; 1; 2] indexNameStore).
  reflexivity.
Defined.

(** The package [9] was met last and is enumerated first. *)
Example index_names_enumerated_first :
  map fst indexNameStore = ["app"; "b"; "9"]
  /\ enumeratedNames indexNameStore = ["9"; "app"; "b"].
Proof. split; reflexivity. Qed.

(** X13: no package name is recorded with an empty instance list. *)
Theorem aggregate_instances_nonempty (P : Platform)
  (heap : ModRef -> ModuleObj) (fuel : nat) (context : string)
  (mods : list ModRef) (store : list (string * list Instance))
  (name : string) (instances : list Instance) :
  aggregate P heap fuel context mods = Ret store ->
  In (name, instances) store ->
  instances <> [].
Proof.
  intros H Hin.
  destruct (aggregate_NoDup_keys P heap fuel context mods store H)
    as (Hnd & _ & _).
  unfold aggregate in H.
  destruct (aggregate_contributions P heap fuel context mods [] store
              ownKeysOnly_nil H) as (cs & Hcs & -> & _).
  pose proof (In_getOwn _ _ _ Hnd Hin) as Hget.
  pose proof (in_map fst _ _ Hin) as Hkey. simpl in Hkey.
  apply build_keys in Hkey. destruct Hkey as [[]|(c & Hc & Hname)].
  assert (Hp : instanceOf (fold_left insertContribution cs []) name
                 (c_version c) <> None).
  { apply build_present. right. exists c. auto. }
  unfold instanceOf, instancesOf in Hp. rewrite Hget in Hp.
  intros ->. apply Hp. reflexivity.
Qed.

Lemma aggregate_instances_nonempty_witness :
  instancesOf dupStore "c" <> [].
Proof.
  apply (aggregate_instances_nonempty dupPlatform dupHeap 5 "/app"
           [0; 1; 2; 3; 4] dupStore "c").
  - reflexivity.
  - simpl. auto.
Defined.

Lemma slotOf_inherits (store : list (string * list Instance))
  (name : string) :
  ownKeysOnly store ->
  slotOf store name
  = if inheritsProperty name then Inherited
    else Arr (instancesOf store name).
Proof.
  intros Hown. unfold slotOf, instancesOf.
  destruct (getOwn store name) eqn:E; [|reflexivity].
  rewrite Hown; [reflexivity|].
  apply getOwn_In in E. apply (in_map fst) in E. exact E.
Qed.

Lemma foldM_inherited (P : Platform) (heap : ModRef -> ModuleObj)
  (fuel : nat) (context : string) (mods : list ModRef) :
  forall store0 cs,
    ownKeysOnly store0 ->
    contributions P heap fuel context mods = Ret cs ->
    foldM (forEachModule P heap fuel context) mods store0
    = if existsb (fun c => inheritsProperty (c_name c)) cs
      then Throw (TypeError "modules[pkg.name].push is not a function")
      else Ret (fold_left insertContribution cs store0).
Proof.
  induction mods as [|m mods IH]; intros store0 cs Hown H; simpl in *.
  - injection H as <-. reflexivity.
  - rewrite forEachModule_contribution.
    destruct (contribution P heap fuel context m) as [[c|]| |];
      simpl in *; try discriminate;
      destruct (contributions P heap fuel context mods) as [cs'| |];
      simpl in H; try discriminate; injection H as <-.
    + rewrite (slotOf_inherits store0 (c_name c) Hown). simpl.
      destruct (inheritsProperty (c_name c)) eqn:Hc; simpl; [reflexivity|].
      apply IH; [|reflexivity].
      apply insertContribution_ownKeysOnly; assumption.
    + apply IH; auto.
Qed.

(** X14: when every module of the list can be resolved, the pass throws
    exactly if one of them belongs to a package named like a property
    that every object inherits ([constructor], [toString], ...), and
    otherwise returns the map built from the contributions. *)
Theorem aggregate_throws_on_inherited_name (P : Platform)
  (heap : ModRef -> ModuleObj) (fuel : nat) (context : string)
  (mods : list ModRef) (cs : list Contribution) :
  contributions P heap fuel context mods = Ret cs ->
  aggregate P heap fuel context mods
  = if existsb (fun c => inheritsProperty (c_name c)) cs
    then Throw (TypeError "modules[pkg.name].push is not a function")
    else Ret (fold_left insertContribution cs []).
Proof.
  intros H. unfold aggregate.
  apply foldM_inherited; [exact ownKeysOnly_nil | exact H].
Qed.

Lemma aggregate_throws_on_inherited_name_witness :
  aggregate constructorPlatform constructorHeap 5 "/app" [0]
  = Throw (TypeError "modules[pkg.name].push is not a function").
Proof.
  apply (aggregate_throws_on_inherited_name constructorPlatform
           constructorHeap 5 "/app" [0]
           [ {| c_name := "constructor"; c_version := "1.0.0";
                c_path := "./~/constructor"; c_issuer := None;
                c_issuerPath := None |} ]).
  reflexivity.
Defined.

(** ** The classification loop and the handler *)

Lemma classifyName_single (P : Platform) (strict : bool)
  (exclude : option (NamedInstance -> bool)) (name : string)
  (instances : list Instance) :
  List.length instances <= 1 ->
  classifyName P strict exclude name instances = Ret None.
Proof.
  intros H. unfold classifyName.
  destruct (Nat.leb_spec (List.length instances) 1); [reflexivity | lia].
Qed.

Lemma conclude_nothing (P : Platform) (options : Options)
  (compilation : Compilation) :
  conclude P options compilation [] = calledBack compilation.
Proof.
  unfold conclude, calledBack. simpl. destruct (emitError options); reflexivity.
Qed.

Lemma selectedBy_nothing (P : Platform) (strict : bool)
  (exclude : option (NamedInstance -> bool))
  (props : list (string * list Instance)) :
  (forall name instances,
     In (name, instances) props ->
     classifyName P strict exclude name instances = Ret None) ->
  flat_map (selectedBy P strict exclude) props = [].
Proof.
  induction props as [|[n l] props IH]; intros H; simpl; [reflexivity|].
  unfold selectedBy at 1. simpl. rewrite (H n l (or_introl eq_refl)).
  simpl. apply IH. intros; apply H; right; assumption.
Qed.

(** X15: when no package name has more than one instance the handler
    completes, pushes nothing and calls back once, whatever the
    options. *)
Theorem no_duplicates_no_diagnostics (P : Platform)
  (heap : ModRef -> ModuleObj) (fuel : nat) (options : Options)
  (compilation : Compilation) (store : list (string * list Instance)) :
  aggregate P heap fuel (context compilation) (modules compilation)
  = Ret store ->
  (forall name instances,
     In (name, instances) store -> List.length instances <= 1) ->
  emit P heap fuel options compilation = Ret (calledBack compilation).
Proof.
  intros Hagg Hone.
  destruct (aggregate_NoDup_keys P heap fuel _ _ store Hagg)
    as (Hkeys & _ & _).
  assert (Hnone : forall name instances,
             In (name, instances) store ->
             classifyName P (strict options) (exclude options) name instances
             = Ret None).
  { intros name instances Hin. apply classifyName_single. eauto. }
  rewrite emit_conclude, Hagg. simpl.
  rewrite (classify_returns P _ _ store Hkeys).
  - rewrite selectedBy_nothing.
    + simpl. change (report []) with (@nil (string * list Instance)).
      rewrite conclude_nothing. reflexivity.
    + intros name instances Hin. apply Hnone.
      apply ownPropertyOrder_In in Hin. exact Hin.
  - intros name instances Hin. rewrite (Hnone _ _ Hin). reflexivity.
Qed.

Lemma no_duplicates_no_diagnostics_witness :
  emit chainPlatform chainHeap 5 relaxedOptions
       {| context := "/app"; modules := [0; 1; 2]; errors := ["earlier"];
          warnings := []; callbacks := 0 |}
  = Ret {| context := "/app"; modules := [0; 1; 2]; errors := ["earlier"];
           warnings := []; callbacks := 1 |}.
Proof.
  apply (no_duplicates_no_diagnostics chainPlatform chainHeap 5
           relaxedOptions
           {| context := "/app"; modules := [0; 1; 2];
              errors := ["earlier"]; warnings := []; callbacks := 0 |}
           chainStore).
  - reflexivity.
  - intros name instances Hin. simpl in Hin.
    destruct Hin as [H|[H|[H|[]]]]; injection H as <- <-; simpl; lia.
Defined.

Lemma excludeFilter_Some (exclude : option (NamedInstance -> bool))
  (name : string) (f0 f : list Instance) :
  excludeFilter exclude name f0 = Some f ->
  2 <= List.length f0 ->
  2 <= List.length f /\ incl f f0 /\
  (NoDup (map entry_version f0) -> NoDup (map entry_version f)).
Proof.
  unfold excludeFilter. destruct exclude as [ex|].
  - destruct (Nat.leb_spec (List.length
        (filter (fun instance =>
                   negb (ex {| ni_name := name; ni_instance := instance |}))
                f0)) 1) as [Hle|Hgt]; [discriminate|].
    intros H _. injection H as <-. split; [lia|]. split.
    + intros i Hi. apply filter_In in Hi. tauto.
    + apply NoDup_map_filter.
  - intros H Hlen. injection H as <-. auto using incl_refl.
Qed.

(** What a turn of the loop selects, in either mode and under any
    exclusion: two or more of the instances of the name. *)
Lemma classifyName_Some (P : Platform) (strict : bool)
  (exclude : option (NamedInstance -> bool)) (name : string)
  (instances f : list Instance) :
  NoDup (map entry_version instances) ->
  classifyName P strict exclude name instances = Ret (Some f) ->
  2 <= List.length f /\ incl f instances /\ NoDup (map entry_version f).
Proof.
  intros Hnd H. rewrite classifyName_factor in H.
  destruct (classifyName P strict None name instances) as [[f0|]| |] eqn:E;
    simpl in H; try discriminate.
  injection H as H.
  assert (H0 : 2 <= List.length f0 /\ incl f0 instances /\
               NoDup (map entry_version f0)).
  { destruct strict.
    - rewrite classifyName_strict in E.
      destruct (Nat.leb_spec (List.length instances) 1); [discriminate|].
      injection E as <-. split; [lia|]. auto using incl_refl.
    - destruct (Nat.leb_spec (List.length instances) 1) as [Hle|Hgt].
      + rewrite (classifyName_single P false None name instances Hle) in E.
        discriminate.
      + destruct (classifyName_relaxed P name instances _ Hgt E) as [Hv Hr].
        destruct (Nat.leb_spec (List.length (relaxedFiltered P instances)) 1);
          [discriminate|].
        injection Hr as ->.
        destruct (relaxedFiltered_spec P instances Hv)
          as (Hmem & (rest & Hperm) & _).
        split; [lia|]. split.
        * intros i Hi. apply Hmem in Hi. tauto.
        * apply (Permutation_map entry_version), Permutation_sym in Hperm.
          apply (Permutation_NoDup Hperm) in Hnd. rewrite map_app in Hnd.
          exact (NoDup_app_remove_r _ _ Hnd). }
  destruct H0 as (Hlen0 & Hincl0 & Hnd0).
  destruct (excludeFilter_Some exclude name f0 f H Hlen0)
    as (Hlen & Hincl & Hndf).
  split; [exact Hlen|]. split; [|auto].
  eapply incl_tran; eauto.
Qed.

Lemma classify_In (P : Platform) (strict : bool)
  (exclude : option (NamedInstance -> bool))
  (store duplicates : list (string * list Instance)) (name : string)
  (f : list Instance) :
  NoDup (map fst store) ->
  classify P strict exclude store = Ret duplicates ->
  In (name, f) duplicates ->
  exists instances,
    getOwn store name = Some instances /\
    classifyName P strict exclude name instances = Ret (Some f).
Proof.
  intros Hnd Hcl Hin.
  destruct (classify_Ret P strict exclude store _ Hnd Hcl)
    as (_ & Hdnd & Hdup).
  apply (In_getOwn _ _ _ Hdnd) in Hin. rewrite Hdup in Hin.
  unfold classified in Hin.
  destruct (getOwn store name) as [instances|]; [|discriminate].
  exists instances. split; [reflexivity|].
  destruct (classifyName P strict exclude name instances) as [[f'|]| |];
    try discriminate.
  injection Hin as ->. reflexivity.
Qed.

(** X16: in either mode and under any exclusion predicate, what is
    stored for a name in [duplicates] is a list of two or more
    instances, all of them instances recorded for that name, with
    pairwise distinct versions. *)
Theorem duplicates_hold_two_or_more (P : Platform)
  (heap : ModRef -> ModuleObj) (fuel : nat) (context : string)
  (mods : list ModRef) (strict : bool)
  (exclude : option (NamedInstance -> bool))
  (store duplicates : list (string * list Instance)) (name : string)
  (f : list Instance) :
  aggregate P heap fuel context mods = Ret store ->
  classify P strict exclude store = Ret duplicates ->
  In (name, f) duplicates ->
  2 <= List.length f
  /\ NoDup (map entry_version f)
  /\ exists instances,
       getOwn store name = Some instances /\ incl f instances.
Proof.
  intros Hagg Hcl Hin.
  destruct (aggregate_NoDup_keys P heap fuel _ _ store Hagg)
    as (Hkeys & Hvers & _).
  destruct (classify_In P strict exclude store duplicates name f Hkeys Hcl
              Hin) as (instances & Hget & Hname).
  destruct (classifyName_Some P strict exclude name instances f
              (Hvers _ _ Hget) Hname) as (Hlen & Hincl & Hnd).
  split; [exact Hlen|]. split; [exact Hnd|]. eauto.
Qed.

Lemma duplicates_hold_two_or_more_witness :
  2 <= List.length [b_1_0_0; b_1_5_0]
  /\ NoDup (map entry_version [b_1_0_0; b_1_5_0])
  /\ exists instances,
       getOwn relaxedStore "b" = Some instances /\
       incl [b_1_0_0; b_1_5_0] instances.
Proof.
  apply (duplicates_hold_two_or_more relaxedPlatform relaxedHeap 5 "/app"
           [0; 1; 2; 3] false None relaxedStore [("b", [b_1_0_0; b_1_5_0])]
           "b").
  - reflexivity.
  - reflexivity.
  - left. reflexivity.
Defined.

(** X17: in either mode and under any exclusion predicate, the report
    lists the package names in strictly ascending order and under each
    name the instances in strictly ascending order of their version
    strings. *)
Theorem report_sorted_in_every_mode (P : Platform)
  (heap : ModRef -> ModuleObj) (fuel : nat) (context : string)
  (mods : list ModRef) (strict : bool)
  (exclude : option (NamedInstance -> bool))
  (store duplicates : list (string * list Instance)) :
  aggregate P heap fuel context mods = Ret store ->
  classify P strict exclude store = Ret duplicates ->
  StronglySorted strLt (map fst (report duplicates))
  /\ forall name reported,
       In (name, reported) (report duplicates) ->
       StronglySorted versionLt reported.
Proof.
  intros Hagg Hcl.
  destruct (aggregate_NoDup_keys P heap fuel _ _ store Hagg)
    as (Hkeys & Hvers & _).
  destruct (classify_Ret P strict exclude store _ Hkeys Hcl)
    as (_ & Hdnd & _).
  split; [apply report_names_sorted; exact Hdnd|].
  intros name reported Hin.
  destruct (report_In _ _ _ Hin) as (f & Hf & ->).
  apply getOwn_In in Hf.
  destruct (classify_In P strict exclude store duplicates name f Hkeys Hcl
              Hf) as (instances & Hget & Hname).
  destruct (classifyName_Some P strict exclude name instances f
              (Hvers _ _ Hget) Hname) as (_ & _ & Hnd).
  apply (arraySort_sorted Instance entry_version). exact Hnd.
Qed.

Lemma report_sorted_in_every_mode_witness :
  StronglySorted strLt (map fst (report [("b", [b_1_0_0; b_1_5_0])]))
  /\ forall name reported,
       In (name, reported) (report [("b", [b_1_0_0; b_1_5_0])]) ->
       StronglySorted versionLt reported.
Proof.
  apply (report_sorted_in_every_mode relaxedPlatform relaxedHeap 5 "/app"
           [0; 1; 2; 3] false None relaxedStore).
  - reflexivity.
  - reflexivity.
Defined.

Lemma classifyName_strict_returns (P : Platform)
  (exclude : option (NamedInstance -> bool)) (name : string)
  (instances : list Instance) :
  classifyName P true exclude name instances
  = Ret (if (List.length instances <=? 1)%nat then None
         else excludeFilter exclude name instances).
Proof.
  unfold classifyName. destruct (_ <=? 1)%nat; reflexivity.
Qed.

(** X18: in strict mode the handler always completes once the
    aggregation pass has, under any exclusion predicate: no version
    string is ever parsed. *)
Theorem strict_mode_always_completes (P : Platform)
  (heap : ModRef -> ModuleObj) (fuel : nat) (options : Options)
  (compilation : Compilation) (store : list (string * list Instance)) :
  strict options = true ->
  aggregate P heap fuel (context compilation) (modules compilation)
  = Ret store ->
  exists duplicates,
    classify P true (exclude options) store = Ret duplicates /\
    emit P heap fuel options compilation
    = Ret (conclude P options compilation (report duplicates)).
Proof.
  intros Hstrict Hagg.
  destruct (aggregate_NoDup_keys P heap fuel _ _ store Hagg)
    as (Hkeys & _ & _).
  eexists. split.
  - apply (classify_returns P true (exclude options) store Hkeys).
    intros name instances _. rewrite classifyName_strict_returns.
    reflexivity.
  - rewrite emit_conclude, Hagg, Hstrict. simpl.
    rewrite (classify_returns P true (exclude options) store Hkeys).
    + reflexivity.
    + intros name instances _. rewrite classifyName_strict_returns.
      reflexivity.
Qed.

Lemma strict_mode_always_completes_witness :
  exists duplicates,
    classify badVersionPlatform true (Some (excludeVersion "2.0.0")) badVersionStore
    = Ret duplicates /\
    emit badVersionPlatform badVersionHeap 5
         {| verbose := false; showHelp := true; emitError := false;
            exclude := Some (excludeVersion "2.0.0"); strict := true |}
         {| context := "/app"; modules := [0; 1; 2]; errors := [];
            warnings := []; callbacks := 0 |}
    = Ret (conclude badVersionPlatform
             {| verbose := false; showHelp := true; emitError := false;
                exclude := Some (excludeVersion "2.0.0"); strict := true |}
             {| context := "/app"; modules := [0; 1; 2]; errors := [];
                warnings := []; callbacks := 0 |}
             (report duplicates)).
Proof.
  apply (strict_mode_always_completes badVersionPlatform badVersionHeap 5
           {| verbose := false; showHelp := true; emitError := false;
              exclude := Some (excludeVersion "2.0.0"); strict := true |}
           {| context := "/app"; modules := [0; 1; 2]; errors := [];
              warnings := []; callbacks := 0 |}
           badVersionStore).
  - reflexivity.
  - reflexivity.
Defined.

Lemma groupByMajor_throws (P : Platform) (l : list Instance) :
  validVersions P l = false ->
  forall acc,
    foldM (groupStep P) l acc = Throw (TypeError "Invalid Version").
Proof.
  induction l as [|i l IH]; simpl; [discriminate|].
  intros Hv acc. unfold groupStep at 1.
  destruct (semver_major P (entry_version i)) as [k|]; simpl;
    [|reflexivity].
  apply IH. exact Hv.
Qed.

(** A turn of the loop in relaxed mode returns when the name has at most
    one instance or versions that all parse, and throws otherwise. *)
Lemma classifyName_relaxed_outcome (P : Platform)
  (exclude : option (NamedInstance -> bool)) (name : string)
  (instances : list Instance) :
  if (List.length instances <=? 1)%nat || validVersions P instances
  then returns (classifyName P false exclude name instances) = true
  else classifyName P false exclude name instances
       = Throw (TypeError "Invalid Version").
Proof.
  unfold classifyName.
  destruct (List.length instances <=? 1)%nat; cbn [orb];
    [reflexivity|].
  destruct (validVersions P instances) eqn:Hv.
  - destruct (policyFilter_relaxed P instances) as [Hret _].
    rewrite (Hret Hv). cbn [bind].
    destruct (_ <=? 1)%nat; reflexivity.
  - unfold policyFilter, groupByMajor.
    rewrite (groupByMajor_throws P instances Hv). reflexivity.
Qed.

Lemma classify_fails (P : Platform) (strict : bool)
  (exclude : option (NamedInstance -> bool)) (e : error)
  (props : list (string * list Instance)) :
  (forall p, In p props ->
     returns (classifyName P strict exclude (fst p) (snd p)) = true \/
     classifyName P strict exclude (fst p) (snd p) = Throw e) ->
  forallb (fun p => returns (classifyName P strict exclude (fst p) (snd p)))
          props = false ->
  forall acc, foldM (classifyStep P strict exclude) props acc = Throw e.
Proof.
  induction props as [|[n l] props IH]; simpl; [discriminate|].
  intros Hall Hsome acc.
  destruct (Hall (n, l) (or_introl eq_refl)) as [Hret|Hthrow];
    simpl in *.
  - rewrite Hret in Hsome. simpl in Hsome.
    destruct (classifyName P strict exclude n l) as [r| |];
      try discriminate.
    simpl. destruct r; simpl; apply IH; auto.
  - rewrite Hthrow. reflexivity.
Qed.

Lemma forallb_ownPropertyOrder {K V : Type} (idx : K -> option N)
  (f : K * V -> bool) (o : list (K * V)) :
  forallb f (ownPropertyOrder idx o) = forallb f o.
Proof.
  destruct (forallb f o) eqn:E.
  - apply forallb_forall. intros p Hp. apply ownPropertyOrder_In in Hp.
    rewrite forallb_forall in E. auto.
  - destruct (forallb f (ownPropertyOrder idx o)) eqn:E'; [|reflexivity].
    rewrite <- E. symmetry. apply forallb_forall. intros p Hp.
    rewrite forallb_forall in E'. apply E'. apply ownPropertyOrder_In.
    exact Hp.
Qed.

(** X19: in relaxed mode, once the aggregation pass has completed, the
    handler completes exactly when every package name with two or more
    instances has only versions that [semver.major] accepts; otherwise
    it throws the parser's error, nothing is pushed and the callback is
    not called. *)
Theorem relaxed_mode_completes_iff_versions_parse (P : Platform)
  (heap : ModRef -> ModuleObj) (fuel : nat) (options : Options)
  (compilation : Compilation) (store : list (string * list Instance)) :
  strict options = false ->
  aggregate P heap fuel (context compilation) (modules compilation)
  = Ret store ->
  emit P heap fuel options compilation
  = if relaxedSafe P store
    then Ret (conclude P options compilation
                (report (flat_map (selectedBy P false (exclude options))
                                  (ownPropertyOrder arrayIndex store))))
    else Throw (TypeError "Invalid Version").
Proof.
  intros Hstrict Hagg.
  destruct (aggregate_NoDup_keys P heap fuel _ _ store Hagg)
    as (Hkeys & _ & _).
  rewrite emit_conclude, Hagg, Hstrict. simpl.
  destruct (relaxedSafe P store) eqn:Hsafe.
  - rewrite (classify_returns P false (exclude options) store Hkeys);
      [reflexivity|].
    intros name instances Hin. unfold relaxedSafe in Hsafe.
    rewrite forallb_forall in Hsafe. specialize (Hsafe _ Hin).
    simpl in Hsafe.
    pose proof (classifyName_relaxed_outcome P (exclude options) name
                  instances) as H.
    rewrite Hsafe in H. exact H.
  - unfold classify.
    rewrite (classify_fails P false (exclude options)
               (TypeError "Invalid Version")); [reflexivity| |].
    + intros [n l] _. simpl.
      pose proof (classifyName_relaxed_outcome P (exclude options) n l)
        as H.
      destruct (_ || _); auto.
    + rewrite forallb_ownPropertyOrder.
      unfold relaxedSafe in Hsafe.
      destruct (forallb (fun p => returns (classifyName P false
                   (exclude options) (fst p) (snd p))) store) eqn:E;
        [|reflexivity].
      rewrite <- Hsafe. symmetry. apply forallb_forall.
      intros [n l] Hin. rewrite forallb_forall in E.
      specialize (E _ Hin). simpl in *.
      pose proof (classifyName_relaxed_outcome P (exclude options) n l)
        as H.
      destruct (_ || _); [reflexivity|].
      rewrite H in E. discriminate.
Qed.

Lemma relaxed_mode_completes_iff_versions_parse_witness :
  emit badVersionPlatform badVersionHeap 5 relaxedOptions
       {| context := "/app"; modules := [0; 1; 2]; errors := [];
          warnings := []; callbacks := 0 |}
  = Throw (TypeError "Invalid Version").
Proof.
  apply (relaxed_mode_completes_iff_versions_parse badVersionPlatform
           badVersionHeap 5 relaxedOptions
           {| context := "/app"; modules := [0; 1; 2]; errors := [];
              warnings := []; callbacks := 0 |}
           badVersionStore).
  - reflexivity.
  - reflexivity.
Defined.

Lemma kept_incl (ex : NamedInstance -> bool) (name : string)
  (l l' : list Instance) :
  incl l l' -> incl (kept ex name l) (kept ex name l').
Proof.
  intros H i Hi. unfold kept in *. apply filter_In in Hi.
  apply filter_In. destruct Hi; auto.
Qed.

(** X20: relaxed mode reports no more than strict mode: under the same
    exclusion predicate, a name reported in relaxed mode is reported in
    strict mode too, with every instance the relaxed report lists. *)
Theorem relaxed_reports_within_strict (P : Platform)
  (heap : ModRef -> ModuleObj) (fuel : nat) (context : string)
  (mods : list ModRef) (exclude : option (NamedInstance -> bool))
  (store relaxed : list (string * list Instance)) (name : string)
  (f : list Instance) :
  aggregate P heap fuel context mods = Ret store ->
  classify P false exclude store = Ret relaxed ->
  In (name, f) relaxed ->
  exists strictly f',
    classify P true exclude store = Ret strictly /\
    In (name, f') strictly /\ incl f f'.
Proof.
  intros Hagg Hcl Hin.
  destruct (aggregate_NoDup_keys P heap fuel _ _ store Hagg)
    as (Hkeys & Hvers & _).
  destruct (classify_In P false exclude store relaxed name f Hkeys Hcl Hin)
    as (instances & Hget & Hname).
  assert (Hstrict : classify P true exclude store
                    = Ret (flat_map (selectedBy P true exclude)
                             (ownPropertyOrder arrayIndex store))).
  { apply (classify_returns P true exclude store Hkeys).
    intros n l _. rewrite classifyName_strict_returns. reflexivity. }
  destruct (classify_Ret P true exclude store _ Hkeys Hstrict)
    as (_ & _ & Hdup).
  assert (Hsel : exists f',
             classifyName P true exclude name instances = Ret (Some f') /\
             incl f f').
  { destruct (classifyName_Some P false exclude name instances f
                (Hvers _ _ Hget) Hname) as (Hlen & Hincl & Hnd).
    rewrite classifyName_strict_returns.
    assert (Hlen' : 2 <= List.length instances).
    { apply NoDup_map_inv in Hnd.
      pose proof (NoDup_incl_length Hnd Hincl). lia. }
    destruct (Nat.leb_spec (List.length instances) 1); [lia|].
    unfold excludeFilter. destruct exclude as [ex|].
    - rewrite classifyName_factor in Hname.
      destruct (classifyName P false None name instances) as [[f0|]| |]
        eqn:E; simpl in Hname; try discriminate.
      injection Hname as Hname.
      destruct (classifyName_Some P false None name instances f0
                  (Hvers _ _ Hget) E) as (_ & Hincl0 & _).
      unfold excludeFilter in Hname. fold (kept ex name f0) in Hname.
      destruct (Nat.leb_spec (List.length (kept ex name f0)) 1);
        [discriminate|].
      injection Hname as <-.
      fold (kept ex name instances).
      pose proof (kept_incl ex name f0 instances Hincl0) as Hk.
      assert (Hndk : NoDup (kept ex name f0)).
      { apply (NoDup_map_inv entry_version). exact Hnd. }
      pose proof (NoDup_incl_length Hndk Hk).
      destruct (Nat.leb_spec (List.length (kept ex name instances)) 1);
        [lia|].
      eauto.
    - eauto. }
  destruct Hsel as (f' & Hf' & Hincl).
  exists (flat_map (selectedBy P true exclude)
            (ownPropertyOrder arrayIndex store)), f'.
  split; [exact Hstrict|]. split; [|exact Hincl].
  apply getOwn_In. rewrite Hdup. unfold classified.
  rewrite Hget, Hf'. reflexivity.
Qed.

Lemma relaxed_reports_within_strict_witness :
  exists strictly f',
    classify relaxedPlatform true None relaxedStore = Ret strictly /\
    In ("b", f') strictly /\ incl [b_1_0_0; b_1_5_0] f'.
Proof.
  apply (relaxed_reports_within_strict relaxedPlatform relaxedHeap 5 "/app"
           [0; 1; 2; 3] None relaxedStore [("b", [b_1_0_0; b_1_5_0])]).
  - reflexivity.
  - reflexivity.
  - left. reflexivity.
Defined.

(** ** The messages *)

Lemma withFooter_length (footer : string) (messages : list string) :
  List.length (withFooter footer messages) = List.length messages.
Proof.
  induction messages as [|m [|m' rest] IH]; simpl in *; auto.
Qed.

Lemma pushDiagnostics_plain (P : Platform) (verbose : bool)
  (duplicateCount : nat) (sorted : list (string * list Instance)) :
  forall i array,
    pushDiagnostics P verbose false duplicateCount sorted i array
    = array ++ map (entryText P verbose) sorted.
Proof.
  induction sorted as [|[name instances] sorted IH]; intros i array; simpl.
  - symmetry. apply app_nil_r.
  - rewrite IH, <- app_assoc. reflexivity.
Qed.

Lemma pushDiagnostics_footer (P : Platform) (verbose : bool)
  (duplicateCount : nat) (sorted : list (string * list Instance)) :
  forall i array,
    i + List.length sorted = duplicateCount ->
    pushDiagnostics P verbose true duplicateCount sorted i array
    = array ++ withFooter (helpFooter P) (map (entryText P verbose) sorted).
Proof.
  induction sorted as [|[name instances] sorted IH]; intros i array Hcount.
  - simpl. symmetry. apply app_nil_r.
  - cbn [pushDiagnostics andb]. destruct sorted as [|next sorted].
    + simpl in Hcount.
      replace (S i =? duplicateCount)%nat with true
        by (symmetry; apply Nat.eqb_eq; lia).
      reflexivity.
    + replace (S i =? duplicateCount)%nat with false
        by (symmetry; apply Nat.eqb_neq; simpl in Hcount; lia).
      rewrite IH by (simpl in *; lia).
      rewrite <- app_assoc. reflexivity.
Qed.

(** X21: the messages pushed for a report are the diagnostics of its
    entries, in order; with [showHelp] the help footer is appended to
    the last of them and to no other, and without it to none. *)
Theorem help_footer_on_last_message_only (P : Platform)
  (verbose showHelp : bool) (sorted : list (string * list Instance))
  (array : list string) :
  pushDiagnostics P verbose showHelp (List.length sorted) sorted 0 array
  = array ++
    (if showHelp
     then withFooter (helpFooter P) (map (entryText P verbose) sorted)
     else map (entryText P verbose) sorted).
Proof.
  destruct showHelp.
  - apply pushDiagnostics_footer. reflexivity.
  - apply pushDiagnostics_plain.
Qed.

Lemma conclude_messages (P : Platform) (options : Options)
  (compilation : Compilation) (sorted : list (string * list Instance)) :
  sink options (conclude P options compilation sorted)
  = sink options compilation ++ messagesOf P options sorted.
Proof.
  unfold sink, conclude, messagesOf. simpl.
  assert (H : forall array,
             pushDiagnostics P (verbose options) (showHelp options)
               (List.length sorted) sorted 0 array
             = array ++
               (if showHelp options
                then withFooter (helpFooter P)
                       (map (entryText P (verbose options)) sorted)
                else map (entryText P (verbose options)) sorted)).
  { intros array. destruct (showHelp options).
    - apply pushDiagnostics_footer. reflexivity.
    - apply pushDiagnostics_plain. }
  destruct (emitError options); apply H.
Qed.

Lemma messagesOf_length (P : Platform) (options : Options)
  (sorted : list (string * list Instance)) :
  List.length (messagesOf P options sorted) = List.length sorted.
Proof.
  unfold messagesOf. destruct (showHelp options);
    rewrite ?withFooter_length; apply length_map.
Qed.

(** X22: a pass that completes calls back once, leaves the context, the
    module list and the sink the options do not select as they were,
    and appends to the selected sink, after what it held, one message
    for each reported name, in the order of the report. *)
Theorem emit_appends_to_selected_sink (P : Platform)
  (heap : ModRef -> ModuleObj) (fuel : nat) (options : Options)
  (compilation out : Compilation) :
  emit P heap fuel options compilation = Ret out ->
  context out = context compilation
  /\ modules out = modules compilation
  /\ callbacks out = S (callbacks compilation)
  /\ (if emitError options then warnings out = warnings compilation
      else errors out = errors compilation)
  /\ exists store duplicates,
       aggregate P heap fuel (context compilation) (modules compilation)
       = Ret store
       /\ classify P (strict options) (exclude options) store
          = Ret duplicates
       /\ sink options out
          = sink options compilation
            ++ messagesOf P options (report duplicates)
       /\ List.length (sink options out)
          = List.length (sink options compilation) + List.length duplicates.
Proof.
  intros H. rewrite emit_conclude in H.
  destruct (aggregate P heap fuel (context compilation)
              (modules compilation)) as [store| |] eqn:Hagg; simpl in H;
    try discriminate.
  destruct (classify P (strict options) (exclude options) store)
    as [duplicates| |] eqn:Hcl; simpl in H; try discriminate.
  injection H as <-.
  split; [reflexivity|]. split; [reflexivity|]. split; [reflexivity|].
  split.
  - unfold conclude. simpl. destruct (emitError options); reflexivity.
  - exists store, duplicates.
    split; [reflexivity|]. split; [exact Hcl|].
    rewrite conclude_messages. split; [reflexivity|].
    rewrite length_app, messagesOf_length, report_length. reflexivity.
Qed.

Lemma emit_appends_to_selected_sink_witness :
  exists out,
    emit dupPlatform dupHeap 5
         {| verbose := false; showHelp := true; emitError := true;
            exclude := None; strict := true |}
         {| context := "/app"; modules := [0; 1; 2; 3; 4];
            errors := ["earlier"]; warnings := ["kept"]; callbacks := 0 |}
    = Ret out
    /\ callbacks out = 1
    /\ warnings out = ["kept"]
    /\ List.length (errors out) = 2.
Proof.
  eexists. split; [reflexivity|].
  destruct (emit_appends_to_selected_sink dupPlatform dupHeap 5
              {| verbose := false; showHelp := true; emitError := true;
                 exclude := None; strict := true |}
              {| context := "/app"; modules := [0; 1; 2; 3; 4];
                 errors := ["earlier"]; warnings := ["kept"];
                 callbacks := 0 |}
              _ eq_refl) as (_ & _ & Hcb & Hw & _).
  split; [exact Hcb|]. split; [exact Hw|]. reflexivity.
Defined.

(* ================================================================== *)
(** * Part VI: what the handler reports *)
(* ================================================================== *)

(** ** The text of a diagnostic *)

Lemma string_append_assoc (a b c : string) :
  (a +++ b) +++ c = a +++ b +++ c.
Proof.
  induction a as [|x a IH]; simpl; [reflexivity|].
  rewrite IH. reflexivity.
Qed.

Lemma prefix_split (part s : string) :
  String.prefix part s = true ->
  s = part +++ dropString (String.length part) s.
Proof.
  revert s. induction part as [|a part IH]; intros s H.
  - reflexivity.
  - destruct s as [|c t]; simpl in H; [discriminate|].
    destruct (ascii_dec a c) as [->|]; [|discriminate].
    simpl. f_equal. apply IH. exact H.
Qed.

Lemma dropString_app_le (n : nat) (a b : string) :
  n <= String.length a -> dropString n (a +++ b) = dropString n a +++ b.
Proof.
  revert a. induction n as [|n IH]; intros a H; [reflexivity|].
  destruct a as [|c a]; simpl in *; [lia|]. apply IH. lia.
Qed.

Lemma afterFirst_unfold (part s : string) :
  afterFirst part s
  = if String.prefix part s then Some (dropString (String.length part) s)
    else match s with
         | EmptyString => None
         | String _ t => afterFirst part t
         end.
Proof. destruct s; reflexivity. Qed.

(** The first occurrence of a part ends no later than any occurrence. *)
Lemma afterFirst_suffix (before part rest : string) :
  exists y, afterFirst part (before +++ part +++ rest) = Some (y +++ rest).
Proof.
  induction before as [|a before IH].
  - exists EmptyString. cbn [String.append].
    rewrite afterFirst_unfold, prefix_append, dropString_append.
    reflexivity.
  - rewrite afterFirst_unfold.
    destruct (String.prefix part (String a before +++ part +++ rest)).
    + exists (dropString (String.length part) (String a before +++ part)).
      rewrite <- dropString_app_le.
      * rewrite string_append_assoc. reflexivity.
      * rewrite string_length_append. lia.
    + exact IH.
Qed.

Lemma afterFirst_spec (part t t' : string) :
  afterFirst part t = Some t' -> exists b, t = b +++ part +++ t'.
Proof.
  induction t as [|a t IH]; rewrite afterFirst_unfold;
    destruct (String.prefix part _) eqn:E; intros H.
  - injection H as <-. exists EmptyString. apply prefix_split. exact E.
  - discriminate.
  - injection H as <-. exists EmptyString. apply prefix_split. exact E.
  - destruct (IH H) as (b & ->). exists (String a b). reflexivity.
Qed.

Lemma listsInOrder_extend (parts : list string) :
  forall t x, listsInOrder parts t = true ->
              listsInOrder parts (x +++ t) = true.
Proof.
  induction parts as [|part parts IH]; intros t x H; [reflexivity|].
  cbn [listsInOrder] in *.
  destruct (afterFirst part t) as [t'|] eqn:E; [|discriminate].
  destruct (afterFirst_spec _ _ _ E) as (b & ->).
  destruct (afterFirst_suffix (x +++ b) part t') as (y & Hy).
  rewrite string_append_assoc in Hy. rewrite Hy. apply IH. exact H.
Qed.

Lemma listsInOrder_cons (part : string) (parts : list string)
  (before rest : string) :
  listsInOrder parts rest = true ->
  listsInOrder (part :: parts) (before +++ part +++ rest) = true.
Proof.
  intros H. cbn [listsInOrder].
  destruct (afterFirst_suffix before part rest) as (y & ->).
  apply listsInOrder_extend. exact H.
Qed.

Lemma instanceLine_listed (P : Platform) (verbose : bool) (i : Instance)
  (parts : list string) (rest : string) :
  listsInOrder parts rest = true ->
  listsInOrder (shownOf P verbose i ++ parts)
               (instanceLine P verbose i +++ rest) = true.
Proof.
  intros H. unfold shownOf, instanceLine.
  destruct verbose; [destruct (truthy (entry_issuer i)) as [issuer|]|];
    rewrite ?string_append_assoc; cbn [app];
    apply (listsInOrder_cons _ _ EmptyString);
    apply (listsInOrder_cons _ _ " ");
    try apply (listsInOrder_cons _ _ " from ");
    exact H.
Qed.

Lemma lines_listed (P : Platform) (verbose : bool) (l : list Instance) :
  forall post,
    listsInOrder (flat_map (shownOf P verbose) l)
      (String.concat (nl +++ "    ") (map (instanceLine P verbose) l)
       +++ post) = true.
Proof.
  induction l as [|i l IH]; intros post; [reflexivity|].
  destruct l as [|i' l].
  - cbn [map String.concat flat_map]. apply instanceLine_listed.
    reflexivity.
  - change (flat_map (shownOf P verbose) (i :: i' :: l))
      with (shownOf P verbose i ++ flat_map (shownOf P verbose) (i' :: l)).
    change (String.concat (nl +++ "    ")
              (map (instanceLine P verbose) (i :: i' :: l)))
      with (instanceLine P verbose i +++ (nl +++ "    ") +++
            String.concat (nl +++ "    ")
              (map (instanceLine P verbose) (i' :: l))).
    rewrite !string_append_assoc. apply instanceLine_listed.
    apply (listsInOrder_extend _ _ (nl +++ "    ")). apply IH.
Qed.

Lemma text_describes (P : Platform) (verbose : bool) (name : string)
  (instances : list Instance) (post : string) :
  describes P verbose (name, instances)
    (name +++ nl +++ chalk_reset P "  Multiple versions of " +++
     chalk_green_bold P name +++ chalk_white P (" found:" +++ nl) +++
     "    " +++
     String.concat (nl +++ "    ") (map (instanceLine P verbose) instances)
     +++ post).
Proof.
  unfold describes. cbn [fst snd].
  rewrite <- (string_append_assoc name nl). split.
  - apply prefix_append.
  - apply (listsInOrder_cons _ _ EmptyString).
    apply listsInOrder_cons.
    apply listsInOrder_extend, listsInOrder_extend, lines_listed.
Qed.

(** What the handler pushes for an entry of the report is a diagnostic
    of that entry. *)
Lemma diagnosticOf_describes (P : Platform) (verbose : bool)
  (entry : string * list Instance) (message : string) :
  diagnosticOf P verbose entry message -> describes P verbose entry message.
Proof.
  destruct entry as [name instances]. unfold diagnosticOf. cbn [fst snd].
  intros [->| ->]; unfold diagnostic.
  - apply text_describes.
  - rewrite !string_append_assoc. apply text_describes.
Qed.

Lemma messages_describe (P : Platform) (verbose : bool)
  (sorted : list (string * list Instance)) (messages : list string) :
  Forall2 (diagnosticOf P verbose) sorted messages ->
  Forall2 (describes P verbose) sorted messages.
Proof.
  apply Forall2_impl. intros entry message.
  apply diagnosticOf_describes.
Qed.

(** ** Strict mode *)



(** The two copies of [c]: the one message the handler pushes, with the
    help footer off. *)
Example strict_mode_message :
  emit dupPlatform dupHeap 5
       {| verbose := false; showHelp := false; emitError := false;
          exclude := None; strict := true |}
       (dupCompilation [0; 1; 2; 3; 4])
  = Ret {| context := "/app"; modules := [0; 1; 2; 3; 4]; errors := [];
           warnings :=
             [ "c" +++ nl +++
               "  Multiple versions of c found:" +++ nl +++
               "    3.0.0 ~/c@3.0.0" +++ nl +++ "~/b@2.0.0 -> c@3.0.0" +++ nl
               +++ "    3.1.0 ~/b@2.0.0 -> c@3.1.0" +++ nl ];
           callbacks := 1 |}.
Proof. reflexivity. Qed.

(** ** Relaxed mode *)

(** With an exclusion predicate the report is not the union of the
    groups of two or more: of [b] at 1.0.0, 1.5.0 and 2.0.0 the group of
    major version 1 has two members, the predicate rejects 1.5.0, and
    the handler reports nothing for [b]. *)
Lemma relaxed_report_not_union_under_exclusion :
  aggregate relaxedPlatform relaxedHeap 5 "/app" [0; 1; 2; 3]
  = Ret relaxedStore
  /\ getOwn relaxedStore "b" = Some [b_1_0_0; b_1_5_0; b_2_0_0]
  /\ groupSize relaxedPlatform [b_1_0_0; b_1_5_0; b_2_0_0] b_1_0_0 = 2
  /\ emit relaxedPlatform relaxedHeap 5
          {| verbose := false; showHelp := true; emitError := false;
             exclude := Some (excludeVersion "1.5.0"); strict := false |}
          (dupCompilation [0; 1; 2; 3])
     = Ret (calledBack (dupCompilation [0; 1; 2; 3])).
Proof. repeat split. Qed.

(** C2: in relaxed mode, without exclusion predicate, when every version
    of a package name with two or more instances is one [semver.major]
    accepts, the handler returns and pushes to the selected sink one
    message for each reported name, which shows the instances reported
    for it; a package name with two or more instances is reported
    exactly when some instance shares its major version with another
    one, and the instances reported for it are exactly those whose
    major-version group has two or more members; an instance alone in
    its group is never reported, nor a name with a single instance. *)
Theorem relaxed_mode_report (P : Platform) (heap : ModRef -> ModuleObj)
  (fuel : nat) (options : Options) (compilation : Compilation)
  (store : list (string * list Instance)) :
  strict options = false ->
  exclude options = None ->
  aggregate P heap fuel (context compilation) (modules compilation)
  = Ret store ->
  relaxedSafe P store = true ->
  exists sorted messages,
    emit P heap fuel options compilation
    = Ret (conclude P options compilation sorted)
    /\ sink options (conclude P options compilation sorted)
       = sink options compilation ++ messages
    /\ Forall2 (describes P (verbose options)) sorted messages
    /\ NoDup (map fst sorted)
    /\ (forall name,
          In name (map fst sorted) ->
          exists instances,
            getOwn store name = Some instances /\
            2 <= List.length instances)
    /\ (forall name instances,
          getOwn store name = Some instances ->
          2 <= List.length instances ->
          (In name (map fst sorted) <->
           exists i, In i instances /\ 2 <= groupSize P instances i)
          /\ (forall i,
                (exists reported,
                   In (name, reported) sorted /\ In i reported) <->
                In i instances /\ 2 <= groupSize P instances i)).
Proof.
  intros Hstrict Hexcl Hagg Hsafe.
  destruct (aggregate_NoDup_keys P heap fuel _ _ store Hagg)
    as (Hkeys & _ & _).
  assert (Hcl : classify P false None store
                = Ret (flat_map (selectedBy P false None)
                         (ownPropertyOrder arrayIndex store))).
  { apply (classify_returns P false None store Hkeys).
    intros name instances Hin. unfold relaxedSafe in Hsafe.
    rewrite forallb_forall in Hsafe. specialize (Hsafe _ Hin).
    simpl in Hsafe.
    pose proof (classifyName_relaxed_outcome P None name instances) as H.
    rewrite Hsafe in H. exact H. }
  destruct (classify_Ret P false None store _ Hkeys Hcl) as (_ & Hnd & _).
  set (duplicates := flat_map (selectedBy P false None)
                       (ownPropertyOrder arrayIndex store)) in *.
  destruct (conclude_sink P options compilation (report duplicates))
    as (messages & Hsink & Hall).
  exists (report duplicates), messages.
  split; [|split; [exact Hsink|split; [|split; [|split]]]].
  - rewrite emit_conclude, Hagg, Hstrict, Hexcl. simpl. rewrite Hcl.
    reflexivity.
  - apply messages_describe. exact Hall.
  - apply strLt_sorted_NoDup, report_names_sorted. exact Hnd.
  - intros name Hin. apply report_names_In in Hin.
    destruct (getOwn duplicates name) as [f|] eqn:Hf; [|congruence].
    apply getOwn_In in Hf.
    destruct (classify_In P false None store duplicates name f Hkeys Hcl Hf)
      as (instances & Hget & Hname).
    exists instances. split; [exact Hget|].
    destruct (Nat.leb_spec 2 (List.length instances)) as [Hle|Hlt];
      [exact Hle|].
    rewrite (classifyName_single P false None name instances) in Hname
      by lia.
    discriminate.
  - intros name instances Hget Hlen.
    exact (relaxed_mode_selection P heap fuel (context compilation)
             (modules compilation) store duplicates name instances
             Hagg Hcl Hget Hlen).
Qed.

Lemma relaxed_mode_report_witness :
  exists sorted messages,
    emit relaxedPlatform relaxedHeap 5 relaxedOptions
         (dupCompilation [0; 1; 2; 3])
    = Ret (conclude relaxedPlatform relaxedOptions
             (dupCompilation [0; 1; 2; 3]) sorted)
    /\ sink relaxedOptions
         (conclude relaxedPlatform relaxedOptions
            (dupCompilation [0; 1; 2; 3]) sorted)
       = sink relaxedOptions (dupCompilation [0; 1; 2; 3]) ++ messages
    /\ Forall2 (describes relaxedPlatform (verbose relaxedOptions))
               sorted messages
    /\ NoDup (map fst sorted)
    /\ (forall name,
          In name (map fst sorted) ->
          exists instances,
            getOwn relaxedStore name = Some instances /\
            2 <= List.length instances)
    /\ (forall name instances,
          getOwn relaxedStore name = Some instances ->
          2 <= List.length instances ->
          (In name (map fst sorted) <->
           exists i, In i instances /\
                     2 <= groupSize relaxedPlatform instances i)
          /\ (forall i,
                (exists reported,
                   In (name, reported) sorted /\ In i reported) <->
                In i instances /\
                2 <= groupSize relaxedPlatform instances i)).
Proof.
  apply (relaxed_mode_report relaxedPlatform relaxedHeap 5 relaxedOptions
           (dupCompilation [0; 1; 2; 3]) relaxedStore); reflexivity.
Defined.

(** The scenario of the specification: the one message the handler
    pushes shows 1.0.0 and 1.5.0 and not 2.0.0. *)
Example relaxed_mode_message :
  emit relaxedPlatform relaxedHeap 5
       {| verbose := false; showHelp := false; emitError := false;
          exclude := None; strict := false |}
       (dupCompilation [0; 1; 2; 3])
  = Ret {| context := "/app"; modules := [0; 1; 2; 3]; errors := [];
           warnings :=
             [ "b" +++ nl +++
               "  Multiple versions of b found:" +++ nl +++
               "    1.0.0 ~/b@1.0.0" +++ nl +++
               "    1.5.0 ~/b@1.5.0" +++ nl ];
           callbacks := 1 |}.
Proof. reflexivity. Qed.
